(** * Edge stack update and the DockerHub registry migration of Portainer

    A shallow embedding of

    - [updateEdgeStack] and [updateEdgeStackPayload.Validate]
      (package [edgestacks], the edge stack update handler), and
    - [updateDockerhubToDB32] (package [migrator], file
      [api/datastore/migrator/migrate_dbversion31.go]),

    together with the properties of the update that the specification
    states: reconciliation of the per-environment relation records, the
    deployment type guard, the artifact transition and the version/status
    invalidation. The other steps of the migration of that file
    ([updateRegistriesToDB32], [updateVolumeResourceControlToDB32],
    [findResourcesToUpdateForDB32], [kubeconfigExpiryToDB32] and
    [helmRepositoryURLToDB32]) and further properties of the update come
    after these.

    Go values are modelled as follows: identifiers ([EndpointID],
    [EdgeStackID], [EdgeGroupID], [RegistryID], all Go [int]) are [Z];
    Go maps are [gmap]s, the [map[EndpointID]bool] sets built by
    [EndpointSet] are [gset]s; a nil-able slice or pointer is an [option];
    a Go [error] is the type [error] below; code that reads and writes the
    data store and the file system is a function of the state monad [ST].
    The order in which a [range] loop visits the keys of a Go map is a
    parameter of the code that has such a loop ([RangeOrder]).

    What these functions use of other files of the repository is modelled
    from the specification, and marked so where it is defined. *)

From stdpp Require Import gmap strings list fin_maps pretty sorting.
From Stdlib Require Import ZArith.

Local Open Scope Z_scope.

(** ** Identifiers *)

Abbreviation EndpointID := Z (only parsing).
Abbreviation EdgeStackID := Z (only parsing).
Abbreviation EdgeGroupID := Z (only parsing).
Abbreviation RegistryID := Z (only parsing).
Abbreviation TagID := Z (only parsing).
Abbreviation UserID := Z (only parsing).
Abbreviation TeamID := Z (only parsing).

(** ** Errors *)

(** Modelled from the spec: the errors of the data services, which are
    not among the sources ("record or NotFound error"). A Go [error] is the
    distinguished "object not found" error, which [IsErrObjectNotFound]
    recognises, or any other error with its message. *)
Inductive error : Type :=
  | ErrObjectNotFound
  | errorString (msg : string).

Definition IsErrObjectNotFound (e : error) : bool :=
  match e with ErrObjectNotFound => true | errorString _ => false end.

(** [httperror.HandlerError] of the library [libhttp]: an HTTP status
    code and a message; [BadRequest], [NotFound] and [InternalServerError]
    build the errors of the status codes 400, 404 and 500. *)
Record HandlerError : Type := mkHandlerError {
  StatusCode : Z;
  Message : string
}.

Definition StatusBadRequest : Z := 400.
Definition StatusNotFound : Z := 404.
Definition StatusInternalServerError : Z := 500.

Definition BadRequest (msg : string) : HandlerError :=
  mkHandlerError StatusBadRequest msg.
Definition NotFound (msg : string) : HandlerError :=
  mkHandlerError StatusNotFound msg.
Definition InternalServerError (msg : string) : HandlerError :=
  mkHandlerError StatusInternalServerError msg.

(** ** Entities *)

(** Modelled from the spec: [portainer.EdgeStackDeploymentType] and its
    constants, declared in [api/portainer.go], which is not among the
    sources. The deployment type is "enumerated: compose-style,
    orchestrator-manifest-style". *)
Inductive EdgeStackDeploymentType : Type :=
  | EdgeStackDeploymentCompose
  | EdgeStackDeploymentKubernetes.

Global Instance EdgeStackDeploymentType_eq_dec : EqDecision EdgeStackDeploymentType.
Proof. solve_decision. Defined.

(** Modelled from the spec: [portainer.EndpointType], the runtime type of
    an environment, declared in [api/portainer.go], which is not among the
    sources: "several container-runtime and orchestrator variants". The
    three orchestrator variants are the ones that [updateDockerhubToDB32]
    names; the others are the container runtime variants. *)
Inductive EndpointType : Type :=
  | DockerEnvironment
  | AgentOnDockerEnvironment
  | AzureEnvironment
  | EdgeAgentOnDockerEnvironment
  | KubernetesLocalEnvironment
  | AgentOnKubernetesEnvironment
  | EdgeAgentOnKubernetesEnvironment.

Global Instance EndpointType_eq_dec : EqDecision EndpointType.
Proof. solve_decision. Defined.

(** Modelled from the spec: [portainer.EdgeStackStatus], declared in
    [api/portainer.go]: "a status record (state + timestamp + error detail,
    shape not otherwise constrained here)". The update only ever drops
    these records. *)
Record EdgeStackStatus : Type := mkEdgeStackStatus {
  StatusType : Z;
  StatusError : string;
  StatusEndpointID : EndpointID
}.

(** Modelled from the spec: the entities [portainer.EdgeStack],
    [portainer.Endpoint], [portainer.EdgeGroup] and
    [portainer.EndpointRelation], declared in [api/portainer.go], which is
    not among the sources. Each record has the fields that the sources read
    or write, with the names they have there, and those that section 3 gives
    it. *)
Module EdgeStack.
Record t : Type := mk {
  ID : EdgeStackID;
  EdgeGroups : list EdgeGroupID;
  DeploymentType : EdgeStackDeploymentType;
  EntryPoint : string;
  ManifestPath : string;
  UseManifestNamespaces : bool;
  Version : Z;
  Status : gmap Z EdgeStackStatus;
  NumDeployments : Z;
  ProjectPath : string
}.

Definition setEdgeGroups (v : list EdgeGroupID) (s : t) : t :=
  mk (ID s) v (DeploymentType s) (EntryPoint s) (ManifestPath s)
     (UseManifestNamespaces s) (Version s) (Status s) (NumDeployments s)
     (ProjectPath s).
Definition setDeploymentType (v : EdgeStackDeploymentType) (s : t) : t :=
  mk (ID s) (EdgeGroups s) v (EntryPoint s) (ManifestPath s)
     (UseManifestNamespaces s) (Version s) (Status s) (NumDeployments s)
     (ProjectPath s).
Definition setEntryPoint (v : string) (s : t) : t :=
  mk (ID s) (EdgeGroups s) (DeploymentType s) v (ManifestPath s)
     (UseManifestNamespaces s) (Version s) (Status s) (NumDeployments s)
     (ProjectPath s).
Definition setManifestPath (v : string) (s : t) : t :=
  mk (ID s) (EdgeGroups s) (DeploymentType s) (EntryPoint s) v
     (UseManifestNamespaces s) (Version s) (Status s) (NumDeployments s)
     (ProjectPath s).
Definition setUseManifestNamespaces (v : bool) (s : t) : t :=
  mk (ID s) (EdgeGroups s) (DeploymentType s) (EntryPoint s) (ManifestPath s)
     v (Version s) (Status s) (NumDeployments s) (ProjectPath s).
Definition setVersion (v : Z) (s : t) : t :=
  mk (ID s) (EdgeGroups s) (DeploymentType s) (EntryPoint s) (ManifestPath s)
     (UseManifestNamespaces s) v (Status s) (NumDeployments s) (ProjectPath s).
Definition setStatus (v : gmap Z EdgeStackStatus) (s : t) : t :=
  mk (ID s) (EdgeGroups s) (DeploymentType s) (EntryPoint s) (ManifestPath s)
     (UseManifestNamespaces s) (Version s) v (NumDeployments s) (ProjectPath s).
Definition setNumDeployments (v : Z) (s : t) : t :=
  mk (ID s) (EdgeGroups s) (DeploymentType s) (EntryPoint s) (ManifestPath s)
     (UseManifestNamespaces s) (Version s) (Status s) v (ProjectPath s).
End EdgeStack.

(** Modelled from the spec: [portainer.AccessPolicy], declared in
    [api/portainer.go]; the migration sets its [RoleID]. *)
Record AccessPolicy : Type := mkAccessPolicy {
  RoleID : Z
}.

Module Endpoint.
Record t : Type := mk {
  ID : EndpointID;
  Type_ : EndpointType;
  TagIDs : list TagID;
  UserAccessPolicies : gmap Z AccessPolicy;
  TeamAccessPolicies : gmap Z AccessPolicy
}.
End Endpoint.

Module EdgeGroup.
Record t : Type := mk {
  ID : EdgeGroupID;
  Name : string;
  Dynamic : bool;
  TagIDs : list TagID;
  Endpoints : list EndpointID;
  PartialMatch : bool
}.
End EdgeGroup.

Module EndpointRelation.
Record t : Type := mk {
  EndpointID_ : EndpointID;
  EdgeStacks : gmap Z bool
}.

Definition setEdgeStacks (v : gmap Z bool) (r : t) : t :=
  mk (EndpointID_ r) v.
End EndpointRelation.

(** ** The data store, the file system and the state monad *)

(** Modelled from the spec: the calls of the data services that fail
    though the record is there, "Store errors (collaborator failure):
    fetch/update failures against Relation or Stack records", each with the
    error it returns. Which calls fail is up to the store. *)
Module StoreFaults.
Record t : Type := mk {
  (** the error of [edge.FetchEndpointRelationsConfig], if it fails *)
  FetchEndpointRelationsConfig : option error;
  (** the error of [UpdateEndpointRelation] for the environment, if it
      fails *)
  UpdateEndpointRelation : EndpointID → option error;
  (** the error of [UpdateEdgeStack] for the stack, if it fails *)
  UpdateEdgeStack : EdgeStackID → option error
}.

(** A store whose calls do not fail. *)
Definition none : t := mk None (λ _, None) (λ _, None).
End StoreFaults.

(** Modelled from the spec: the collections of the data store that the
    update touches, and the calls of the store that fail. The data services
    are not among the sources; they give "create/read/update/delete access"
    to each collection, a read of an absent record fails with "not found",
    an update stores the record under its key, or fails and stores
    nothing. *)
Record DataStore : Type := mkDataStore {
  edgeStackBucket : gmap Z EdgeStack.t;
  endpointRelationBucket : gmap Z EndpointRelation.t;
  endpointBucket : list Endpoint.t;
  edgeGroupBucket : list EdgeGroup.t;
  storeFaults : StoreFaults.t
}.

(** A mutation of the world, recorded in the order it is performed. *)
Inductive Event : Type :=
  | EvUpdateEndpointRelation (id : EndpointID) (r : EndpointRelation.t)
  | EvUpdateEdgeStack (id : EdgeStackID) (s : EdgeStack.t)
  | EvRemoveDirectory (path : string)
  | EvStoreFile (dir name : string) (data : string).

(** The state the handler works on: the data store (through the
    transaction [tx]), the files on disk, keyed by directory and file name,
    and the trace of the mutations performed so far (latest first). *)
Record World : Type := mkWorld {
  tx : DataStore;
  disk : gmap (string * string) string;
  trace : list Event
}.

(** State and error monad: a computation returns its result or an error,
    and the world as it left it. An error does not undo what was done. *)
Definition ST (E A : Type) : Type := World → (E + A) * World.

Global Instance ST_ret {E} : MRet (ST E) := λ A a w, (inr a, w).
Global Instance ST_bind {E} : MBind (ST E) := λ A B k m w,
  match m w with
  | (inl e, w') => (inl e, w')
  | (inr a, w') => k a w'
  end.
Definition fail {E A} (e : E) : ST E A := λ w, (inl e, w).

(** [onErr f m]: [m], with its error translated by [f]
    (the [if err != nil { return nil, f(err) }] of the handler). *)
Definition onErr {E E' A} (f : E → E') (m : ST E A) : ST E' A :=
  λ w, match m w with
       | (inl e, w') => (inl (f e), w')
       | (inr a, w') => (inr a, w')
       end.

(** A pure fallible computation, run in the monad. *)
Definition lift {E A} (r : E + A) : ST E A := λ w, (r, w).

(** A [for ... range] loop over the keys [l], in that order, whose body
    may return early with an error. *)
Fixpoint forEach {E A} (l : list A) (body : A → ST E ()) : ST E () :=
  match l with
  | [] => mret ()
  | x :: l' => body x ;; forEach l' body
  end.

Definition setTx (d : DataStore) (w : World) : World :=
  mkWorld d (disk w) (trace w).
Definition setDisk (f : gmap (string * string) string) (w : World) : World :=
  mkWorld (tx w) f (trace w).
Definition logEvent (e : Event) (w : World) : World :=
  mkWorld (tx w) (disk w) (e :: trace w).

Definition setEdgeStackBucket (b : gmap Z EdgeStack.t) (d : DataStore) : DataStore :=
  mkDataStore b (endpointRelationBucket d) (endpointBucket d) (edgeGroupBucket d)
    (storeFaults d).
Definition setEndpointRelationBucket (b : gmap Z EndpointRelation.t) (d : DataStore)
  : DataStore :=
  mkDataStore (edgeStackBucket d) b (endpointBucket d) (edgeGroupBucket d)
    (storeFaults d).

(** *** Data services

    Modelled from the spec: [tx.EdgeStack()], [tx.EndpointRelation()] and
    [tx.Endpoint()], the data services of package [dataservices], which are
    not among the sources: "Store.GetStack(id) / UpdateStack(id, record) →
    record or NotFound error", "Store.GetRelation(environmentID) /
    UpdateRelation(environmentID, record)", "Store.GetEnvironment(id)". *)

Module tx_EdgeStack.
(** [tx.EdgeStack().EdgeStack(ID)] *)
Definition EdgeStack (id : EdgeStackID) : ST error EdgeStack.t := λ w,
  match edgeStackBucket (tx w) !! id with
  | Some s => (inr s, w)
  | None => (inl ErrObjectNotFound, w)
  end.

(** [tx.EdgeStack().UpdateEdgeStack(ID, stack)] *)
Definition UpdateEdgeStack (id : EdgeStackID) (s : EdgeStack.t) : ST error () :=
  λ w, match StoreFaults.UpdateEdgeStack (storeFaults (tx w)) id with
       | Some err => (inl err, w)
       | None =>
           (inr (),
            logEvent (EvUpdateEdgeStack id s)
              (setTx (setEdgeStackBucket (<[id := s]> (edgeStackBucket (tx w))) (tx w))
                 w))
       end.
End tx_EdgeStack.

Module tx_EndpointRelation.
(** [tx.EndpointRelation().EndpointRelation(endpointID)] *)
Definition EndpointRelation (id : EndpointID) : ST error EndpointRelation.t := λ w,
  match endpointRelationBucket (tx w) !! id with
  | Some r => (inr r, w)
  | None => (inl ErrObjectNotFound, w)
  end.

(** [tx.EndpointRelation().UpdateEndpointRelation(endpointID, relation)] *)
Definition UpdateEndpointRelation (id : EndpointID) (r : EndpointRelation.t)
  : ST error () :=
  λ w, match StoreFaults.UpdateEndpointRelation (storeFaults (tx w)) id with
       | Some err => (inl err, w)
       | None =>
           (inr (),
            logEvent (EvUpdateEndpointRelation id r)
              (setTx (setEndpointRelationBucket
                        (<[id := r]> (endpointRelationBucket (tx w))) (tx w)) w))
       end.
End tx_EndpointRelation.

Module tx_Endpoint.
(** [tx.Endpoint().Endpoint(endpointID)] *)
Definition Endpoint (id : EndpointID) (eps : list Endpoint.t) : error + Endpoint.t :=
  match List.find (λ e, bool_decide (Endpoint.ID e = id)) eps with
  | Some e => inr e
  | None => inl ErrObjectNotFound
  end.
End tx_Endpoint.

(** Modelled from the spec: [edge.EndpointRelationsConfig] and
    [edge.FetchEndpointRelationsConfig] of package [edge], which is not
    among the sources: the environments and the groups ("ListEnvironments()",
    "ListGroups()"), read once from the store, or the error of the store. *)
Record EndpointRelationsConfig : Type := mkEndpointRelationsConfig {
  config_Endpoints : list Endpoint.t;
  config_EdgeGroups : list EdgeGroup.t
}.

Definition FetchEndpointRelationsConfig : ST error EndpointRelationsConfig := λ w,
  match StoreFaults.FetchEndpointRelationsConfig (storeFaults (tx w)) with
  | Some err => (inl err, w)
  | None =>
      (inr (mkEndpointRelationsConfig (endpointBucket (tx w)) (edgeGroupBucket (tx w))),
       w)
  end.

(** *** File service *)

(** Modelled from the spec: what the handler holds besides the data
    store, the file service and the manifest converter, which are not among
    the sources: "FileStore.Write(projectFolder, fileName, content bytes) →
    path; FileStore.RemoveDirectory(path) → best-effort",
    "ManifestConverter.Convert(composeContent, targetEnvironmentIDs) →
    manifestContent or error". Which file operations fail and what the
    converter returns is up to these collaborators, so the handler is
    parametrised by them. *)
Record Handler : Type := mkHandler {
  (** the directory of the file service under which edge stacks are kept *)
  FileService_edgeStackStorePath : string;
  (** whether writing the file [name] in the folder [folder] fails *)
  FileService_storeFails : string → string → bool;
  (** whether removing the directory [path] fails *)
  FileService_removeFails : string → bool;
  (** [KubernetesDeployer.ConvertCompose]: the manifest for a compose file,
      or an error *)
  KubernetesDeployer_ConvertCompose : string → error + string
}.

(** Modelled from the spec: the operations of [handler.FileService]
    (package [filesystem], not among the sources) on the files, which are
    kept by directory and file name. *)
Module FileService.
(** [GetEdgeStackProjectPath(folder)]: where the files of a stack live. *)
Definition GetEdgeStackProjectPath (h : Handler) (folder : string) : string :=
  FileService_edgeStackStorePath h +:+ "/" +:+ folder.

(** [RemoveDirectory(path)]: every file of the directory is gone. *)
Definition RemoveDirectory (h : Handler) (path : string) : ST error () := λ w,
  if FileService_removeFails h path
  then (inl (errorString "unable to remove directory"), w)
  else (inr (),
        logEvent (EvRemoveDirectory path)
          (setDisk (filter (λ kv, fst (fst kv) ≠ path) (disk w)) w)).

(** [StoreEdgeStackFileFromBytes(folder, fileName, data)]: writes the
    file and returns its path. *)
Definition StoreEdgeStackFileFromBytes (h : Handler)
    (folder fileName : string) (data : string) : ST error string := λ w,
  if FileService_storeFails h folder fileName
  then (inl (errorString "unable to store file"), w)
  else (inr (GetEdgeStackProjectPath h folder +:+ "/" +:+ fileName),
        logEvent (EvStoreFile (GetEdgeStackProjectPath h folder) fileName data)
          (setDisk (<[(GetEdgeStackProjectPath h folder, fileName) := data]> (disk w)) w)).

(** [GetFileContent(dir, fileName)] *)
Definition GetFileContent (dir fileName : string) : ST error string := λ w,
  match disk w !! (dir, fileName) with
  | Some data => (inr data, w)
  | None => (inl (errorString "file not found"), w)
  end.
End FileService.

(** Modelled from the spec: the constants [ComposeFileDefaultName] and
    [ManifestFileDefaultName] of package [filesystem], which is not among
    the sources: the file names that the update falls back to ("default if
    empty"). *)
Definition ComposeFileDefaultName : string := "docker-compose.yml".
Definition ManifestFileDefaultName : string := "k8s-deployment.yml".

(** ** Membership resolver *)

(** Modelled from the spec: whether an environment satisfies the tag rule
    of a dynamic group, "any-tag match if partial-match enabled, all-tags
    match otherwise". *)
Definition matchesTags (g : EdgeGroup.t) (e : Endpoint.t) : bool :=
  if EdgeGroup.PartialMatch g
  then existsb (λ t, bool_decide (t ∈ Endpoint.TagIDs e)) (EdgeGroup.TagIDs g)
  else forallb (λ t, bool_decide (t ∈ Endpoint.TagIDs e)) (EdgeGroup.TagIDs g).

(** Modelled from the spec: the environments of one group, the listed
    ones for a static group, the matching ones for a dynamic group. *)
Definition EdgeGroupRelatedEndpoints (g : EdgeGroup.t) (endpoints : list Endpoint.t)
  : list EndpointID :=
  if EdgeGroup.Dynamic g
  then Endpoint.ID <$> filter (λ e, matchesTags g e = true) endpoints
  else EdgeGroup.Endpoints g.

(** Modelled from the spec: the loop of the resolver over the group
    identifiers; [acc] holds the environments of the groups before. *)
Fixpoint relatedEndpoints (edgeGroupIDs : list EdgeGroupID)
    (endpoints : list Endpoint.t) (edgeGroups : list EdgeGroup.t)
    (acc : list EndpointID) : error + list EndpointID :=
  match edgeGroupIDs with
  | [] => inr acc
  | edgeGroupID :: rest =>
      match List.find (λ g, bool_decide (EdgeGroup.ID g = edgeGroupID)) edgeGroups with
      | None => inl (errorString "Edge group was not found")
      | Some g =>
          relatedEndpoints rest endpoints edgeGroups
            (list_union acc (remove_dups (EdgeGroupRelatedEndpoints g endpoints)))
      end
  end.

(** Modelled from the spec: [edge.EdgeStackRelatedEndpoints] of package
    [edge], which is not among the sources. Section 4.1: "For each group
    ID, if the group is static, union in its listed environment IDs; if
    dynamic, evaluate each environment against the group's tag rule
    (any-tag match if partial-match enabled, all-tags match otherwise) and
    union in matches. Fails only if a referenced group ID does not exist".
    The result is a set, held in a slice. *)
Definition EdgeStackRelatedEndpoints (edgeGroupIDs : list EdgeGroupID)
    (endpoints : list Endpoint.t) (edgeGroups : list EdgeGroup.t)
  : error + list EndpointID :=
  relatedEndpoints edgeGroupIDs endpoints edgeGroups [].

(** Modelled from the spec: [endpointutils.EndpointSet] of package
    [endpointutils], which is not among the sources: the set of the
    identifiers of a slice ("oldSet", "newSet"). *)
Definition EndpointSet (ids : list EndpointID) : gset Z := list_to_set ids.

(** ** Deployment type guard *)

(** Modelled from the spec: whether the runtime type of an environment
    "is one of the orchestrator variants". *)
Definition IsKubernetesEndpoint (e : Endpoint.t) : bool :=
  match Endpoint.Type_ e with
  | KubernetesLocalEnvironment
  | AgentOnKubernetesEnvironment
  | EdgeAgentOnKubernetesEnvironment => true
  | _ => false
  end.

(** Modelled from the spec: whether an environment can run a stack of
    the deployment type. "Orchestrator-manifest-style stacks may only
    target environments whose runtime type is one of the orchestrator
    variants; compose-style stacks may only target the remaining
    variants." *)
Definition compatibleType (d : EdgeStackDeploymentType) (e : Endpoint.t) : bool :=
  match d with
  | EdgeStackDeploymentKubernetes => IsKubernetesEndpoint e
  | EdgeStackDeploymentCompose => negb (IsKubernetesEndpoint e)
  end.

(** Modelled from the spec: whether one of the environments satisfies
    the predicate; reading an environment that is not in the store is an
    error. *)
Fixpoint hasEndpointPredicate (eps : list Endpoint.t) (endpointIDs : list EndpointID)
    (predicate : Endpoint.t → bool) : error + bool :=
  match endpointIDs with
  | [] => inr false
  | endpointID :: rest =>
      match tx_Endpoint.Endpoint endpointID eps with
      | inl err => inl err
      | inr endpoint =>
          if predicate endpoint then inr true
          else hasEndpointPredicate eps rest predicate
      end
  end.

(** Modelled from the spec: [hasWrongEnvironmentType], which is in
    another file of package [edgestacks], not among the sources. Section
    4.3: the target set is valid "iff every targeted environment's type is
    compatible". *)
Definition hasWrongEnvironmentType (endpointIDs : list EndpointID)
    (deploymentType : EdgeStackDeploymentType) : ST error bool := λ w,
  (hasEndpointPredicate (endpointBucket (tx w)) endpointIDs
     (λ e, negb (compatibleType deploymentType e)), w).

(** Modelled from the spec: whether one of the environments is
    "orchestrator-capable". *)
Definition hasKubeEndpoint (endpointIDs : list EndpointID) : ST error bool := λ w,
  (hasEndpointPredicate (endpointBucket (tx w)) endpointIDs IsKubernetesEndpoint, w).

(** Modelled from the spec: [handler.convertAndStoreKubeManifestIfNeeded],
    which is in another file of package [edgestacks], not among the
    sources. Section 4.4: "attempt to derive and persist an orchestrator
    manifest from it for any targeted orchestrator-capable environments
    (conversion is delegated to an external converter; conversion failure
    aborts the whole update)". With no such environment nothing is derived
    and the manifest path is empty. *)
Definition convertAndStoreKubeManifestIfNeeded (handler : Handler)
    (stackFolder projectPath composePath : string)
    (relatedEndpointIds : list EndpointID) : ST error string :=
  hasKube ← hasKubeEndpoint relatedEndpointIds;
  if negb hasKube then mret ""
  else
    composeConfig ← FileService.GetFileContent projectPath composePath;
    kubeManifest ← lift (KubernetesDeployer_ConvertCompose handler composeConfig);
    _ ← FileService.StoreEdgeStackFileFromBytes handler stackFolder
          ManifestFileDefaultName kubeManifest;
    mret ManifestFileDefaultName.

(** Modelled from the spec: [handler.handlerDBErr], which is in another
    file of package [edgestacks], not among the sources: "record or NotFound
    error", so "not found" for an absent object, an internal error
    otherwise. *)
Definition handlerDBErr (msg : string) (err : error) : HandlerError :=
  if IsErrObjectNotFound err then NotFound msg else InternalServerError msg.

(** ** The update payload *)

Module updateEdgeStackPayload.
Record t : Type := mk {
  StackFileContent : string;
  Version : option Z;
  EdgeGroups : option (list EdgeGroupID);
  DeploymentType : EdgeStackDeploymentType;
  UseManifestNamespaces : bool
}.

(** [len(payload.EdgeGroups)], which is 0 for a nil slice *)
Definition lenEdgeGroups (payload : t) : nat :=
  match EdgeGroups payload with
  | None => 0%nat
  | Some l => length l
  end.

(** [func (payload *updateEdgeStackPayload) Validate] *)
Definition Validate (payload : t) : option error :=
  if decide (StackFileContent payload = "")
  then Some (errorString "invalid stack file content")
  else if decide (lenEdgeGroups payload = 0%nat)
  then Some (errorString "edge Groups are mandatory for an Edge stack")
  else None.
End updateEdgeStackPayload.

(** ** Relation reconciler *)

(** The order in which the two [range] loops over the maps
    [endpointsToRemove] and [endpointsToAdd] visit the keys. Go leaves it
    unspecified: every order is possible and it may change from one run to
    the next. A preference list stands for the choice of the runtime. *)
Record RangeOrder : Type := mkRangeOrder {
  rangeRemove : list EndpointID;
  rangeAdd : list EndpointID
}.

(** The keys of [s], each once: first those that the preference list
    names, in its order, then the others. *)
Definition rangeKeys (prio : list EndpointID) (s : gset Z) : list EndpointID :=
  filter (λ k, k ∈ s) (remove_dups prio) ++ filter (λ k, k ∉ prio) (elements s).

(** The body of the first loop (lines 126 to 136): the entry of the stack
    is deleted from the relation of the environment. *)
Definition removeStackFromRelation (stackID : EdgeStackID) (endpointID : EndpointID)
  : ST HandlerError () :=
  relation ← onErr (λ _, InternalServerError "Unable to find environment relation in database")
               (tx_EndpointRelation.EndpointRelation endpointID);
  onErr (λ _, InternalServerError "Unable to persist environment relation in database")
    (tx_EndpointRelation.UpdateEndpointRelation endpointID
       (EndpointRelation.setEdgeStacks
          (delete stackID (EndpointRelation.EdgeStacks relation)) relation)).

(** The body of the second loop (lines 146 to 156): the entry of the stack
    is set in the relation of the environment. *)
Definition addStackToRelation (stackID : EdgeStackID) (endpointID : EndpointID)
  : ST HandlerError () :=
  relation ← onErr (λ _, InternalServerError "Unable to find environment relation in database")
               (tx_EndpointRelation.EndpointRelation endpointID);
  onErr (λ _, InternalServerError "Unable to persist environment relation in database")
    (tx_EndpointRelation.UpdateEndpointRelation endpointID
       (EndpointRelation.setEdgeStacks
          (<[stackID := true]> (EndpointRelation.EdgeStacks relation)) relation)).

(** Lines 115 to 157 of [updateEdgeStack]: the relations of the
    environments that left the target set lose the stack, those of the
    environments that joined it gain it. *)
Definition reconcileRelations (o : RangeOrder) (stackID : EdgeStackID)
    (relatedEndpointIds newRelated : list EndpointID) : ST HandlerError () :=
  let oldRelatedSet := EndpointSet relatedEndpointIds in
  let newRelatedSet := EndpointSet newRelated in
  let endpointsToRemove : gset Z := filter (λ endpointID, endpointID ∉ newRelatedSet) oldRelatedSet in
  forEach (rangeKeys (rangeRemove o) endpointsToRemove) (removeStackFromRelation stackID);;
  let endpointsToAdd : gset Z := filter (λ endpointID, endpointID ∉ oldRelatedSet) newRelatedSet in
  forEach (rangeKeys (rangeAdd o) endpointsToAdd) (addStackToRelation stackID).

(** ** The update *)

(** A call whose error is logged and dropped. *)
Definition logWarn {E} (m : ST error ()) : ST E () := λ w, (inr (), snd (m w)).

Definition updateEdgeStack (handler : Handler) (o : RangeOrder)
    (stackID : EdgeStackID) (payload : updateEdgeStackPayload.t)
  : ST HandlerError EdgeStack.t :=
  stack ← onErr (handlerDBErr "Unable to find a stack with the specified identifier inside the database")
            (tx_EdgeStack.EdgeStack stackID);
  relationConfig ← onErr (λ _, InternalServerError "Unable to retrieve environments relations config from database")
                     FetchEndpointRelationsConfig;
  relatedEndpointIds ←
    onErr (λ _, InternalServerError "Unable to retrieve edge stack related environments from database")
      (lift (EdgeStackRelatedEndpoints (EdgeStack.EdgeGroups stack)
               (config_Endpoints relationConfig) (config_EdgeGroups relationConfig)));
  '(stack, relatedEndpointIds) ←
    match updateEdgeStackPayload.EdgeGroups payload with
    | Some payloadEdgeGroups =>
        newRelated ←
          onErr (λ _, InternalServerError "Unable to retrieve edge stack related environments from database")
            (lift (EdgeStackRelatedEndpoints payloadEdgeGroups
                     (config_Endpoints relationConfig) (config_EdgeGroups relationConfig)));
        reconcileRelations o (EdgeStack.ID stack) relatedEndpointIds newRelated;;
        mret (EdgeStack.setEdgeGroups payloadEdgeGroups stack, newRelated)
    | None => mret (stack, relatedEndpointIds)
    end;
  stack ←
    (if decide (EdgeStack.DeploymentType stack ≠ updateEdgeStackPayload.DeploymentType payload)
     then
       (* deployment type was changed - need to delete the old file *)
       logWarn (FileService.RemoveDirectory handler (EdgeStack.ProjectPath stack));;
       mret (EdgeStack.setDeploymentType (updateEdgeStackPayload.DeploymentType payload)
               (EdgeStack.setManifestPath "" (EdgeStack.setEntryPoint "" stack)))
     else mret stack);
  let stackFolder := pretty (EdgeStack.ID stack) in
  hasWrongType ←
    onErr (λ _, BadRequest "unable to check for existence of non fitting environments: %w")
      (hasWrongEnvironmentType relatedEndpointIds
         (updateEdgeStackPayload.DeploymentType payload));
  if (hasWrongType : bool)
  then fail (BadRequest "edge stack with config do not match the environment type")
  else
  stack ←
    (if decide (updateEdgeStackPayload.DeploymentType payload = EdgeStackDeploymentCompose)
     then
       let stack :=
         if decide (EdgeStack.EntryPoint stack = "")
         then EdgeStack.setEntryPoint ComposeFileDefaultName stack else stack in
       _ ← onErr (λ _, InternalServerError "Unable to persist updated Compose file on disk")
             (FileService.StoreEdgeStackFileFromBytes handler stackFolder
                (EdgeStack.EntryPoint stack)
                (updateEdgeStackPayload.StackFileContent payload));
       manifestPath ←
         onErr (λ _, InternalServerError "Unable to convert and persist updated Kubernetes manifest file on disk")
           (convertAndStoreKubeManifestIfNeeded handler stackFolder
              (EdgeStack.ProjectPath stack) (EdgeStack.EntryPoint stack)
              relatedEndpointIds);
       mret (EdgeStack.setManifestPath manifestPath stack)
     else mret stack);
  stack ←
    (if decide (updateEdgeStackPayload.DeploymentType payload = EdgeStackDeploymentKubernetes)
     then
       let stack :=
         if decide (EdgeStack.ManifestPath stack = "")
         then EdgeStack.setManifestPath ManifestFileDefaultName stack else stack in
       let stack :=
         EdgeStack.setUseManifestNamespaces
           (updateEdgeStackPayload.UseManifestNamespaces payload) stack in
       _ ← onErr (λ _, InternalServerError "Unable to persist updated Kubernetes manifest file on disk")
             (FileService.StoreEdgeStackFileFromBytes handler stackFolder
                (EdgeStack.ManifestPath stack)
                (updateEdgeStackPayload.StackFileContent payload));
       mret stack
     else mret stack);
  let versionUpdated :=
    match updateEdgeStackPayload.Version payload with
    | Some v => bool_decide (v ≠ EdgeStack.Version stack)
    | None => false
    end in
  let stack :=
    if versionUpdated
    then EdgeStack.setStatus ∅
           (EdgeStack.setVersion
              (default (EdgeStack.Version stack) (updateEdgeStackPayload.Version payload))
              stack)
    else stack in
  let stack := EdgeStack.setNumDeployments (Z.of_nat (length relatedEndpointIds)) stack in
  let stack := if versionUpdated then EdgeStack.setStatus ∅ stack else stack in
  onErr (λ _, InternalServerError "Unable to persist the stack changes inside the database")
    (tx_EdgeStack.UpdateEdgeStack (EdgeStack.ID stack) stack);;
  mret stack.


(** ** The HTTP handler *)

(** Modelled from the spec: [DataStore.UpdateTx(fn)] of the data store,
    which is not among the sources. Sections 2, 4.6 and 9: "multi-entity
    atomicity across a reconciliation is a best-effort wrapper, not
    guaranteed by the store itself"; the relation writes of an update that
    fails later are "accepted as a best-effort, not rolled back". So [fn]
    runs on the store and its error, if any, is returned; what [fn] wrote
    before it failed stays written. *)
Definition UpdateTx {E A} (fn : ST E A) : ST E A := λ w, fn w.

(** [func (handler *Handler) edgeStackUpdate]: [routeID] is the numeric
    route variable, if it is one; [body] is the decoded payload, if the body
    of the request is one; [noTx] is the feature flag
    [portainer.FeatureNoTx]. *)
Definition edgeStackUpdate (handler : Handler) (noTx : bool) (o : RangeOrder)
    (routeID : option EdgeStackID) (body : option updateEdgeStackPayload.t)
  : ST HandlerError EdgeStack.t :=
  match routeID with
  | None => fail (BadRequest "Invalid stack identifier route variable")
  | Some stackID =>
      match body with
      | None => fail (BadRequest "Invalid request payload")
      | Some payload =>
          match updateEdgeStackPayload.Validate payload with
          | Some _ => fail (BadRequest "Invalid request payload")
          | None =>
              if noTx
              then updateEdgeStack handler o stackID payload
              else UpdateTx (updateEdgeStack handler o stackID payload)
          end
      end
  end.

(** * The migration of the DockerHub settings to a registry
    ([api/datastore/migrator/migrate_dbversion31.go]) *)

(** Modelled from the spec: [portainer.RegistryType] and its constant
    for DockerHub, declared in [api/portainer.go], which is not among the
    sources; the migration only compares the type of a registry with the
    constant. *)
Abbreviation RegistryType := Z (only parsing).
Definition DockerHubRegistry : RegistryType := 6.

(** Modelled from the spec: [portainer.RegistryAccessPolicies],
    [portainer.Registry] and [portainer.DockerHub], declared in
    [api/portainer.go], with the fields that the migration reads or
    writes. *)
Record RegistryAccessPolicies : Type := mkRegistryAccessPolicies {
  RegistryUserAccessPolicies : gmap Z AccessPolicy;
  RegistryTeamAccessPolicies : gmap Z AccessPolicy;
  Namespaces : list string
}.

Module Registry.
Record t : Type := mk {
  ID : RegistryID;
  Type_ : RegistryType;
  Name : string;
  URL : string;
  Authentication : bool;
  Username : string;
  Password : string;
  RegistryAccesses : gmap Z RegistryAccessPolicies
}.

Definition setID (v : RegistryID) (r : t) : t :=
  mk v (Type_ r) (Name r) (URL r) (Authentication r) (Username r) (Password r)
     (RegistryAccesses r).
Definition setRegistryAccesses (v : gmap Z RegistryAccessPolicies) (r : t) : t :=
  mk (ID r) (Type_ r) (Name r) (URL r) (Authentication r) (Username r) (Password r) v.
End Registry.

Module DockerHub.
Record t : Type := mk {
  Authentication : bool;
  Username : string;
  Password : string
}.
End DockerHub.

(** Modelled from the spec: the calls of the services of the migrator
    that fail, each with the error it returns ("Store errors (collaborator
    failure)"). Which calls fail is up to the store. *)
Module MigratorFaults.
Record t : Type := mk {
  (** the error of [dockerhubService.DockerHub], if it fails *)
  DockerHub : option error;
  (** the error of [registryService.Registries], if it fails *)
  Registries : option error;
  (** the error of [registryService.DeleteRegistry] for the identifier, if
      it fails *)
  DeleteRegistry : RegistryID → option error;
  (** the error of [registryService.Create], if it fails *)
  Create : option error;
  (** the error of [endpointService.Endpoints], if it fails *)
  Endpoints : option error
}.

(** Services that do not fail. *)
Definition none : t := mk None None (λ _, None) None None.
End MigratorFaults.

(** Modelled from the spec: the services of the migrator that
    [updateDockerhubToDB32] uses, as the state they stand for. The data
    services are not among the sources ("generic create/read/update/delete
    access"). The DockerHub settings are one record, which may be absent;
    the registries are listed in the order of the bucket; a registry is
    deleted by its identifier; a created registry gets the next identifier
    of the bucket's sequence and comes last. A call that fails returns its
    error, and no result, and leaves the store as it was. *)
Record Migrator : Type := mkMigrator {
  dockerhubBucket : option DockerHub.t;
  registryBucket : list Registry.t;
  registrySequence : Z;
  migratorEndpoints : list Endpoint.t;
  migratorFaults : MigratorFaults.t
}.

Module dockerhubService.
(** [m.dockerhubService.DockerHub()] *)
Definition DockerHub (m : Migrator) : error + DockerHub.t :=
  match MigratorFaults.DockerHub (migratorFaults m) with
  | Some err => inl err
  | None =>
      match dockerhubBucket m with
      | Some dockerhub => inr dockerhub
      | None => inl ErrObjectNotFound
      end
  end.
End dockerhubService.

Module registryService.
(** [m.registryService.Registries()] *)
Definition Registries (m : Migrator) : error + list Registry.t :=
  match MigratorFaults.Registries (migratorFaults m) with
  | Some err => inl err
  | None => inr (registryBucket m)
  end.

(** [m.registryService.DeleteRegistry(ID)] *)
Definition DeleteRegistry (id : RegistryID) (m : Migrator) : option error * Migrator :=
  match MigratorFaults.DeleteRegistry (migratorFaults m) id with
  | Some err => (Some err, m)
  | None =>
      (None,
       mkMigrator (dockerhubBucket m)
         (filter (λ r, Registry.ID r ≠ id) (registryBucket m))
         (registrySequence m) (migratorEndpoints m) (migratorFaults m))
  end.

(** [m.registryService.Create(registry)] *)
Definition Create (registry : Registry.t) (m : Migrator) : option error * Migrator :=
  match MigratorFaults.Create (migratorFaults m) with
  | Some err => (Some err, m)
  | None =>
      let id := registrySequence m + 1 in
      (None,
       mkMigrator (dockerhubBucket m)
         (registryBucket m ++ [Registry.setID id registry])
         id (migratorEndpoints m) (migratorFaults m))
  end.
End registryService.

Module endpointService.
(** [m.endpointService.Endpoints()] *)
Definition Endpoints (m : Migrator) : error + list Endpoint.t :=
  match MigratorFaults.Endpoints (migratorFaults m) with
  | Some err => inl err
  | None => inr (migratorEndpoints m)
  end.
End endpointService.

(** The condition of line 116: the registry [r] has the type, the name,
    the URL and the authentication flag of the migrated registry. *)
Definition sameMigratedEntry (registry r : Registry.t) : bool :=
  bool_decide (Registry.Type_ r = Registry.Type_ registry)
  && bool_decide (Registry.Name r = Registry.Name registry)
  && bool_decide (Registry.URL r = Registry.URL registry)
  && bool_decide (Registry.Authentication r = Registry.Authentication registry).

(** The loop of lines 115 to 129 over the registries that were listed,
    with the flag [migrated] and the store as its state. *)
Fixpoint dedupLoop (registry : Registry.t) (registries : list Registry.t)
    (migrated : bool) (m : Migrator) : bool * Migrator :=
  match registries with
  | [] => (migrated, m)
  | r :: rest =>
      if sameMigratedEntry registry r
      then
        if negb migrated
        then (* keep this one entry *)
          dedupLoop registry rest true m
        else (* delete subsequent duplicates *)
          let '(_, m) := registryService.DeleteRegistry (Registry.ID r) m in
          dedupLoop registry rest migrated m
      else dedupLoop registry rest migrated m
  end.

(** The two inner loops of lines 146 to 162: every user, and every team,
    of the environment gets the policy with the role 0. *)
Definition defaultAccessPolicies (policies : gmap Z AccessPolicy) : gmap Z AccessPolicy :=
  (λ _, mkAccessPolicy 0) <$> policies.

(** The loop of lines 140 to 170 over the environments. *)
Fixpoint accessLoop (endpoints : list Endpoint.t)
    (accesses : gmap Z RegistryAccessPolicies) : gmap Z RegistryAccessPolicies :=
  match endpoints with
  | [] => accesses
  | endpoint :: rest =>
      if bool_decide (Endpoint.Type_ endpoint ≠ KubernetesLocalEnvironment)
         && bool_decide (Endpoint.Type_ endpoint ≠ AgentOnKubernetesEnvironment)
         && bool_decide (Endpoint.Type_ endpoint ≠ EdgeAgentOnKubernetesEnvironment)
      then
        accessLoop rest
          (<[Endpoint.ID endpoint :=
               mkRegistryAccessPolicies
                 (defaultAccessPolicies (Endpoint.UserAccessPolicies endpoint))
                 (defaultAccessPolicies (Endpoint.TeamAccessPolicies endpoint))
                 []]> accesses)
      else accessLoop rest accesses
  end.

(** [func (m *Migrator) updateDockerhubToDB32() error]: the error returned,
    if any, and the store afterwards. *)
Definition updateDockerhubToDB32 (m : Migrator) : option error * Migrator :=
  match dockerhubService.DockerHub m with
  | inl err =>
      if IsErrObjectNotFound err then (None, m) else (Some err, m)
  | inr dockerhub =>
      if negb (DockerHub.Authentication dockerhub) then (None, m)
      else
        let registry :=
          Registry.mk 0 DockerHubRegistry "Dockerhub (authenticated - migrated)"
            "docker.io" true (DockerHub.Username dockerhub)
            (DockerHub.Password dockerhub) ∅ in
        (* The following code will make this function idempotent. *)
        let registries :=
          match registryService.Registries m with
          | inr registries => registries
          | inl _ => []
          end in
        let '(migrated, m) := dedupLoop registry registries false m in
        if migrated then (None, m)
        else
          match endpointService.Endpoints m with
          | inl err => (Some err, m)
          | inr endpoints =>
              registryService.Create
                (Registry.setRegistryAccesses
                   (accessLoop endpoints (Registry.RegistryAccesses registry))
                   registry)
                m
          end
  end.

(** * Auxiliary definitions for the statements *)

(** ** What the two loops of the reconciliation do to the relations *)

(** The relation record without, and with, the entry of the stack. *)
Definition withoutStack (stackID : EdgeStackID) (r : EndpointRelation.t)
  : EndpointRelation.t :=
  EndpointRelation.setEdgeStacks (delete stackID (EndpointRelation.EdgeStacks r)) r.
Definition withStack (stackID : EdgeStackID) (r : EndpointRelation.t)
  : EndpointRelation.t :=
  EndpointRelation.setEdgeStacks (<[stackID := true]> (EndpointRelation.EdgeStacks r)) r.

(** A loop that rewrites the relation of each key with [g], on the
    relation bucket and the trace alone: it stops, with [false], at the
    first key that has no relation record, or whose relation record the
    store fails to update ([fails]). *)
Fixpoint relationLoop (fails : EndpointID → option error)
    (g : EndpointRelation.t → EndpointRelation.t)
    (l : list EndpointID) (b : gmap Z EndpointRelation.t) (t : list Event)
  : bool * gmap Z EndpointRelation.t * list Event :=
  match l with
  | [] => (true, b, t)
  | id :: l' =>
      match b !! id, fails id with
      | Some r, None =>
          relationLoop fails g l' (<[id := g r]> b)
            (EvUpdateEndpointRelation id (g r) :: t)
      | _, _ => (false, b, t)
      end
  end.

(** The keys that such a loop gets through: those that have a relation
    record whose update does not fail. *)
Definition passable (fails : EndpointID → option error)
    (b : gmap Z EndpointRelation.t) : gset Z :=
  filter (λ id, fails id = None) (dom b).

(** The keys that such a loop gets to: those before the first one outside
    of [D], the keys that it gets through. *)
Fixpoint visited (D : gset Z) (l : list EndpointID) : list EndpointID :=
  match l with
  | [] => []
  | id :: l' => if decide (id ∈ D) then id :: visited D l' else []
  end.

(** The membership flag of a stack in the relation of an environment, as
    the agents read it. *)
Definition membershipFlag (b : gmap Z EndpointRelation.t)
    (endpointID : EndpointID) (stackID : EdgeStackID) : option bool :=
  r ← b !! endpointID; EndpointRelation.EdgeStacks r !! stackID.

(** The relation bucket of a world. *)
Definition relationsOf (w : World) : gmap Z EndpointRelation.t :=
  endpointRelationBucket (tx w).

(** The stack bucket of a world. *)
Definition stacksOf (w : World) : gmap Z EdgeStack.t :=
  edgeStackBucket (tx w).

(** The writes of stack records in a trace. *)
Definition isStackWrite (e : Event) : bool :=
  match e with EvUpdateEdgeStack _ _ => true | _ => false end.
Definition stackWrites (t : list Event) : list Event :=
  filter (λ e, isStackWrite e = true) t.

Definition isRelationWrite (e : Event) : bool :=
  match e with EvUpdateEndpointRelation _ _ => true | _ => false end.

Definition isFileEvent (e : Event) : bool :=
  match e with EvRemoveDirectory _ | EvStoreFile _ _ _ => true | _ => false end.

(** The world with another relation bucket and another trace. *)
Definition withRelations (b : gmap Z EndpointRelation.t) (t : list Event) (w : World)
  : World :=
  mkWorld (setEndpointRelationBucket b (tx w)) (disk w) t.

Definition errRelationNotFound : HandlerError :=
  InternalServerError "Unable to find environment relation in database".
Definition errRelationNotPersisted : HandlerError :=
  InternalServerError "Unable to persist environment relation in database".

(** The updates of relation records that fail in a world. *)
Definition relationFaults (w : World) : EndpointID → option error :=
  StoreFaults.UpdateEndpointRelation (storeFaults (tx w)).

(** The error of a computation that fails. *)
Definition errorOf {A} (r : HandlerError + A) : HandlerError :=
  match r with
  | inl e => e
  | inr _ => errRelationNotFound
  end.

(** The two loops of [reconcileRelations], one after the other, on the
    relation bucket and the trace alone; the second one runs only when the
    first one got to its end. *)
Definition reconcileLoops (fails : EndpointID → option error)
    (o : RangeOrder) (stackID : EdgeStackID)
    (relatedEndpointIds newRelated : list EndpointID)
    (b : gmap Z EndpointRelation.t) (t : list Event)
  : bool * gmap Z EndpointRelation.t * list Event :=
  let oldRelatedSet := EndpointSet relatedEndpointIds in
  let newRelatedSet := EndpointSet newRelated in
  let endpointsToRemove : gset Z := filter (λ id, id ∉ newRelatedSet) oldRelatedSet in
  let endpointsToAdd : gset Z := filter (λ id, id ∉ oldRelatedSet) newRelatedSet in
  let r1 := relationLoop fails (withoutStack stackID)
              (rangeKeys (rangeRemove o) endpointsToRemove) b t in
  if r1.1.1
  then relationLoop fails (withStack stackID)
         (rangeKeys (rangeAdd o) endpointsToAdd) r1.1.2 r1.2
  else r1.

(** The error of the reconciliation when it fails. *)
Definition reconcileError (o : RangeOrder) (stackID : EdgeStackID)
    (relatedEndpointIds newRelated : list EndpointID) (w : World) : HandlerError :=
  errorOf (reconcileRelations o stackID relatedEndpointIds newRelated w).1.

(** The environments that leave, and that join, the target set. *)
Definition endpointsToRemove (relatedEndpointIds newRelated : list EndpointID) : gset Z :=
  filter (λ id, id ∉ EndpointSet newRelated) (EndpointSet relatedEndpointIds).
Definition endpointsToAdd (relatedEndpointIds newRelated : list EndpointID) : gset Z :=
  filter (λ id, id ∉ EndpointSet relatedEndpointIds) (EndpointSet newRelated).

(** ** A concrete installation

    The scenario of the specification: the compose stack 1 at version 1
    targets the group 1, which lists the environment 1; the group 2 lists
    the environment 2; both environments run a container runtime. The
    environment 3 is an orchestrator agent, listed by the group 3. The
    group 4 lists an environment that does not exist. No call of the store
    fails. *)

Definition exHandler : Handler :=
  mkHandler "/data/edge_stacks" (λ _ _, false) (λ _, false) (λ compose, inr compose).

Definition exStack : EdgeStack.t :=
  EdgeStack.mk 1 [1] EdgeStackDeploymentCompose "docker-compose.yml" "" false 1
    {[ 1 := mkEdgeStackStatus 0 "" 1 ]} 1 "/data/edge_stacks/1".

Definition exDataStore : DataStore :=
  mkDataStore
    {[ 1 := exStack ]}
    {[ 1 := EndpointRelation.mk 1 {[ 1 := true ]};
       2 := EndpointRelation.mk 2 ∅;
       3 := EndpointRelation.mk 3 ∅ ]}
    [ Endpoint.mk 1 EdgeAgentOnDockerEnvironment [] ∅ ∅;
      Endpoint.mk 2 EdgeAgentOnDockerEnvironment [] ∅ ∅;
      Endpoint.mk 3 EdgeAgentOnKubernetesEnvironment [] ∅ ∅ ]
    [ EdgeGroup.mk 1 "EdgeGroup 1" false [] [1] false;
      EdgeGroup.mk 2 "EdgeGroup 2" false [] [2] false;
      EdgeGroup.mk 3 "EdgeGroup 3" false [] [3] false;
      EdgeGroup.mk 4 "EdgeGroup 4" false [] [8889] false ]
    StoreFaults.none.

Definition exWorld : World :=
  mkWorld exDataStore
    {[ ("/data/edge_stacks/1", "docker-compose.yml") := "version: 3" ]} [].

Definition exOrder : RangeOrder := mkRangeOrder [] [].

(** ** Frames *)

(** [w1] comes from [w] by steps that write no stack record and leave
    the environments and the groups alone. *)
Definition stepsFrom (w w1 : World) : Prop :=
  stacksOf w1 = stacksOf w
  ∧ endpointBucket (tx w1) = endpointBucket (tx w)
  ∧ edgeGroupBucket (tx w1) = edgeGroupBucket (tx w)
  ∧ ∃ evs, trace w1 = evs ++ trace w ∧ stackWrites evs = [].

(** [w1] comes from [w] by steps on the files only. *)
Definition fileStepsFrom (w w1 : World) : Prop :=
  tx w1 = tx w
  ∧ ∃ evs, trace w1 = evs ++ trace w ∧ Forall (λ e, isFileEvent e = true) evs.

(** Every run of the computation is such a sequence of steps. *)
Definition framed {E A} (m : ST E A) : Prop := ∀ w, stepsFrom w (m w).2.
Definition fileFramed {E A} (m : ST E A) : Prop := ∀ w, fileStepsFrom w (m w).2.
Definition readOnly {E A} (m : ST E A) : Prop := ∀ w, (m w).2 = w.

(** ** The stack record that a successful update persists *)

(** Lines 163 to 173: a change of the deployment type clears both paths. *)
Definition typeTransition (d : EdgeStackDeploymentType) (stack : EdgeStack.t)
  : EdgeStack.t :=
  if decide (EdgeStack.DeploymentType stack ≠ d)
  then EdgeStack.setDeploymentType d
         (EdgeStack.setManifestPath "" (EdgeStack.setEntryPoint "" stack))
  else stack.

(** Lines 185 to 201, for the manifest path that the conversion returns. *)
Definition composeFields (manifestPath : string) (stack : EdgeStack.t) : EdgeStack.t :=
  EdgeStack.setManifestPath manifestPath
    (if decide (EdgeStack.EntryPoint stack = "")
     then EdgeStack.setEntryPoint ComposeFileDefaultName stack else stack).

(** Lines 203 to 214. *)
Definition kubernetesFields (useManifestNamespaces : bool) (stack : EdgeStack.t)
  : EdgeStack.t :=
  EdgeStack.setUseManifestNamespaces useManifestNamespaces
    (if decide (EdgeStack.ManifestPath stack = "")
     then EdgeStack.setManifestPath ManifestFileDefaultName stack else stack).

(** Line 216: whether the payload asks for another version. *)
Definition versionUpdated (requested : option Z) (stack : EdgeStack.t) : bool :=
  match requested with
  | Some v => bool_decide (v ≠ EdgeStack.Version stack)
  | None => false
  end.

(** Lines 216 to 226. *)
Definition versionFields (requested : option Z) (numDeployments : Z)
    (stack : EdgeStack.t) : EdgeStack.t :=
  let stack' :=
    EdgeStack.setNumDeployments numDeployments
      (if versionUpdated requested stack
       then EdgeStack.setStatus ∅
              (EdgeStack.setVersion (default (EdgeStack.Version stack) requested) stack)
       else stack) in
  if versionUpdated requested stack then EdgeStack.setStatus ∅ stack' else stack'.

(** The record of the stored stack [s] after lines 109 to 214, when the
    update gets that far. There the guard has passed, so that a compose
    stack targets no orchestrator and has no manifest derived. *)
Definition preparedStack (payload : updateEdgeStackPayload.t) (s : EdgeStack.t)
  : EdgeStack.t :=
  let stack :=
    match updateEdgeStackPayload.EdgeGroups payload with
    | Some payloadEdgeGroups => EdgeStack.setEdgeGroups payloadEdgeGroups s
    | None => s
    end in
  let stack := typeTransition (updateEdgeStackPayload.DeploymentType payload) stack in
  let stack :=
    if decide (updateEdgeStackPayload.DeploymentType payload = EdgeStackDeploymentCompose)
    then composeFields "" stack else stack in
  if decide (updateEdgeStackPayload.DeploymentType payload = EdgeStackDeploymentKubernetes)
  then kubernetesFields (updateEdgeStackPayload.UseManifestNamespaces payload) stack
  else stack.

(** The record that the update of the stored stack [s] persists when it
    gets to its end, [related] being the target set it resolved. *)
Definition finalStack (payload : updateEdgeStackPayload.t) (s : EdgeStack.t)
    (related : list EndpointID) : EdgeStack.t :=
  versionFields (updateEdgeStackPayload.Version payload) (Z.of_nat (length related))
    (preparedStack payload s).

(** The group list that the update resolves into its target set: that of
    the payload, or the stored one when the payload has none. *)
Definition targetGroups (payload : updateEdgeStackPayload.t) (s : EdgeStack.t)
  : list EdgeGroupID :=
  match updateEdgeStackPayload.EdgeGroups payload with
  | Some payloadEdgeGroups => payloadEdgeGroups
  | None => EdgeStack.EdgeGroups s
  end.

(** The world after the reconciliation of the update, if it has one. *)
Definition reconciledWorld (o : RangeOrder) (payload : updateEdgeStackPayload.t)
    (s : EdgeStack.t) (old related : list EndpointID) (w : World) : World :=
  match updateEdgeStackPayload.EdgeGroups payload with
  | Some _ => (reconcileRelations o (EdgeStack.ID s) old related w).2
  | None => w
  end.

(** Whether one of the environments cannot run the deployment type. *)
Definition hasWrongType (d : DataStore) (related : list EndpointID)
    (deploymentType : EdgeStackDeploymentType) : error + bool :=
  hasEndpointPredicate (endpointBucket d) related
    (λ e, negb (compatibleType deploymentType e)).

(** What a run of the update comes to. On success: the stack was stored,
    both group lists resolved, the guard passed, the record returned is
    [finalStack], it is what the store now holds, it was written by the
    last and only write of a stack record, and the relations are as the
    reconciliation left them. On failure: no stack record was written. *)
Definition updateOutcome (o : RangeOrder) (stackID : EdgeStackID)
    (payload : updateEdgeStackPayload.t) (w : World)
    (rw : (HandlerError + EdgeStack.t) * World) : Prop :=
  match rw with
  | (inr s', w') =>
      ∃ s old related,
        stacksOf w !! stackID = Some s
        ∧ EdgeStackRelatedEndpoints (EdgeStack.EdgeGroups s)
            (endpointBucket (tx w)) (edgeGroupBucket (tx w)) = inr old
        ∧ EdgeStackRelatedEndpoints (targetGroups payload s)
            (endpointBucket (tx w)) (edgeGroupBucket (tx w)) = inr related
        ∧ hasWrongType (tx w) related (updateEdgeStackPayload.DeploymentType payload)
          = inr false
        ∧ (is_Some (updateEdgeStackPayload.EdgeGroups payload) →
           (reconcileRelations o (EdgeStack.ID s) old related w).1 = inr ())
        ∧ s' = finalStack payload s related
        ∧ stacksOf w' = <[EdgeStack.ID s := s']> (stacksOf w)
        ∧ relationsOf w' = relationsOf (reconciledWorld o payload s old related w)
        ∧ ∃ evs, trace w' = EvUpdateEdgeStack (EdgeStack.ID s) s' :: evs ++ trace w
                 ∧ stackWrites evs = []
  | (inl e, w') => stepsFrom w w'
  end.

(** ** The invariant of the stack record *)

(** The deployment type and the two paths agree: a compose stack has an
    entry point and no manifest, a manifest stack has a manifest and no
    entry point. *)
Definition pathsConsistent (s : EdgeStack.t) : Prop :=
  match EdgeStack.DeploymentType s with
  | EdgeStackDeploymentCompose =>
      EdgeStack.EntryPoint s ≠ "" ∧ EdgeStack.ManifestPath s = ""
  | EdgeStackDeploymentKubernetes =>
      EdgeStack.ManifestPath s ≠ "" ∧ EdgeStack.EntryPoint s = ""
  end.

(** ** Payloads for the concrete installation *)

(** The stack 1 gets the group 2 as well, and the version 2. *)
Definition exPayloadAddGroup : updateEdgeStackPayload.t :=
  updateEdgeStackPayload.mk "version: 3.1" (Some 2) (Some [1; 2])
    EdgeStackDeploymentCompose false.

(** The same groups and content, without a version. *)
Definition exPayloadNoVersion : updateEdgeStackPayload.t :=
  updateEdgeStackPayload.mk "version: 3.1" None (Some [1; 2])
    EdgeStackDeploymentCompose false.

(** The stack 1 moves to the orchestrator group 3 and becomes a manifest. *)
Definition exPayloadToKubernetes : updateEdgeStackPayload.t :=
  updateEdgeStackPayload.mk "kind: Deployment" (Some 2) (Some [3])
    EdgeStackDeploymentKubernetes true.

(** The stack 1 becomes a manifest while it targets container runtimes. *)
Definition exPayloadWrongType : updateEdgeStackPayload.t :=
  updateEdgeStackPayload.mk "kind: Deployment" (Some 2) (Some [1; 2])
    EdgeStackDeploymentKubernetes false.

(** The payloads of the test [TestUpdateWithInvalidEdgeGroups]: a group
    that does not exist, a group with an environment that does not exist,
    and a deployment type that the environments cannot run. *)
Definition exPayloadUnknownGroup : updateEdgeStackPayload.t :=
  updateEdgeStackPayload.mk "error-test" (Some 238) (Some [9999])
    EdgeStackDeploymentCompose false.

Definition exPayloadUnknownEndpoint : updateEdgeStackPayload.t :=
  updateEdgeStackPayload.mk "error-test" (Some 238) (Some [4])
    EdgeStackDeploymentCompose false.

Definition exPayloadDockerToKubernetes : updateEdgeStackPayload.t :=
  updateEdgeStackPayload.mk "error-test" (Some 238) (Some [1])
    EdgeStackDeploymentKubernetes false.

(** The payload of the test [TestUpdateAndInspect]. *)
Definition exPayloadUpdateAndInspect : updateEdgeStackPayload.t :=
  updateEdgeStackPayload.mk "update-test" (Some 238) (Some [1; 2])
    EdgeStackDeploymentCompose false.

(** The status code of the answer to a request. *)
Definition statusOf {A} (r : HandlerError + A) : Z :=
  match r with
  | inl e => StatusCode e
  | inr _ => 200
  end.

(** The record of the stack 1 after [exPayloadAddGroup]. *)
Definition exStackAfterAddGroup : EdgeStack.t :=
  EdgeStack.mk 1 [1; 2] EdgeStackDeploymentCompose "docker-compose.yml" "" false 2
    ∅ 2 "/data/edge_stacks/1".

(** ** Two sentences of the specification, as they are written *)

(** "Fails only if a referenced group ID does not exist [...] this is a
    caller error (invalid payload) and must abort the whole update before
    any mutation", with the error class of a validation error. *)
Definition unknown_group_is_bad_request : Prop :=
  ∀ (h : Handler) (o : RangeOrder) (stackID : EdgeStackID)
    (payload : updateEdgeStackPayload.t) (w : World)
    (groups : list EdgeGroupID) (gid : EdgeGroupID),
    updateEdgeStackPayload.EdgeGroups payload = Some groups →
    gid ∈ groups →
    (∀ g, g ∈ edgeGroupBucket (tx w) → EdgeGroup.ID g ≠ gid) →
    let r := updateEdgeStack h o stackID payload w in
    r.2 = w ∧ ∃ e, r.1 = inl e ∧ StatusCode e = StatusBadRequest.

(** The result of the reconciliation of the update, if it has one. *)
Definition reconciliationResult (o : RangeOrder) (payload : updateEdgeStackPayload.t)
    (s : EdgeStack.t) (old related : list EndpointID) (w : World)
  : HandlerError + () :=
  match updateEdgeStackPayload.EdgeGroups payload with
  | Some _ => (reconcileRelations o (EdgeStack.ID s) old related w).1
  | None => inr ()
  end.

(** The files after the removal of the old project directory, if the
    deployment type changes. *)
Definition diskAfterTransition (h : Handler) (payload : updateEdgeStackPayload.t)
    (s : EdgeStack.t) (w : World) : gmap (string * string) string :=
  if decide (EdgeStack.DeploymentType s ≠ updateEdgeStackPayload.DeploymentType payload)
  then disk (FileService.RemoveDirectory h (EdgeStack.ProjectPath s) w).2
  else disk w.

(** "Updating a stack whose new target set includes an environment of an
    incompatible runtime type for the requested deployment type must
    reject with a bad-request-class error and leave the Stack record,
    Relation records, and on-disk artifacts unchanged." *)
Definition guard_runs_before_mutation : Prop :=
  ∀ (h : Handler) (o : RangeOrder) (stackID : EdgeStackID)
    (payload : updateEdgeStackPayload.t) (w : World) (s : EdgeStack.t)
    (old related : list EndpointID) (id : EndpointID) (endpoint : Endpoint.t),
    stacksOf w !! stackID = Some s →
    EdgeStackRelatedEndpoints (EdgeStack.EdgeGroups s)
      (endpointBucket (tx w)) (edgeGroupBucket (tx w)) = inr old →
    EdgeStackRelatedEndpoints (targetGroups payload s)
      (endpointBucket (tx w)) (edgeGroupBucket (tx w)) = inr related →
    id ∈ related →
    tx_Endpoint.Endpoint id (endpointBucket (tx w)) = inr endpoint →
    compatibleType (updateEdgeStackPayload.DeploymentType payload) endpoint = false →
    let r := updateEdgeStack h o stackID payload w in
    (∃ e, r.1 = inl e ∧ StatusCode e = StatusBadRequest)
    ∧ stacksOf r.2 = stacksOf w
    ∧ relationsOf r.2 = relationsOf w
    ∧ disk r.2 = disk w.

(** ** The registries of the migration *)

(** A registry is an entry of the migration: it is a DockerHub registry
    named "Dockerhub (authenticated - migrated)" at "docker.io" with
    authentication. *)
Definition isMigratedEntry (r : Registry.t) : bool :=
  bool_decide (Registry.Type_ r = DockerHubRegistry)
  && bool_decide (Registry.Name r = "Dockerhub (authenticated - migrated)")
  && bool_decide (Registry.URL r = "docker.io")
  && bool_decide (Registry.Authentication r = true).

(** The registries without the entries of the migration that come after
    the first one ([seen]: an entry came before). *)
Fixpoint keepFirst (seen : bool) (l : list Registry.t) : list Registry.t :=
  match l with
  | [] => []
  | r :: l' =>
      if isMigratedEntry r
      then if seen then keepFirst true l' else r :: keepFirst true l'
      else r :: keepFirst seen l'
  end.

(** The same, when the store fails to delete some registries ([fails]):
    these stay. *)
Fixpoint keepFirstBut (fails : RegistryID → option error) (seen : bool)
    (l : list Registry.t) : list Registry.t :=
  match l with
  | [] => []
  | r :: l' =>
      if isMigratedEntry r
      then
        if seen
        then
          match fails (Registry.ID r) with
          | Some _ => r :: keepFirstBut fails true l'
          | None => keepFirstBut fails true l'
          end
        else r :: keepFirstBut fails true l'
      else r :: keepFirstBut fails seen l'
  end.

(** The identifiers that the loop of the migration deletes: those of the
    entries after the first one ([migrated]: an entry came before) whose
    deletion does not fail. *)
Definition deletedIDs (fails : RegistryID → option error) (migrated : bool)
    (registries : list Registry.t) : list RegistryID :=
  filter (λ id, fails id = None)
    (Registry.ID <$> drop (if migrated then 0 else 1)%nat
                       (filter (λ r, isMigratedEntry r = true) registries)).

(** A store of the migrator: the DockerHub settings say to authenticate,
    and earlier runs of the migration left three entries, among other
    registries. No call of the services fails. *)
Definition exMigratedEntry (id : RegistryID) : Registry.t :=
  Registry.mk id DockerHubRegistry "Dockerhub (authenticated - migrated)" "docker.io"
    true "user" "secret" ∅.

Definition exOtherRegistry (id : RegistryID) : Registry.t :=
  Registry.mk id 3 "Quay" "quay.io" false "" "" ∅.

Definition exMigrator : Migrator :=
  mkMigrator (Some (DockerHub.mk true "user" "secret"))
    [exOtherRegistry 1; exMigratedEntry 2; exOtherRegistry 3; exMigratedEntry 4;
     exMigratedEntry 5]
    5 [] MigratorFaults.none.

(** The same store, with DockerHub settings that do not authenticate. *)
Definition exMigratorUnauthenticated : Migrator :=
  mkMigrator (Some (DockerHub.mk false "" "")) (registryBucket exMigrator) 5 []
    MigratorFaults.none.

(** The same store, when the listing of the registries fails. *)
Definition exMigratorNoListing : Migrator :=
  mkMigrator (dockerhubBucket exMigrator) (registryBucket exMigrator) 5 []
    (MigratorFaults.mk None (Some (errorString "bucket not found")) (λ _, None)
       None None).

(** "If a registry matching the migrated entry's type, name, URL, and
    authentication flag already exists, running updateDockerhubToDB32
    again creates no new registry, keeps exactly the first matching entry,
    and deletes every subsequent duplicate, so after any run at most one
    such migrated entry remains." *)
Definition migration_leaves_one_entry : Prop :=
  ∀ m : Migrator,
    NoDup (Registry.ID <$> registryBucket m) →
    let m1 := (updateDockerhubToDB32 m).2 in
    ((∃ r, r ∈ registryBucket m ∧ isMigratedEntry r = true) →
     registryBucket m1 = keepFirst false (registryBucket m))
    ∧ (length (filter (λ r, isMigratedEntry r = true) (registryBucket m1)) ≤ 1)%nat.

(** * Further properties: auxiliary definitions *)

(** ** What the update of a stack may touch *)

(** The relation record [r'] is the record [r] up to the entry of the
    stack. *)
Definition sameButStack (stackID : EdgeStackID) (r r' : EndpointRelation.t) : Prop :=
  EndpointRelation.EndpointID_ r' = EndpointRelation.EndpointID_ r
  ∧ ∀ id, id ≠ stackID →
      EndpointRelation.EdgeStacks r' !! id = EndpointRelation.EdgeStacks r !! id.

(** [w1] comes from [w] by steps that leave alone the environments, the
    groups, the records of the other stacks, the entries of the other
    stacks in the relation records, and the files outside of the
    directories [dirs]; no relation record comes or goes. *)
Definition touchesOnly (stackID : EdgeStackID) (dirs : list string) (w w1 : World)
  : Prop :=
  endpointBucket (tx w1) = endpointBucket (tx w)
  ∧ edgeGroupBucket (tx w1) = edgeGroupBucket (tx w)
  ∧ (∀ id, id ≠ stackID → stacksOf w1 !! id = stacksOf w !! id)
  ∧ dom (relationsOf w1) = dom (relationsOf w)
  ∧ (∀ id r r', relationsOf w !! id = Some r → relationsOf w1 !! id = Some r' →
       sameButStack stackID r r')
  ∧ (∀ dir name, dir ∉ dirs → disk w1 !! (dir, name) = disk w !! (dir, name)).

(** Every run of the computation is such a sequence of steps. *)
Definition touching {E A} (stackID : EdgeStackID) (dirs : list string) (m : ST E A)
  : Prop :=
  ∀ w, touchesOnly stackID dirs w (m w).2.

(** The identifier and the project path of a record are those of [s]. *)
Definition sameStack (s stack : EdgeStack.t) : Prop :=
  EdgeStack.ID stack = EdgeStack.ID s
  ∧ EdgeStack.ProjectPath stack = EdgeStack.ProjectPath s.

(** The directories in which the update of the stored stack [s] works:
    the project path of the record, which it removes, and the folder of the
    file service for the identifier, in which it writes. *)
Definition stackDirs (h : Handler) (s : EdgeStack.t) : list string :=
  [EdgeStack.ProjectPath s;
   FileService.GetEdgeStackProjectPath h (pretty (EdgeStack.ID s))].

(** The file of a stack record that holds the content of the stack: the
    entry point of a compose stack, the manifest of a manifest stack. *)
Definition stackFileName (s : EdgeStack.t) : string :=
  match EdgeStack.DeploymentType s with
  | EdgeStackDeploymentCompose => EdgeStack.EntryPoint s
  | EdgeStackDeploymentKubernetes => EdgeStack.ManifestPath s
  end.

(** Every error of the computation satisfies [P]. *)
Definition failsWith {E A} (P : E → Prop) (m : ST E A) : Prop :=
  ∀ w e w1, m w = (inl e, w1) → P e.

(** The errors of the update that are not "not found": a bad request or
    an internal server error. *)
Definition clientOrServerError (e : HandlerError) : Prop :=
  StatusCode e = StatusBadRequest ∨ StatusCode e = StatusInternalServerError.

(** * The other steps of the migration to the version 32
    ([api/datastore/migrator/migrate_dbversion31.go])

    [updateRegistriesToDB32], [updateVolumeResourceControlToDB32] with
    [findResourcesToUpdateForDB32], [kubeconfigExpiryToDB32] and
    [helmRepositoryURLToDB32]. The records that they read and write are
    declared in [api/portainer.go], the services of the migrator in package
    [dataservices], [IsDockerEndpoint] in package [endpointutils] and
    [FetchDockerID] in package [snapshot]; none of them is among the
    sources. A record has the fields that the migrations name; a service is
    the bucket of the store that it stands for, with the failures that the
    migrations handle; the two functions are parameters. *)

Abbreviation ResourceControlID := Z (only parsing).
Abbreviation ResourceControlType := Z (only parsing).

(** [portainer.VolumeResourceControl]; the migration only compares the
    type of a resource control with the constant. *)
Definition VolumeResourceControl : ResourceControlType := 3.

Module ResourceControl.
Record t : Type := mk {
  ID : ResourceControlID;
  ResourceID : string;
  Type_ : ResourceControlType
}.

Definition setResourceID (v : string) (r : t) : t := mk (ID r) v (Type_ r).
End ResourceControl.

(** A volume of the volume list of the Docker engine ([volume.Volume]). *)
Module Volume.
Record t : Type := mk {
  Name : string;
  CreatedAt : string
}.
End Volume.

(** [volume.VolumeListOKBody]; its slice of volumes may be nil. *)
Module VolumeListOKBody.
Record t : Type := mk {
  Volumes : option (list Volume.t)
}.
End VolumeListOKBody.

(** [portainer.DockerSnapshot], with the volume list of its raw part and
    the raw information of the engine, which only [FetchDockerID] reads;
    that is kept as the document it is. *)
Module DockerSnapshot.
Record t : Type := mk {
  SnapshotRaw_Info : string;
  SnapshotRaw_Volumes : VolumeListOKBody.t
}.
End DockerSnapshot.

(** [portainer.Registry] with the two fields that hold its access
    policies of before the version 32, beside the fields of [Registry.t]. *)
Module RegistryRecord.
Record t : Type := mk {
  registry : Registry.t;
  UserAccessPolicies : gmap Z AccessPolicy;
  TeamAccessPolicies : gmap Z AccessPolicy
}.

Definition ID (r : t) : RegistryID := Registry.ID (registry r).
Definition RegistryAccesses (r : t) : gmap Z RegistryAccessPolicies :=
  Registry.RegistryAccesses (registry r).
Definition setRegistryAccesses (v : gmap Z RegistryAccessPolicies) (r : t) : t :=
  mk (Registry.setRegistryAccesses v (registry r)) (UserAccessPolicies r)
     (TeamAccessPolicies r).
End RegistryRecord.

(** [portainer.Endpoint] with its snapshots, beside the fields of
    [Endpoint.t]. *)
Module EndpointRecord.
Record t : Type := mk {
  endpoint : Endpoint.t;
  Snapshots : list DockerSnapshot.t
}.

Definition ID (e : t) : EndpointID := Endpoint.ID (endpoint e).
Definition UserAccessPolicies (e : t) : gmap Z AccessPolicy :=
  Endpoint.UserAccessPolicies (endpoint e).
Definition TeamAccessPolicies (e : t) : gmap Z AccessPolicy :=
  Endpoint.TeamAccessPolicies (endpoint e).
End EndpointRecord.

(** [portainer.Settings], with the two fields that the migrations set. *)
Module Settings.
Record t : Type := mk {
  KubeconfigExpiry : string;
  HelmRepositoryURL : string
}.

Definition setKubeconfigExpiry (v : string) (s : t) : t := mk v (HelmRepositoryURL s).
Definition setHelmRepositoryURL (v : string) (s : t) : t := mk (KubeconfigExpiry s) v.
End Settings.

(** [portainer.DefaultKubeconfigExpiry] and
    [portainer.DefaultHelmRepositoryURL]. *)
Definition DefaultKubeconfigExpiry : string := "0".
Definition DefaultHelmRepositoryURL : string := "https://charts.bitnami.com/bitnami".

(** The buckets of the store that these migrations work on. A bucket
    that they write to maps the key of a record to the record. *)
Record MigratorDB32 : Type := mkMigratorDB32 {
  registryBucket32 : gmap Z RegistryRecord.t;
  endpointBucket32 : list EndpointRecord.t;
  resourceControlBucket : gmap Z ResourceControl.t;
  settingsBucket : option Settings.t
}.

Definition setRegistryBucket32 (b : gmap Z RegistryRecord.t) (m : MigratorDB32)
  : MigratorDB32 :=
  mkMigratorDB32 b (endpointBucket32 m) (resourceControlBucket m) (settingsBucket m).
Definition setResourceControlBucket (b : gmap Z ResourceControl.t) (m : MigratorDB32)
  : MigratorDB32 :=
  mkMigratorDB32 (registryBucket32 m) (endpointBucket32 m) b (settingsBucket m).
Definition setSettingsBucket (s : option Settings.t) (m : MigratorDB32) : MigratorDB32 :=
  mkMigratorDB32 (registryBucket32 m) (endpointBucket32 m) (resourceControlBucket m) s.

(** What the migrations use and do not define: which calls of the
    services fail, and with which error (a call that fails writes
    nothing), and the two functions of other packages. *)
Record Services32 : Type := mkServices32 {
  Registries_fails : option error;
  UpdateRegistry_fails : RegistryID → option error;
  Endpoints_fails : option error;
  ResourceControls_fails : option error;
  UpdateResourceControl_fails : ResourceControlID → option error;
  DeleteResourceControl_fails : ResourceControlID → option error;
  UpdateSettings_fails : option error;
  (** [endpointutils.IsDockerEndpoint] *)
  IsDockerEndpoint : Endpoint.t → bool;
  (** [snapshotutils.FetchDockerID] *)
  FetchDockerID : DockerSnapshot.t → error + string
}.

(** The order of the entries of a bucket: that of their keys. *)
Definition keyLe {V} (kv1 kv2 : Z * V) : Prop := kv1.1 ≤ kv2.1.

Global Instance keyLe_dec {V} : RelDecision (@keyLe V).
Proof. intros kv1 kv2. unfold keyLe. apply _. Defined.

(** The records of a bucket as the store lists them, in the order of
    their keys. *)
Definition bucketRecords {V} (b : gmap Z V) : list V :=
  (merge_sort keyLe (map_to_list b)).*2.

Module registryService32.
(** [m.registryService.Registries()] *)
Definition Registries (c : Services32) (m : MigratorDB32)
  : error + list RegistryRecord.t :=
  match Registries_fails c with
  | Some err => inl err
  | None => inr (bucketRecords (registryBucket32 m))
  end.

(** [m.registryService.UpdateRegistry(ID, registry)] *)
Definition UpdateRegistry (c : Services32) (id : RegistryID) (registry : RegistryRecord.t)
    (m : MigratorDB32) : option error * MigratorDB32 :=
  match UpdateRegistry_fails c id with
  | Some err => (Some err, m)
  | None => (None, setRegistryBucket32 (<[id := registry]> (registryBucket32 m)) m)
  end.
End registryService32.

Module endpointService32.
(** [m.endpointService.Endpoints()] *)
Definition Endpoints (c : Services32) (m : MigratorDB32) : error + list EndpointRecord.t :=
  match Endpoints_fails c with
  | Some err => inl err
  | None => inr (endpointBucket32 m)
  end.
End endpointService32.

Module resourceControlService.
(** [m.resourceControlService.ResourceControls()] *)
Definition ResourceControls (c : Services32) (m : MigratorDB32)
  : error + list ResourceControl.t :=
  match ResourceControls_fails c with
  | Some err => inl err
  | None => inr (bucketRecords (resourceControlBucket m))
  end.

(** [m.resourceControlService.UpdateResourceControl(ID, resourceControl)] *)
Definition UpdateResourceControl (c : Services32) (id : ResourceControlID)
    (resourceControl : ResourceControl.t) (m : MigratorDB32)
  : option error * MigratorDB32 :=
  match UpdateResourceControl_fails c id with
  | Some err => (Some err, m)
  | None =>
      (None, setResourceControlBucket (<[id := resourceControl]> (resourceControlBucket m)) m)
  end.

(** [m.resourceControlService.DeleteResourceControl(ID)] *)
Definition DeleteResourceControl (c : Services32) (id : ResourceControlID)
    (m : MigratorDB32) : option error * MigratorDB32 :=
  match DeleteResourceControl_fails c id with
  | Some err => (Some err, m)
  | None => (None, setResourceControlBucket (delete id (resourceControlBucket m)) m)
  end.
End resourceControlService.

Module settingsService.
(** [m.settingsService.Settings()] *)
Definition Settings (m : MigratorDB32) : error + Settings.t :=
  match settingsBucket m with
  | Some settings => inr settings
  | None => inl ErrObjectNotFound
  end.

(** [m.settingsService.UpdateSettings(settings)] *)
Definition UpdateSettings (c : Services32) (settings : Settings.t) (m : MigratorDB32)
  : option error * MigratorDB32 :=
  match UpdateSettings_fails c with
  | Some err => (Some err, m)
  | None => (None, setSettingsBucket (Some settings) m)
  end.
End settingsService.

(** ** [updateRegistriesToDB32] *)

(** The loops of lines 60 to 65 and 67 to 72: the policies of the
    registry for the users, or the teams, that have a policy on the
    environment. The loop ranges over a map and fills a fresh map, a key at
    a time: the order of the range does not show. *)
Definition filterAccessPolicies (registryPolicies endpointPolicies : gmap Z AccessPolicy)
  : gmap Z AccessPolicy :=
  filter (λ kv, is_Some (endpointPolicies !! kv.1)) registryPolicies.

(** The loop of lines 58 to 79 over the environments. *)
Fixpoint registryAccessesLoop (registry : RegistryRecord.t)
    (endpoints : list EndpointRecord.t) (accesses : gmap Z RegistryAccessPolicies)
  : gmap Z RegistryAccessPolicies :=
  match endpoints with
  | [] => accesses
  | endpoint :: rest =>
      let filteredUserAccessPolicies :=
        filterAccessPolicies (RegistryRecord.UserAccessPolicies registry)
          (EndpointRecord.UserAccessPolicies endpoint) in
      let filteredTeamAccessPolicies :=
        filterAccessPolicies (RegistryRecord.TeamAccessPolicies registry)
          (EndpointRecord.TeamAccessPolicies endpoint) in
      registryAccessesLoop registry rest
        (<[EndpointRecord.ID endpoint :=
             mkRegistryAccessPolicies filteredUserAccessPolicies
               filteredTeamAccessPolicies []]> accesses)
  end.

(** The loop of lines 54 to 81 over the registries; what
    [UpdateRegistry] returns is dropped. *)
Fixpoint registriesLoop (c : Services32) (registries : list RegistryRecord.t)
    (endpoints : list EndpointRecord.t) (m : MigratorDB32) : MigratorDB32 :=
  match registries with
  | [] => m
  | registry :: rest =>
      let registry :=
        RegistryRecord.setRegistryAccesses (registryAccessesLoop registry endpoints ∅)
          registry in
      registriesLoop c rest endpoints
        (registryService32.UpdateRegistry c (RegistryRecord.ID registry) registry m).2
  end.

(** [func (m *Migrator) updateRegistriesToDB32() error] *)
Definition updateRegistriesToDB32 (c : Services32) (m : MigratorDB32)
  : option error * MigratorDB32 :=
  match registryService32.Registries c m with
  | inl err => (Some err, m)
  | inr registries =>
      match endpointService32.Endpoints c m with
      | inl err => (Some err, m)
      | inr endpoints => (None, registriesLoop c registries endpoints m)
      end
  end.

(** ** [updateVolumeResourceControlToDB32] *)

(** [fmt.Errorf("<message>: %w", err)]: an error with a message of its
    own that wraps [err]. *)
Record WrappedError : Type := Errorf {
  wrappedMessage : string;
  Unwrap : error
}.

(** [func findResourcesToUpdateForDB32]: the loop over the volumes, which
    sets entries of the map [toUpdate]; the map as the call leaves it. *)
Fixpoint findResourcesLoop (dockerID : string) (volumes : list Volume.t)
    (toUpdate : gmap Z string) (volumeResourceControls : gmap string ResourceControl.t)
  : gmap Z string :=
  match volumes with
  | [] => toUpdate
  | volume :: rest =>
      let volumeName := Volume.Name volume in
      let createTime := Volume.CreatedAt volume in
      let oldResourceID := volumeName +:+ createTime in
      match volumeResourceControls !! oldResourceID with
      | Some resourceControl =>
          findResourcesLoop dockerID rest
            (<[ResourceControl.ID resourceControl := volumeName +:+ "_" +:+ dockerID]>
               toUpdate)
            volumeResourceControls
      | None => findResourcesLoop dockerID rest toUpdate volumeResourceControls
      end
  end.

Definition findResourcesToUpdateForDB32 (dockerID : string)
    (volumesData : VolumeListOKBody.t) (toUpdate : gmap Z string)
    (volumeResourceControls : gmap string ResourceControl.t) : gmap Z string :=
  let volumes := default [] (VolumeListOKBody.Volumes volumesData) in
  findResourcesLoop dockerID volumes toUpdate volumeResourceControls.

(** The loop of lines 191 to 196: the resource controls of volumes, by
    their resource identifier. *)
Fixpoint volumeControlsLoop (resourceControls : list ResourceControl.t)
    (volumeResourceControls : gmap string ResourceControl.t)
  : gmap string ResourceControl.t :=
  match resourceControls with
  | [] => volumeResourceControls
  | resourceControl :: rest =>
      volumeControlsLoop rest
        (if decide (ResourceControl.Type_ resourceControl = VolumeResourceControl)
         then <[ResourceControl.ResourceID resourceControl := resourceControl]>
                volumeResourceControls
         else volumeResourceControls)
  end.

(** The loop of lines 198 to 225 over the environments. *)
Fixpoint snapshotsLoop (c : Services32) (endpoints : list EndpointRecord.t)
    (toUpdate : gmap Z string) (volumeResourceControls : gmap string ResourceControl.t)
  : gmap Z string :=
  match endpoints with
  | [] => toUpdate
  | endpoint :: rest =>
      if negb (IsDockerEndpoint c (EndpointRecord.endpoint endpoint))
      then snapshotsLoop c rest toUpdate volumeResourceControls
      else
        let totalSnapshots := length (EndpointRecord.Snapshots endpoint) in
        if decide (totalSnapshots = 0%nat)
        then (* no snapshot found *)
          snapshotsLoop c rest toUpdate volumeResourceControls
        else
          match EndpointRecord.Snapshots endpoint !! (totalSnapshots - 1)%nat with
          | None => snapshotsLoop c rest toUpdate volumeResourceControls
          | Some snapshot =>
              match FetchDockerID c snapshot with
              | inl _ => (* failed fetching environment docker id *)
                  snapshotsLoop c rest toUpdate volumeResourceControls
              | inr endpointDockerID =>
                  let volumesData := DockerSnapshot.SnapshotRaw_Volumes snapshot in
                  match VolumeListOKBody.Volumes volumesData with
                  | None => (* no volume data found *)
                      snapshotsLoop c rest toUpdate volumeResourceControls
                  | Some _ =>
                      snapshotsLoop c rest
                        (findResourcesToUpdateForDB32 endpointDockerID volumesData
                           toUpdate volumeResourceControls)
                        volumeResourceControls
                  end
              end
          end
  end.

(** The entries of a Go map in the order in which a [range] loop visits
    them: first those of the keys that the preference list names, in its
    order, then the others. Go leaves the order unspecified; the preference
    list stands for the choice of the runtime. *)
Definition rangeEntries `{Countable K} {V} (prio : list K) (m : gmap K V) : list (K * V) :=
  omap (λ k, (k,.) <$> m !! k) (remove_dups prio)
  ++ filter (λ kv, kv.1 ∉ prio) (map_to_list m).

(** The loop of lines 227 to 243 over the resource controls of volumes,
    in the order [resourceControls]: a resource control with a new resource
    identifier is updated, the others are deleted; the first failure ends
    the loop. *)
Fixpoint controlsLoop (c : Services32) (resourceControls : list ResourceControl.t)
    (toUpdate : gmap Z string) (m : MigratorDB32) : option WrappedError * MigratorDB32 :=
  match resourceControls with
  | [] => (None, m)
  | resourceControl :: rest =>
      match toUpdate !! ResourceControl.ID resourceControl with
      | Some newResourceID =>
          let resourceControl :=
            ResourceControl.setResourceID newResourceID resourceControl in
          match resourceControlService.UpdateResourceControl c
                  (ResourceControl.ID resourceControl) resourceControl m with
          | (Some err, m) =>
              (Some (Errorf ("failed updating resource control "
                             +:+ pretty (ResourceControl.ID resourceControl)) err), m)
          | (None, m) => controlsLoop c rest toUpdate m
          end
      | None =>
          match resourceControlService.DeleteResourceControl c
                  (ResourceControl.ID resourceControl) m with
          | (Some err, m) =>
              (Some (Errorf ("failed deleting resource control "
                             +:+ pretty (ResourceControl.ID resourceControl)) err), m)
          | (None, m) => (* legacy resource control has been deleted *)
              controlsLoop c rest toUpdate m
          end
      end
  end.

(** [func (m *Migrator) updateVolumeResourceControlToDB32() error];
    [order] is the order in which the last loop ranges over the map
    [volumeResourceControls]. *)
Definition updateVolumeResourceControlToDB32 (c : Services32) (order : list string)
    (m : MigratorDB32) : option WrappedError * MigratorDB32 :=
  match endpointService32.Endpoints c m with
  | inl err => (Some (Errorf "failed fetching environments" err), m)
  | inr endpoints =>
      match resourceControlService.ResourceControls c m with
      | inl err => (Some (Errorf "failed fetching resource controls" err), m)
      | inr resourceControls =>
          let toUpdate : gmap Z string := ∅ in
          let volumeResourceControls := volumeControlsLoop resourceControls ∅ in
          let toUpdate :=
            snapshotsLoop c endpoints toUpdate volumeResourceControls in
          controlsLoop c (rangeEntries order volumeResourceControls).*2 toUpdate m
      end
  end.

(** ** [kubeconfigExpiryToDB32] and [helmRepositoryURLToDB32] *)

(** [func (m *Migrator) kubeconfigExpiryToDB32() error] *)
Definition kubeconfigExpiryToDB32 (c : Services32) (m : MigratorDB32)
  : option error * MigratorDB32 :=
  match settingsService.Settings m with
  | inl err => (Some err, m)
  | inr settings =>
      settingsService.UpdateSettings c
        (Settings.setKubeconfigExpiry DefaultKubeconfigExpiry settings) m
  end.

(** [func (m *Migrator) helmRepositoryURLToDB32() error] *)
Definition helmRepositoryURLToDB32 (c : Services32) (m : MigratorDB32)
  : option error * MigratorDB32 :=
  match settingsService.Settings m with
  | inl err => (Some err, m)
  | inr settings =>
      settingsService.UpdateSettings c
        (Settings.setHelmRepositoryURL DefaultHelmRepositoryURL settings) m
  end.

(** ** Auxiliary definitions for the statements about the migrations *)

(** The keys of a bucket are the identifiers of its records. *)
Definition keyedBy {V} (key : V → Z) (b : gmap Z V) : Prop :=
  ∀ k r, b !! k = Some r → key r = k.

(** The last environment of the list with the identifier, that is the
    one whose entry a loop over the list leaves in a map keyed by the
    identifiers. *)
Definition lastEndpoint (id : EndpointID) (endpoints : list EndpointRecord.t)
  : option EndpointRecord.t :=
  last (filter (λ e, EndpointRecord.ID e = id) endpoints).

(** The access policies [p] are the policies [registryPolicies] of the
    registry, for those users or teams that have a policy on the
    environment. *)
Definition restrictedTo (registryPolicies endpointPolicies p : gmap Z AccessPolicy)
  : Prop :=
  ∀ id policy,
    p !! id = Some policy
    ↔ registryPolicies !! id = Some policy ∧ is_Some (endpointPolicies !! id).

(** A store for the migrations: two registries with access policies of
    before the version 32, two environments with snapshots, resource
    controls of volumes and of a container, and the settings. *)
Definition exRegistryRecord (id : RegistryID) (name : string) (users teams : list Z)
  : RegistryRecord.t :=
  RegistryRecord.mk (Registry.mk id 3 name "quay.io" false "" "" ∅)
    (list_to_map ((λ u, (u, mkAccessPolicy 1)) <$> users))
    (list_to_map ((λ u, (u, mkAccessPolicy 2)) <$> teams)).

Definition exEndpointRecord (id : EndpointID) (type : EndpointType) (users : list Z)
    (snapshots : list DockerSnapshot.t) : EndpointRecord.t :=
  EndpointRecord.mk
    (Endpoint.mk id type [] (list_to_map ((λ u, (u, mkAccessPolicy 4)) <$> users)) ∅)
    snapshots.

Definition exSnapshot (info : string) (volumes : list Volume.t) : DockerSnapshot.t :=
  DockerSnapshot.mk info (VolumeListOKBody.mk (Some volumes)).

Definition exStore32 : MigratorDB32 :=
  mkMigratorDB32
    {[ 1 := exRegistryRecord 1 "Quay" [10; 11] [20];
       2 := exRegistryRecord 2 "Harbor" [11] [] ]}
    [ exEndpointRecord 1 DockerEnvironment [10]
        [ exSnapshot "engine-0" [];
          exSnapshot "engine-1" [Volume.mk "data" "2021-01-01"; Volume.mk "logs" "2021-02-02"] ];
      exEndpointRecord 2 KubernetesLocalEnvironment [11] [] ]
    {[ 1 := ResourceControl.mk 1 "data2021-01-01" VolumeResourceControl;
       2 := ResourceControl.mk 2 "gone2020-12-31" VolumeResourceControl;
       3 := ResourceControl.mk 3 "web" 1 ]}
    (Some (Settings.mk "24h" "https://charts.example.org")).

(** The same store, with two resource controls for the volume "data". *)
Definition exStore32Shared : MigratorDB32 :=
  setResourceControlBucket
    {[ 1 := ResourceControl.mk 1 "data2021-01-01" VolumeResourceControl;
       2 := ResourceControl.mk 2 "data2021-01-01" VolumeResourceControl ]}
    exStore32.

(** Services that do not fail; an environment is a Docker environment by
    its type, and the identifier of an engine is the raw information of the
    snapshot. *)
Definition exServices32 : Services32 :=
  mkServices32 None (λ _, None) None None (λ _, None) (λ _, None) None
    (λ e, bool_decide (Endpoint.Type_ e = DockerEnvironment))
    (λ snapshot, inr (DockerSnapshot.SnapshotRaw_Info snapshot)).

(** The identifier of a volume of before the version 32: its name and
    its creation time. *)
Definition legacyResourceID (volume : Volume.t) : string :=
  Volume.Name volume +:+ Volume.CreatedAt volume.

(** The identifier of a volume of an engine from the version 32 on: its
    name and the identifier of the engine. *)
Definition newResourceID (volume : Volume.t) (dockerID : string) : string :=
  Volume.Name volume +:+ "_" +:+ dockerID.

(** The volumes of the list whose legacy identifier is the resource
    identifier of the resource control [id] of the map. *)
Definition matchingVolumes (volumeResourceControls : gmap string ResourceControl.t)
    (id : ResourceControlID) (volumes : list Volume.t) : list Volume.t :=
  filter (λ volume,
            ResourceControl.ID <$> volumeResourceControls !! legacyResourceID volume
            = Some id) volumes.

(** The volume is in the volume list of the last snapshot of a Docker
    environment of the list, and [dockerID] is the identifier of the engine
    of that snapshot. *)
Definition snapshotVolume (c : Services32) (endpoints : list EndpointRecord.t)
    (volume : Volume.t) (dockerID : string) : Prop :=
  ∃ endpoint snapshot volumes,
    endpoint ∈ endpoints
    ∧ IsDockerEndpoint c (EndpointRecord.endpoint endpoint) = true
    ∧ last (EndpointRecord.Snapshots endpoint) = Some snapshot
    ∧ FetchDockerID c snapshot = inr dockerID
    ∧ VolumeListOKBody.Volumes (DockerSnapshot.SnapshotRaw_Volumes snapshot)
      = Some volumes
    ∧ volume ∈ volumes.

(** The resource controls of volumes of a bucket have distinct resource
    identifiers. *)
Definition distinctVolumes (b : gmap Z ResourceControl.t) : Prop :=
  ∀ k1 k2 rc1 rc2,
    b !! k1 = Some rc1 → b !! k2 = Some rc2 →
    ResourceControl.Type_ rc1 = VolumeResourceControl →
    ResourceControl.Type_ rc2 = VolumeResourceControl →
    ResourceControl.ResourceID rc1 = ResourceControl.ResourceID rc2 →
    k1 = k2.

(** What the last loop of the migration does with a resource control. *)
Definition migratedControl (toUpdate : gmap Z string) (rc : ResourceControl.t)
  : option ResourceControl.t :=
  match toUpdate !! ResourceControl.ID rc with
  | Some newResourceID => Some (ResourceControl.setResourceID newResourceID rc)
  | None => None
  end.

(** The same services, with a store that fails to delete the resource
    control 2. *)
Definition exFailingServices32 : Services32 :=
  mkServices32 None (λ _, None) None None (λ _, None)
    (λ id, if decide (id = 2) then Some (errorString "read-only store") else None) None
    (λ e, bool_decide (Endpoint.Type_ e = DockerEnvironment))
    (λ snapshot, inr (DockerSnapshot.SnapshotRaw_Info snapshot)).

(** The last environment of the list with the identifier that is not an
    orchestrator: the one whose accesses the loop of
    [updateDockerhubToDB32] leaves under the identifier. *)
Definition lastContainerEndpoint (id : EndpointID) (endpoints : list Endpoint.t)
  : option Endpoint.t :=
  last (filter (λ e, Endpoint.ID e = id ∧ IsKubernetesEndpoint e = false) endpoints).

(** The access policies [p] give the role 0 to those who have a policy
    in [policies], and to nobody else. *)
Definition defaultRoleFor (policies p : gmap Z AccessPolicy) : Prop :=
  ∀ id, p !! id = match policies !! id with
                  | Some _ => Some (mkAccessPolicy 0)
                  | None => None
                  end.

(** A store of the migrator without an entry of the migration, with two
    container environments and an orchestrator. *)
Definition exFreshMigrator : Migrator :=
  mkMigrator (Some (DockerHub.mk true "user" "secret")) [exOtherRegistry 1] 1
    [ Endpoint.mk 1 DockerEnvironment [] {[ 10 := mkAccessPolicy 4 ]} ∅;
      Endpoint.mk 2 KubernetesLocalEnvironment [] {[ 11 := mkAccessPolicy 4 ]} ∅;
      Endpoint.mk 3 EdgeAgentOnDockerEnvironment [] ∅ {[ 20 := mkAccessPolicy 3 ]} ]
    MigratorFaults.none.

(** Whether the last loop of the migration fails on a resource control:
    the error of its update when it has a new resource identifier, of its
    deletion otherwise. *)
Definition controlFails (c : Services32) (toUpdate : gmap Z string)
    (rc : ResourceControl.t) : option error :=
  match toUpdate !! ResourceControl.ID rc with
  | Some _ => UpdateResourceControl_fails c (ResourceControl.ID rc)
  | None => DeleteResourceControl_fails c (ResourceControl.ID rc)
  end.
(** * Properties *)

(** ** The monad *)

Section monad.
Context {E A B : Type}.
Implicit Types (m : ST E A) (k : A → ST E B) (w : World).

Lemma bind_inr m k w a w1 : m w = (inr a, w1) → (m ≫= k) w = k a w1.
Proof. intros Hm. unfold mbind, ST_bind. by rewrite Hm. Qed.

Lemma bind_inl m k w e w1 : m w = (inl e, w1) → (m ≫= k) w = (inl e, w1).
Proof. intros Hm. unfold mbind, ST_bind. by rewrite Hm. Qed.

Lemma bind_inv_inr m k w b w2 :
  (m ≫= k) w = (inr b, w2) →
  ∃ a w1, m w = (inr a, w1) ∧ k a w1 = (inr b, w2).
Proof.
  unfold mbind, ST_bind. destruct (m w) as [[e|a] w1]; [done|]. eauto.
Qed.

Lemma bind_inv_inl m k w e w2 :
  (m ≫= k) w = (inl e, w2) →
  m w = (inl e, w2) ∨ ∃ a w1, m w = (inr a, w1) ∧ k a w1 = (inl e, w2).
Proof.
  unfold mbind, ST_bind. destruct (m w) as [[e'|a] w1]; intros Hk.
  - left. by injection Hk as -> ->.
  - right. eauto.
Qed.
End monad.

Lemma onErr_inv_inr {E E' A} (f : E → E') (m : ST E A) w a w1 :
  onErr f m w = (inr a, w1) → m w = (inr a, w1).
Proof. unfold onErr. destruct (m w) as [[e|a'] w']; [done|]. congruence. Qed.

Lemma onErr_inv_inl {E E' A} (f : E → E') (m : ST E A) w e' w1 :
  onErr f m w = (inl e', w1) → ∃ e, m w = (inl e, w1) ∧ e' = f e.
Proof.
  unfold onErr. destruct (m w) as [[e|a'] w']; [|done].
  intros [= <- <-]. eauto.
Qed.

(** ** The order of a [range] loop *)

Section list_facts.
Context {A : Type} `{EqDecision A}.

Lemma filter_all (P : A → Prop) `{∀ x, Decision (P x)} (l : list A) :
  (∀ x, x ∈ l → P x) → filter P l = l.
Proof.
  induction l as [|x l IH]; intros Hl; [done|].
  rewrite filter_cons_True by (apply Hl; left).
  f_equal. apply IH. intros y Hy. apply Hl. by right.
Qed.

Lemma filter_none (P : A → Prop) `{∀ x, Decision (P x)} (l : list A) :
  (∀ x, x ∈ l → ¬ P x) → filter P l = [].
Proof.
  induction l as [|x l IH]; intros Hl; [done|].
  rewrite filter_cons_False by (apply Hl; left).
  apply IH. intros y Hy. apply Hl. by right.
Qed.

Lemma remove_dups_id (l : list A) : NoDup l → remove_dups l = l.
Proof.
  induction 1 as [|x l Hx Hl IH]; simpl; [done|].
  case_decide; [done|]. by rewrite IH.
Qed.
End list_facts.

Section rangeKeys.
Implicit Types (prio : list Z) (s : gset Z).

(** Whatever the preference list, the loop visits exactly the keys of
    the map, *)
Lemma elem_of_rangeKeys prio s k : k ∈ rangeKeys prio s ↔ k ∈ s.
Proof.
  unfold rangeKeys.
  rewrite elem_of_app, !list_elem_of_filter, elem_of_remove_dups, elem_of_elements.
  destruct (decide (k ∈ prio)); tauto.
Qed.

(** each of them once, *)
Lemma NoDup_rangeKeys prio s : NoDup (rangeKeys prio s).
Proof.
  unfold rangeKeys. apply NoDup_app. split_and!.
  - apply NoDup_filter, NoDup_remove_dups.
  - intros k. rewrite !list_elem_of_filter, elem_of_remove_dups. tauto.
  - apply NoDup_filter, NoDup_elements.
Qed.

(** and every order of the keys is the choice of some preference list. *)
Lemma rangeKeys_any_order s (l : list Z) :
  NoDup l → (∀ k, k ∈ l ↔ k ∈ s) → rangeKeys l s = l.
Proof.
  intros Hnd Hl. unfold rangeKeys.
  rewrite (filter_none (λ k, k ∉ l)), app_nil_r.
  - rewrite remove_dups_id by done. apply filter_all. intros k. apply Hl.
  - intros k. rewrite elem_of_elements, <-Hl. tauto.
Qed.
End rangeKeys.

(** ** The relation loops *)

Section relationLoop.
Variable fails : EndpointID → option error.
Variable g : EndpointRelation.t → EndpointRelation.t.
Implicit Types (l : list Z) (b : gmap Z EndpointRelation.t) (t : list Event).

Lemma elem_of_passable b id :
  id ∈ passable fails b ↔ is_Some (b !! id) ∧ fails id = None.
Proof. unfold passable. rewrite elem_of_filter, elem_of_dom. tauto. Qed.

Lemma passable_insert b id r :
  is_Some (b !! id) → passable fails (<[id := r]> b) = passable fails b.
Proof. intros Hid. unfold passable. by rewrite dom_insert_lookup_L. Qed.

Lemma visited_all D l : (∀ id, id ∈ l → id ∈ D) → visited D l = l.
Proof.
  induction l as [|id l IH]; intros Hl; cbn [relationLoop visited]; [done|].
  rewrite decide_True by (apply Hl; left).
  f_equal. apply IH. intros k Hk. apply Hl. by right.
Qed.

Lemma visited_all_inv D l : visited D l = l → ∀ id, id ∈ l → id ∈ D.
Proof.
  induction l as [|k l IH]; cbn [visited]; intros Hv id Hid.
  - by apply elem_of_nil in Hid.
  - case_decide; [|done]. injection Hv as Hv.
    apply elem_of_cons in Hid as [->|Hid]; [done|]. by apply IH.
Qed.

Lemma visited_sub D l id : id ∈ visited D l → id ∈ l ∧ id ∈ D.
Proof.
  induction l as [|k l IH]; cbn [visited]; [by intros ?%elem_of_nil|].
  case_decide; [|by intros ?%elem_of_nil].
  intros [->|Hid]%elem_of_cons; [split; [left|]; done|].
  destruct (IH Hid). split; [by right|done].
Qed.

(** The loop never adds or drops a relation record. *)
Lemma relationLoop_dom l b t : dom (relationLoop fails g l b t).1.2 = dom b.
Proof.
  revert b t. induction l as [|id l IH]; intros b t; cbn [relationLoop visited]; [done|].
  destruct (b !! id) as [r|] eqn:Hid; [|done].
  destruct (fails id); [done|].
  rewrite IH, dom_insert_lookup_L; [done|by eexists].
Qed.

Lemma relationLoop_passable l b t :
  passable fails (relationLoop fails g l b t).1.2 = passable fails b.
Proof. unfold passable. by rewrite relationLoop_dom. Qed.

(** It succeeds exactly when it gets to every key. *)
Lemma relationLoop_ok l b t :
  (relationLoop fails g l b t).1.1 = bool_decide (visited (passable fails b) l = l).
Proof.
  revert b t. induction l as [|id l IH]; intros b t; cbn [relationLoop visited]; [done|].
  destruct (b !! id) as [r|] eqn:Hid; [destruct (fails id) as [err|] eqn:Hf|].
  - rewrite decide_False; [done|]. rewrite elem_of_passable, Hf. by intros [_ ?].
  - rewrite decide_True by (apply elem_of_passable; split; [by eexists|done]).
    rewrite IH, passable_insert by (by eexists).
    apply bool_decide_ext. split; [by intros ->|by intros [= ->]].
  - rewrite decide_False; [done|].
    rewrite elem_of_passable, Hid. by intros [[??] _].
Qed.

(** The relation of a key it got to is rewritten, the others are as they
    were. *)
Lemma relationLoop_lookup l b t id :
  (∀ r, g (g r) = g r) →
  (relationLoop fails g l b t).1.2 !! id
  = if decide (id ∈ visited (passable fails b) l) then g <$> b !! id else b !! id.
Proof.
  intros Hg. revert b t. induction l as [|k l IH]; intros b t; cbn [relationLoop visited].
  - rewrite decide_False; [done|apply not_elem_of_nil].
  - destruct (b !! k) as [r|] eqn:Hk; [destruct (fails k) as [err|] eqn:Hf|].
    + rewrite (decide_False (P := k ∈ passable fails b)).
      * rewrite decide_False; [done|apply not_elem_of_nil].
      * rewrite elem_of_passable, Hf. by intros [_ ?].
    + rewrite (decide_True (P := k ∈ passable fails b))
        by (apply elem_of_passable; split; [by eexists|done]).
      rewrite IH, passable_insert by (by eexists).
      destruct (decide (id = k)) as [->|Hne].
      * rewrite lookup_insert_eq, Hk, (decide_True (P := k ∈ k :: _)) by left.
        case_decide; simpl; by rewrite ?Hg.
      * rewrite lookup_insert_ne by done.
        destruct (decide (id ∈ visited (passable fails b) l)) as [Hin|Hnin].
        -- by rewrite decide_True by (by right).
        -- rewrite decide_False; [done|]. by intros [?|?]%elem_of_cons.
    + rewrite (decide_False (P := k ∈ passable fails b)).
      * rewrite decide_False; [done|apply not_elem_of_nil].
      * rewrite elem_of_passable, Hk. by intros [[??] _].
Qed.

(** It writes relation records only. *)
Lemma relationLoop_trace l b t :
  ∃ evs, (relationLoop fails g l b t).2 = evs ++ t
         ∧ Forall (λ e, isRelationWrite e = true) evs
         ∧ length evs = length (visited (passable fails b) l).
Proof.
  revert b t. induction l as [|k l IH]; intros b t; cbn [relationLoop visited].
  - by exists [].
  - destruct (b !! k) as [r|] eqn:Hk; [destruct (fails k) as [err|] eqn:Hf|].
    + rewrite decide_False; [by exists []|].
      rewrite elem_of_passable, Hf. by intros [_ ?].
    + rewrite decide_True by (apply elem_of_passable; split; [by eexists|done]).
      destruct (IH (<[k := g r]> b) (EvUpdateEndpointRelation k (g r) :: t))
        as (evs & -> & Hevs & Hlen).
      exists (evs ++ [EvUpdateEndpointRelation k (g r)]). split_and!.
      * by rewrite <-app_assoc.
      * apply Forall_app. split; [done|]. by repeat constructor.
      * rewrite length_app, Hlen, passable_insert by (by eexists).
        simpl. lia.
    + rewrite decide_False; [by exists []|].
      rewrite elem_of_passable, Hk. by intros [[??] _].
Qed.
End relationLoop.

Lemma withRelations_id w : withRelations (relationsOf w) (trace w) w = w.
Proof. by destruct w as [[] ? ?]. Qed.

Lemma withRelations_twice b t b' t' w :
  withRelations b t (withRelations b' t' w) = withRelations b t w.
Proof. done. Qed.

Lemma relationsOf_withRelations b t w : relationsOf (withRelations b t w) = b.
Proof. done. Qed.

Lemma relationFaults_withRelations b t w :
  relationFaults (withRelations b t w) = relationFaults w.
Proof. done. Qed.

(** A loop of the handler over relation records is the loop
    [relationLoop] on the relation bucket and the trace; when it fails, its
    error is that of the read or of the update of a relation record. *)
Section forEach_relation.
Variable g : EndpointRelation.t → EndpointRelation.t.
Variable body : EndpointID → ST HandlerError ().
Hypothesis body_run : ∀ id w,
  body id w =
  match relationsOf w !! id with
  | Some r =>
      match relationFaults w id with
      | Some _ => (inl errRelationNotPersisted, w)
      | None =>
          (inr (), withRelations (<[id := g r]> (relationsOf w))
                     (EvUpdateEndpointRelation id (g r) :: trace w) w)
      end
  | None => (inl errRelationNotFound, w)
  end.

Lemma forEach_relation l w :
  let r := relationLoop (relationFaults w) g l (relationsOf w) (trace w) in
  (forEach l body w).2 = withRelations r.1.2 r.2 w
  ∧ match (forEach l body w).1 with
    | inr _ => r.1.1 = true
    | inl e => r.1.1 = false ∧ (e = errRelationNotFound ∨ e = errRelationNotPersisted)
    end.
Proof.
  cbv zeta. revert w. induction l as [|id l IH]; intros w; cbn [forEach relationLoop].
  - cbn. by rewrite withRelations_id.
  - unfold mbind, ST_bind. rewrite body_run.
    destruct (relationsOf w !! id) as [r|] eqn:Hid; cbn.
    + destruct (relationFaults w id) as [err|] eqn:Hf; cbn.
      * rewrite withRelations_id. split; [done|]. split; [done|by right].
      * specialize (IH (withRelations (<[id := g r]> (relationsOf w))
                          (EvUpdateEndpointRelation id (g r) :: trace w) w)).
        by rewrite relationFaults_withRelations in IH.
    + rewrite withRelations_id. split; [done|]. split; [done|by left].
Qed.
End forEach_relation.

Lemma removeStackFromRelation_run stackID id w :
  removeStackFromRelation stackID id w =
  match relationsOf w !! id with
  | Some r =>
      match relationFaults w id with
      | Some _ => (inl errRelationNotPersisted, w)
      | None =>
          (inr (), withRelations (<[id := withoutStack stackID r]> (relationsOf w))
                     (EvUpdateEndpointRelation id (withoutStack stackID r) :: trace w) w)
      end
  | None => (inl errRelationNotFound, w)
  end.
Proof.
  unfold removeStackFromRelation, mbind, ST_bind, onErr,
    tx_EndpointRelation.EndpointRelation, tx_EndpointRelation.UpdateEndpointRelation,
    relationsOf, relationFaults.
  destruct (endpointRelationBucket (tx w) !! id); [|done].
  by destruct (StoreFaults.UpdateEndpointRelation (storeFaults (tx w)) id).
Qed.

Lemma addStackToRelation_run stackID id w :
  addStackToRelation stackID id w =
  match relationsOf w !! id with
  | Some r =>
      match relationFaults w id with
      | Some _ => (inl errRelationNotPersisted, w)
      | None =>
          (inr (), withRelations (<[id := withStack stackID r]> (relationsOf w))
                     (EvUpdateEndpointRelation id (withStack stackID r) :: trace w) w)
      end
  | None => (inl errRelationNotFound, w)
  end.
Proof.
  unfold addStackToRelation, mbind, ST_bind, onErr,
    tx_EndpointRelation.EndpointRelation, tx_EndpointRelation.UpdateEndpointRelation,
    relationsOf, relationFaults.
  destruct (endpointRelationBucket (tx w) !! id); [|done].
  by destruct (StoreFaults.UpdateEndpointRelation (storeFaults (tx w)) id).
Qed.

(** The reconciliation fails with the error of the read or of the update
    of a relation record, an internal server error. *)
Lemma reconcileRelations_error o stackID old new w e w1 :
  reconcileRelations o stackID old new w = (inl e, w1) →
  e = errRelationNotFound ∨ e = errRelationNotPersisted.
Proof.
  unfold reconcileRelations. cbv zeta.
  intros [Hrun|([] & w' & _ & Hrun)]%bind_inv_inl.
  - match type of Hrun with
    | forEach ?l _ _ = _ =>
        pose proof (forEach_relation _ _ (removeStackFromRelation_run stackID) l w)
          as [_ He]
    end.
    rewrite Hrun in He. by destruct He.
  - match type of Hrun with
    | forEach ?l _ _ = _ =>
        pose proof (forEach_relation _ _ (addStackToRelation_run stackID) l w')
          as [_ He]
    end.
    rewrite Hrun in He. by destruct He.
Qed.

Lemma reconcileError_status o stackID old new w :
  StatusCode (reconcileError o stackID old new w) = StatusInternalServerError.
Proof.
  unfold reconcileError.
  destruct (reconcileRelations o stackID old new w) as [[e|[]] w1] eqn:Hrun; [|done].
  by destruct (reconcileRelations_error _ _ _ _ _ _ _ Hrun) as [-> | ->].
Qed.

(** [reconcileRelations] is [reconcileLoops] on the relation bucket and
    the trace; it leaves the rest of the world alone. *)
Lemma reconcileRelations_run o stackID old new w :
  reconcileRelations o stackID old new w =
  let r := reconcileLoops (relationFaults w) o stackID old new (relationsOf w) (trace w) in
  (if r.1.1 then inr () else inl (reconcileError o stackID old new w),
   withRelations r.1.2 r.2 w).
Proof.
  unfold reconcileError, reconcileRelations, reconcileLoops. cbv zeta.
  unfold mbind, ST_bind.
  pose proof (forEach_relation _ _ (removeStackFromRelation_run stackID)
                (rangeKeys (rangeRemove o)
                   (filter (λ endpointID, endpointID ∉ EndpointSet new) (EndpointSet old)))
                w) as [Hw1 Hr1].
  cbv zeta in Hw1, Hr1.
  destruct (relationLoop (relationFaults w) (withoutStack stackID) _ _ _)
    as [[ok1 b1] t1].
  destruct (forEach _ (removeStackFromRelation stackID) w) as [[e|[]] w1];
    cbn [fst snd] in *.
  - destruct Hr1 as [-> _]. by rewrite Hw1.
  - rewrite Hr1. subst w1.
    pose proof (forEach_relation _ _ (addStackToRelation_run stackID)
                  (rangeKeys (rangeAdd o)
                     (filter (λ endpointID, endpointID ∉ EndpointSet old) (EndpointSet new)))
                  (withRelations b1 t1 w)) as [Hw2 Hr2].
    cbv zeta in Hw2, Hr2.
    rewrite relationFaults_withRelations, relationsOf_withRelations in Hw2, Hr2.
    cbn [trace withRelations] in Hw2, Hr2.
    destruct (relationLoop (relationFaults w) (withStack stackID) _ _ _)
      as [[ok2 b2] t2].
    destruct (forEach _ (addStackToRelation stackID) _) as [[e|[]] w2];
      cbn [fst snd] in *.
    + destruct Hr2 as [-> _]. by rewrite Hw2.
    + by rewrite Hr2, Hw2.
Qed.

(** ** The reconciliation *)

Lemma withoutStack_idemp stackID r :
  withoutStack stackID (withoutStack stackID r) = withoutStack stackID r.
Proof.
  unfold withoutStack, EndpointRelation.setEdgeStacks. cbn.
  by rewrite delete_delete_eq.
Qed.

Lemma withStack_idemp stackID r :
  withStack stackID (withStack stackID r) = withStack stackID r.
Proof.
  unfold withStack, EndpointRelation.setEdgeStacks. cbn.
  by rewrite insert_insert_eq.
Qed.

Lemma elem_of_endpointsToRemove old new id :
  id ∈ endpointsToRemove old new ↔ id ∈ old ∧ id ∉ new.
Proof.
  unfold endpointsToRemove, EndpointSet.
  rewrite elem_of_filter, !elem_of_list_to_set. tauto.
Qed.

Lemma elem_of_endpointsToAdd old new id :
  id ∈ endpointsToAdd old new ↔ id ∈ new ∧ id ∉ old.
Proof.
  unfold endpointsToAdd, EndpointSet.
  rewrite elem_of_filter, !elem_of_list_to_set. tauto.
Qed.

Section reconcileLoops.
Variable fails : EndpointID → option error.
Variables (o : RangeOrder) (stackID : EdgeStackID) (old new : list EndpointID).
Implicit Types (b : gmap Z EndpointRelation.t) (t : list Event).

Local Abbreviation l1 := (rangeKeys (rangeRemove o) (endpointsToRemove old new)).
Local Abbreviation l2 := (rangeKeys (rangeAdd o) (endpointsToAdd old new)).

Lemma reconcileLoops_dom b t : dom (reconcileLoops fails o stackID old new b t).1.2 = dom b.
Proof.
  unfold reconcileLoops. cbv zeta.
  destruct (relationLoop fails (withoutStack stackID) _ b t).1.1 eqn:Hok.
  - by rewrite !relationLoop_dom.
  - by rewrite relationLoop_dom.
Qed.

Lemma reconcileLoops_passable b t :
  passable fails (reconcileLoops fails o stackID old new b t).1.2 = passable fails b.
Proof. unfold passable. by rewrite reconcileLoops_dom. Qed.

Lemma reconcileLoops_ok b t :
  (reconcileLoops fails o stackID old new b t).1.1
  = bool_decide (visited (passable fails b) l1 = l1) && bool_decide (visited (passable fails b) l2 = l2).
Proof.
  unfold reconcileLoops. cbv zeta. fold (endpointsToRemove old new).
  fold (endpointsToAdd old new).
  rewrite (relationLoop_ok fails _ l1 b t).
  destruct (bool_decide (visited (passable fails b) l1 = l1)) eqn:Hok; cbn [andb].
  - by rewrite relationLoop_ok, relationLoop_passable.
  - by rewrite relationLoop_ok, Hok.
Qed.

Lemma reconcileLoops_lookup b t id :
  (reconcileLoops fails o stackID old new b t).1.2 !! id
  = if decide (id ∈ visited (passable fails b) l1) then withoutStack stackID <$> b !! id
    else if decide (visited (passable fails b) l1 = l1 ∧ id ∈ visited (passable fails b) l2)
         then withStack stackID <$> b !! id
         else b !! id.
Proof.
  unfold reconcileLoops. cbv zeta. fold (endpointsToRemove old new).
  fold (endpointsToAdd old new).
  rewrite (relationLoop_ok fails _ l1 b t).
  destruct (decide (visited (passable fails b) l1 = l1)) as [Hok|Hok].
  - rewrite bool_decide_eq_true_2 by done.
    rewrite relationLoop_lookup, relationLoop_passable by apply withStack_idemp.
    rewrite relationLoop_lookup by apply withoutStack_idemp.
    destruct (decide (id ∈ visited (passable fails b) l1)) as [H1|H1].
    + rewrite decide_False; [done|].
      intros [H2 _]%visited_sub. apply visited_sub in H1 as [H1 _].
      apply elem_of_rangeKeys, elem_of_endpointsToRemove in H1.
      apply elem_of_rangeKeys, elem_of_endpointsToAdd in H2. tauto.
    + destruct (decide (id ∈ visited (passable fails b) l2)).
      * by rewrite decide_True.
      * rewrite decide_False; [done|tauto].
  - rewrite bool_decide_eq_false_2 by done.
    rewrite relationLoop_lookup by apply withoutStack_idemp.
    destruct (decide (id ∈ visited (passable fails b) l1)); [done|].
    rewrite decide_False; [done|tauto].
Qed.

(** An environment that is in both target sets is in neither loop. *)
Lemma reconcileLoops_lookup_common b t id :
  id ∈ old → id ∈ new →
  (reconcileLoops fails o stackID old new b t).1.2 !! id = b !! id.
Proof.
  intros Hold Hnew. rewrite reconcileLoops_lookup.
  rewrite decide_False.
  - rewrite decide_False; [done|].
    intros [_ [H2 _]%visited_sub].
    apply elem_of_rangeKeys, elem_of_endpointsToAdd in H2. tauto.
  - intros [H1 _]%visited_sub.
    apply elem_of_rangeKeys, elem_of_endpointsToRemove in H1. tauto.
Qed.

(** When the reconciliation succeeds, the relations it leaves do not
    depend on the order of the loops. *)
Lemma reconcileLoops_lookup_ok b t id :
  (reconcileLoops fails o stackID old new b t).1.1 = true →
  (reconcileLoops fails o stackID old new b t).1.2 !! id
  = if decide (id ∈ old ∧ id ∉ new) then withoutStack stackID <$> b !! id
    else if decide (id ∈ new ∧ id ∉ old) then withStack stackID <$> b !! id
    else b !! id.
Proof.
  rewrite reconcileLoops_ok, andb_true_iff, !bool_decide_eq_true.
  intros [H1 H2]. rewrite reconcileLoops_lookup, H1, H2.
  destruct (decide (id ∈ old ∧ id ∉ new)) as [Hr|Hr].
  - rewrite decide_True; [done|].
    by apply elem_of_rangeKeys, elem_of_endpointsToRemove.
  - rewrite decide_False
      by (by rewrite elem_of_rangeKeys, elem_of_endpointsToRemove).
    destruct (decide (id ∈ new ∧ id ∉ old)) as [Ha|Ha].
    + rewrite decide_True; [done|]. split; [done|].
      by apply elem_of_rangeKeys, elem_of_endpointsToAdd.
    + rewrite decide_False; [done|].
      rewrite elem_of_rangeKeys, elem_of_endpointsToAdd. tauto.
Qed.

(** It succeeds exactly when every environment that leaves or joins the
    target set has a relation record whose update does not fail. *)
Lemma reconcileLoops_ok_iff b t :
  (reconcileLoops fails o stackID old new b t).1.1 = true
  ↔ ∀ id, (id ∈ old ∧ id ∉ new) ∨ (id ∈ new ∧ id ∉ old) → id ∈ passable fails b.
Proof.
  rewrite reconcileLoops_ok, andb_true_iff, !bool_decide_eq_true. split.
  - intros [H1 H2] id [Hid|Hid].
    + apply (visited_all_inv _ _ H1).
      by apply elem_of_rangeKeys, elem_of_endpointsToRemove.
    + apply (visited_all_inv _ _ H2).
      by apply elem_of_rangeKeys, elem_of_endpointsToAdd.
  - intros Hdom. split; apply visited_all; intros id Hid; apply Hdom.
    + left. by apply elem_of_rangeKeys, elem_of_endpointsToRemove in Hid.
    + right. by apply elem_of_rangeKeys, elem_of_endpointsToAdd in Hid.
Qed.
End reconcileLoops.

Lemma reconcileRelations_ok_inv o stackID old new w :
  fst (reconcileRelations o stackID old new w) = inr () →
  (reconcileLoops (relationFaults w) o stackID old new (relationsOf w) (trace w)).1.1
  = true.
Proof.
  rewrite reconcileRelations_run. cbn.
  by destruct (reconcileLoops _ _ _ _ _ _ _).1.1.
Qed.

Lemma fmap_idemp {A} (f : A → A) (mx : option A) :
  (∀ x, f (f x) = f x) → f <$> (f <$> mx) = f <$> mx.
Proof. intros Hf. destruct mx; cbn; by rewrite ?Hf. Qed.

Lemma reconcileLoops_idemp fails o stackID old new b t t' :
  (reconcileLoops fails o stackID old new (reconcileLoops fails o stackID old new b t).1.2 t').1.2
  = (reconcileLoops fails o stackID old new b t).1.2.
Proof.
  apply map_eq. intros id.
  rewrite (reconcileLoops_lookup fails o stackID old new
             (reconcileLoops fails o stackID old new b t).1.2 t' id).
  rewrite (reconcileLoops_passable fails o stackID old new b t).
  rewrite (reconcileLoops_lookup fails o stackID old new b t id).
  repeat case_decide;
    auto using fmap_idemp, withoutStack_idemp, withStack_idemp.
Qed.

Lemma reconcileLoops_again fails o o' stackID old new b t t' :
  (reconcileLoops fails o stackID old new b t).1.1 = true →
  (reconcileLoops fails o' stackID old new (reconcileLoops fails o stackID old new b t).1.2 t').1.1
  = true
  ∧ (reconcileLoops fails o' stackID old new (reconcileLoops fails o stackID old new b t).1.2 t').1.2
    = (reconcileLoops fails o stackID old new b t).1.2.
Proof.
  intros Hok.
  assert ((reconcileLoops fails o' stackID old new
             (reconcileLoops fails o stackID old new b t).1.2 t').1.1 = true) as Hok2.
  { apply reconcileLoops_ok_iff. rewrite (reconcileLoops_passable fails o stackID old new b t).
    by apply (reconcileLoops_ok_iff fails o stackID old new b t). }
  split; [done|]. apply map_eq. intros id.
  rewrite (reconcileLoops_lookup_ok fails o' stackID old new _ t' id Hok2).
  rewrite (reconcileLoops_lookup_ok fails o stackID old new b t id Hok).
  repeat case_decide;
    auto using fmap_idemp, withoutStack_idemp, withStack_idemp; tauto.
Qed.

Lemma visited_app_stop D l x rest :
  (∀ id, id ∈ l → id ∈ D) → x ∉ D → visited D (l ++ x :: rest) = l.
Proof.
  intros Hl Hx. induction l as [|k l IH]; cbn [visited app].
  - by rewrite decide_False.
  - rewrite decide_True by (apply Hl; left). f_equal. apply IH.
    intros id Hid. apply Hl. by right.
Qed.

Lemma visited_not_all D l :
  visited D l ≠ l → ∃ x, x ∈ l ∧ x ∉ D.
Proof.
  intros Hv. destruct (decide (Forall (λ id, id ∈ D) l)) as [Hall|Hnot].
  - exfalso. apply Hv, visited_all. by apply Forall_forall.
  - apply not_Forall_Exists in Hnot; [|apply _].
    apply Exists_exists in Hnot as (x & ? & ?). eauto.
Qed.

(** When a loop over the keys of [s] cannot get to its end, the runtime
    can make it stop after any keys that have a relation record. *)
Lemma rangeKeys_stop_after (D s : gset Z) (P : list Z) (x : Z) :
  (∀ id, id ∈ P → id ∈ s ∧ id ∈ D) → x ∈ s → x ∉ D →
  ∃ prio, ∀ id, id ∈ visited D (rangeKeys prio s) ↔ id ∈ P.
Proof.
  intros HP Hxs HxD. exists (remove_dups P ++ [x]).
  assert (NoDup (remove_dups P ++ [x])) as Hnd.
  { apply NoDup_app. split_and!.
    - apply NoDup_remove_dups.
    - intros id Hid Hx. apply (elem_of_remove_dups P id) in Hid.
      apply list_elem_of_singleton in Hx as ->. by destruct (HP _ Hid).
    - apply NoDup_singleton. }
  unfold rangeKeys. rewrite (remove_dups_id _ Hnd).
  rewrite (filter_all (λ k, k ∈ s)); cycle 1.
  { intros id [Hid|Hid]%elem_of_app.
    - apply (elem_of_remove_dups P id) in Hid. by destruct (HP _ Hid).
    - by apply list_elem_of_singleton in Hid as ->. }
  rewrite <-app_assoc. cbn [app]. intros id.
  rewrite visited_app_stop, elem_of_remove_dups; [done| |done].
  intros k Hk. apply (elem_of_remove_dups P k) in Hk. by destruct (HP _ Hk).
Qed.

Lemma rangeKeys_visit (D s : gset Z) (prio1 prio2 : list Z) :
  ∃ prio, ∀ id,
    id ∈ visited D (rangeKeys prio s)
    ↔ id ∈ visited D (rangeKeys prio1 s) ∨ id ∈ visited D (rangeKeys prio2 s).
Proof.
  destruct (decide (visited D (rangeKeys prio1 s) = rangeKeys prio1 s)) as [Hall|Hstop].
  - (* every key has a relation record: every order visits them all *)
    exists prio1. intros id. split; [by left|]. intros [?|Hid]; [done|].
    rewrite Hall. apply visited_sub in Hid as [Hid _].
    apply elem_of_rangeKeys in Hid. by apply elem_of_rangeKeys.
  - apply visited_not_all in Hstop as (x & Hxs & HxD).
    apply elem_of_rangeKeys in Hxs.
    destruct (rangeKeys_stop_after D s
                (visited D (rangeKeys prio1 s) ++ visited D (rangeKeys prio2 s)) x)
      as [prio Hprio]; [|done..|].
    { intros id [Hid|Hid]%elem_of_app; apply visited_sub in Hid as [Hid ?];
        by apply elem_of_rangeKeys in Hid. }
    exists prio. intros id. by rewrite Hprio, elem_of_app.
Qed.

Lemma visited_rangeKeys_all (D s : gset Z) prio :
  visited D (rangeKeys prio s) = rangeKeys prio s ↔ ∀ id, id ∈ s → id ∈ D.
Proof.
  split.
  - intros Hv id Hid. apply (visited_all_inv _ _ Hv). by apply elem_of_rangeKeys.
  - intros Hs. apply visited_all. intros id Hid. apply Hs.
    by apply elem_of_rangeKeys in Hid.
Qed.

(** Whatever orders two runs of the reconciliation pick, one run could
    have left the relations as the two runs leave them. *)
Lemma reconcileLoops_twice_as_once fails o o' stackID old new b t t' :
  ∃ o'', ∀ t'',
    (reconcileLoops fails o'' stackID old new b t'').1.2
    = (reconcileLoops fails o' stackID old new (reconcileLoops fails o stackID old new b t).1.2 t').1.2.
Proof.
  destruct (rangeKeys_visit (passable fails b) (endpointsToRemove old new)
              (rangeRemove o) (rangeRemove o')) as [pr Hpr].
  destruct (rangeKeys_visit (passable fails b) (endpointsToAdd old new)
              (rangeAdd o) (rangeAdd o')) as [pa Hpa].
  exists (mkRangeOrder pr pa). intros t''. apply map_eq. intros id.
  rewrite (reconcileLoops_lookup fails (mkRangeOrder pr pa) stackID old new b t'' id).
  rewrite (reconcileLoops_lookup fails o' stackID old new
             (reconcileLoops fails o stackID old new b t).1.2 t' id).
  rewrite (reconcileLoops_passable fails o stackID old new b t).
  rewrite (reconcileLoops_lookup fails o stackID old new b t id).
  cbn [rangeRemove rangeAdd].
  specialize (Hpr id). specialize (Hpa id).
  pose proof (visited_rangeKeys_all (passable fails b) (endpointsToRemove old new) pr) as Hok''.
  pose proof (visited_rangeKeys_all (passable fails b) (endpointsToRemove old new) (rangeRemove o))
    as Hok.
  pose proof (visited_rangeKeys_all (passable fails b) (endpointsToRemove old new) (rangeRemove o'))
    as Hok'.
  assert (∀ prio, id ∈ visited (passable fails b) (rangeKeys prio (endpointsToRemove old new)) →
                  id ∈ old ∧ id ∉ new) as HR.
  { intros prio [Hid _]%visited_sub.
    by apply elem_of_rangeKeys, elem_of_endpointsToRemove in Hid. }
  assert (∀ prio, id ∈ visited (passable fails b) (rangeKeys prio (endpointsToAdd old new)) →
                  id ∈ new ∧ id ∉ old) as HA.
  { intros prio [Hid _]%visited_sub.
    by apply elem_of_rangeKeys, elem_of_endpointsToAdd in Hid. }
  pose proof (HR pr) as HR''. pose proof (HR (rangeRemove o)) as HR1.
  pose proof (HR (rangeRemove o')) as HR1'. pose proof (HA pa) as HA''.
  pose proof (HA (rangeAdd o)) as HA1. pose proof (HA (rangeAdd o')) as HA1'.
  clear HR HA.
  repeat case_decide; try (exfalso; tauto);
    rewrite ?(fmap_idemp (withoutStack stackID)), ?(fmap_idemp (withStack stackID))
      by auto using withoutStack_idemp, withStack_idemp; done.
Qed.

(** C2. Running the reconciliation of the relations a second time with
    the same old and new target sets leaves the relations as the first run
    left them: always when the two loops visit the environments in the same
    order, and, for whatever orders the two runs pick, when the first run
    got to its end (then the second one does as well). In every case, also
    when the runs fail part way in different orders, the relations after
    the two runs are relations that one run can leave. *)
Theorem reconcile_idempotent (o o' : RangeOrder) (stackID : EdgeStackID)
    (oldSet newSet : list EndpointID) (w : World) :
  let once := reconcileRelations o stackID oldSet newSet w in
  relationsOf (snd (reconcileRelations o stackID oldSet newSet (snd once)))
  = relationsOf (snd once)
  ∧ (fst once = inr () →
     let twice := reconcileRelations o' stackID oldSet newSet (snd once) in
     fst twice = inr () ∧ relationsOf (snd twice) = relationsOf (snd once))
  ∧ ∃ o'',
      relationsOf (snd (reconcileRelations o'' stackID oldSet newSet w))
      = relationsOf (snd (reconcileRelations o' stackID oldSet newSet (snd once))).
Proof.
  cbv zeta. split_and!.
  - rewrite (reconcileRelations_run o stackID oldSet newSet w). cbn [snd].
    rewrite reconcileRelations_run. cbn [snd].
    rewrite relationFaults_withRelations, !relationsOf_withRelations.
    apply reconcileLoops_idemp.
  - intros Hok%reconcileRelations_ok_inv.
    rewrite (reconcileRelations_run o stackID oldSet newSet w). cbn [fst snd].
    rewrite reconcileRelations_run. cbn [fst snd].
    rewrite relationFaults_withRelations, !relationsOf_withRelations.
    destruct (reconcileLoops_again (relationFaults w) o o' stackID oldSet newSet
                (relationsOf w) (trace w)
                (trace (withRelations
                          (reconcileLoops (relationFaults w) o stackID oldSet newSet
                             (relationsOf w) (trace w)).1.2
                          (reconcileLoops (relationFaults w) o stackID oldSet newSet
                             (relationsOf w) (trace w)).2
                          w)) Hok) as [-> ->].
    done.
  - destruct (reconcileLoops_twice_as_once (relationFaults w) o o' stackID oldSet newSet
                (relationsOf w) (trace w)
                (trace (reconcileRelations o stackID oldSet newSet w).2)) as [o'' Ho''].
    exists o''. rewrite (reconcileRelations_run o'' stackID oldSet newSet w). cbn [snd].
    rewrite relationsOf_withRelations, Ho''.
    rewrite (reconcileRelations_run o' stackID oldSet newSet). cbn [snd].
    rewrite relationsOf_withRelations.
    rewrite (reconcileRelations_run o stackID oldSet newSet w). cbn [snd].
    by rewrite relationFaults_withRelations, relationsOf_withRelations.
Qed.

Lemma reconcile_idempotent_witness :
  let once := reconcileRelations exOrder 1 [1; 3] [1; 2] exWorld in
  fst once = inr ()
  ∧ fst (reconcileRelations (mkRangeOrder [3] [2]) 1 [1; 3] [1; 2] (snd once)) = inr ()
  ∧ relationsOf (snd (reconcileRelations (mkRangeOrder [3] [2]) 1 [1; 3] [1; 2] (snd once)))
    = relationsOf (snd once).
Proof.
  cbv zeta. split; [by vm_compute|].
  apply (reconcile_idempotent exOrder (mkRangeOrder [3] [2]) 1 [1; 3] [1; 2] exWorld).
  by vm_compute.
Defined.

(** C3. The reconciliation does not touch the relation record of an
    environment that is in the old and in the new target set: the record,
    and with it the membership flag of the stack, is as it was before. *)
Theorem reconcile_keeps_common (o : RangeOrder) (stackID : EdgeStackID)
    (oldSet newSet : list EndpointID) (w : World) (endpointID : EndpointID) :
  endpointID ∈ EndpointSet oldSet →
  endpointID ∈ EndpointSet newSet →
  let w' := snd (reconcileRelations o stackID oldSet newSet w) in
  relationsOf w' !! endpointID = relationsOf w !! endpointID
  ∧ membershipFlag (relationsOf w') endpointID stackID
    = membershipFlag (relationsOf w) endpointID stackID.
Proof.
  unfold EndpointSet. rewrite !elem_of_list_to_set. intros Hold Hnew. cbv zeta.
  assert (relationsOf (snd (reconcileRelations o stackID oldSet newSet w)) !! endpointID
          = relationsOf w !! endpointID) as Heq.
  { rewrite reconcileRelations_run. cbn [snd].
    rewrite relationsOf_withRelations. by apply reconcileLoops_lookup_common. }
  split; [done|]. unfold membershipFlag. by rewrite Heq.
Qed.

Lemma reconcile_keeps_common_witness :
  let w' := snd (reconcileRelations exOrder 1 [1; 3] [1; 2] exWorld) in
  relationsOf w' !! 1 = relationsOf exWorld !! 1
  ∧ membershipFlag (relationsOf w') 1 1 = Some true.
Proof.
  apply (reconcile_keeps_common exOrder 1 [1; 3] [1; 2] exWorld 1); by vm_compute.
Defined.

(** ** Frames: what the steps of the update leave alone *)

Lemma stackWrites_app t1 t2 : stackWrites (t1 ++ t2) = stackWrites t1 ++ stackWrites t2.
Proof. unfold stackWrites. apply filter_app. Qed.

Lemma stackWrites_none evs :
  Forall (λ e, isStackWrite e = false) evs → stackWrites evs = [].
Proof.
  intros Hevs. unfold stackWrites. apply filter_none.
  intros e He. rewrite Forall_forall in Hevs. rewrite (Hevs e He). done.
Qed.

Lemma stackWrites_relation evs :
  Forall (λ e, isRelationWrite e = true) evs → stackWrites evs = [].
Proof.
  intros Hevs. apply stackWrites_none. eapply Forall_impl; [done|].
  by intros [].
Qed.

Lemma stackWrites_file evs :
  Forall (λ e, isFileEvent e = true) evs → stackWrites evs = [].
Proof.
  intros Hevs. apply stackWrites_none. eapply Forall_impl; [done|].
  by intros [].
Qed.

Lemma stepsFrom_refl w : stepsFrom w w.
Proof. repeat split. by exists []. Qed.

Lemma stepsFrom_trans w1 w2 w3 : stepsFrom w1 w2 → stepsFrom w2 w3 → stepsFrom w1 w3.
Proof.
  intros (Hs1 & He1 & Hg1 & evs1 & Ht1 & Hw1) (Hs2 & He2 & Hg2 & evs2 & Ht2 & Hw2).
  split_and!; [congruence..|].
  exists (evs2 ++ evs1). split.
  - by rewrite Ht2, Ht1, app_assoc.
  - by rewrite stackWrites_app, Hw1, Hw2.
Qed.

Lemma fileStepsFrom_refl w : fileStepsFrom w w.
Proof. split; [done|]. by exists []. Qed.

Lemma fileStepsFrom_trans w1 w2 w3 :
  fileStepsFrom w1 w2 → fileStepsFrom w2 w3 → fileStepsFrom w1 w3.
Proof.
  intros (Hs1 & evs1 & Ht1 & Hw1) (Hs2 & evs2 & Ht2 & Hw2).
  split; [congruence|].
  exists (evs2 ++ evs1). split.
  - by rewrite Ht2, Ht1, app_assoc.
  - by apply Forall_app.
Qed.

Lemma fileStepsFrom_stepsFrom w w1 : fileStepsFrom w w1 → stepsFrom w w1.
Proof.
  intros (Htx & evs & Ht & Hevs). unfold stepsFrom, stacksOf. rewrite Htx.
  split_and!; try done. exists evs. split; [done|]. by apply stackWrites_file.
Qed.

Section frames.
Context {E A B : Type}.

Lemma readOnly_fileFramed (m : ST E A) : readOnly m → fileFramed m.
Proof. intros Hm w. rewrite Hm. apply fileStepsFrom_refl. Qed.

Lemma fileFramed_framed (m : ST E A) : fileFramed m → framed m.
Proof. intros Hm w. apply fileStepsFrom_stepsFrom, Hm. Qed.

Lemma readOnly_ret (a : A) : readOnly (mret a : ST E A).
Proof. done. Qed.

Lemma readOnly_fail (e : E) : readOnly (fail e : ST E A).
Proof. done. Qed.

Lemma readOnly_lift (r : E + A) : readOnly (lift r).
Proof. done. Qed.

Lemma readOnly_bind (m : ST E A) (k : A → ST E B) :
  readOnly m → (∀ a, readOnly (k a)) → readOnly (m ≫= k).
Proof.
  intros Hm Hk w. unfold mbind, ST_bind. specialize (Hm w).
  destruct (m w) as [[e|a] w1]; cbn in *; subst; [done|]. apply Hk.
Qed.

Lemma fileFramed_bind (m : ST E A) (k : A → ST E B) :
  fileFramed m → (∀ a, fileFramed (k a)) → fileFramed (m ≫= k).
Proof.
  intros Hm Hk w. unfold mbind, ST_bind. specialize (Hm w).
  destruct (m w) as [[e|a] w1]; cbn in *; [done|].
  eapply fileStepsFrom_trans; [done|]. apply Hk.
Qed.

Lemma framed_bind (m : ST E A) (k : A → ST E B) :
  framed m → (∀ a, framed (k a)) → framed (m ≫= k).
Proof.
  intros Hm Hk w. unfold mbind, ST_bind. specialize (Hm w).
  destruct (m w) as [[e|a] w1]; cbn in *; [done|].
  eapply stepsFrom_trans; [done|]. apply Hk.
Qed.

Lemma readOnly_onErr {E'} (f : E → E') (m : ST E A) : readOnly m → readOnly (onErr f m).
Proof. intros Hm w. unfold onErr. specialize (Hm w). by destruct (m w) as [[?|?] ?]. Qed.

Lemma fileFramed_onErr {E'} (f : E → E') (m : ST E A) :
  fileFramed m → fileFramed (onErr f m).
Proof. intros Hm w. unfold onErr. specialize (Hm w). by destruct (m w) as [[?|?] ?]. Qed.

Lemma framed_onErr {E'} (f : E → E') (m : ST E A) : framed m → framed (onErr f m).
Proof. intros Hm w. unfold onErr. specialize (Hm w). by destruct (m w) as [[?|?] ?]. Qed.
End frames.

Lemma fileFramed_logWarn {E} (m : ST error ()) : fileFramed m → fileFramed (@logWarn E m).
Proof. intros Hm w. apply Hm. Qed.

Lemma readOnly_EdgeStack id : readOnly (tx_EdgeStack.EdgeStack id).
Proof. intros w. unfold tx_EdgeStack.EdgeStack. by destruct (_ !! _). Qed.

Lemma readOnly_FetchEndpointRelationsConfig : readOnly FetchEndpointRelationsConfig.
Proof.
  intros w. unfold FetchEndpointRelationsConfig.
  by destruct (StoreFaults.FetchEndpointRelationsConfig _).
Qed.

(** What the configuration holds, when it is read. *)
Lemma FetchEndpointRelationsConfig_inr {E} (f : error → E) w cfg w1 :
  onErr f FetchEndpointRelationsConfig w = (inr cfg, w1) →
  cfg = mkEndpointRelationsConfig (endpointBucket (tx w)) (edgeGroupBucket (tx w))
  ∧ StoreFaults.FetchEndpointRelationsConfig (storeFaults (tx w)) = None.
Proof.
  unfold onErr, FetchEndpointRelationsConfig.
  destruct (StoreFaults.FetchEndpointRelationsConfig _); [done|]. by intros [= <- _].
Qed.

Lemma readOnly_hasWrongEnvironmentType ids d : readOnly (hasWrongEnvironmentType ids d).
Proof. done. Qed.

Lemma readOnly_hasKubeEndpoint ids : readOnly (hasKubeEndpoint ids).
Proof. done. Qed.

Lemma readOnly_GetFileContent dir name : readOnly (FileService.GetFileContent dir name).
Proof. intros w. unfold FileService.GetFileContent. by destruct (_ !! _). Qed.

Lemma fileFramed_RemoveDirectory h path : fileFramed (FileService.RemoveDirectory h path).
Proof.
  intros w. unfold FileService.RemoveDirectory.
  destruct (FileService_removeFails h path); [apply fileStepsFrom_refl|].
  split; [done|]. exists [EvRemoveDirectory path]. split; [done|]. by repeat constructor.
Qed.

Lemma fileFramed_StoreEdgeStackFileFromBytes h folder name data :
  fileFramed (FileService.StoreEdgeStackFileFromBytes h folder name data).
Proof.
  intros w. unfold FileService.StoreEdgeStackFileFromBytes.
  destruct (FileService_storeFails h folder name); [apply fileStepsFrom_refl|].
  split; [done|]. eexists [_]. split; [done|]. by repeat constructor.
Qed.

Lemma fileFramed_convertAndStoreKubeManifestIfNeeded h folder path compose ids :
  fileFramed (convertAndStoreKubeManifestIfNeeded h folder path compose ids).
Proof.
  unfold convertAndStoreKubeManifestIfNeeded.
  apply fileFramed_bind; [apply readOnly_fileFramed, readOnly_hasKubeEndpoint|].
  intros hasKube. destruct (negb hasKube); [apply readOnly_fileFramed, readOnly_ret|].
  apply fileFramed_bind; [apply readOnly_fileFramed, readOnly_GetFileContent|].
  intros ?. apply fileFramed_bind; [apply readOnly_fileFramed, readOnly_lift|].
  intros ?. apply fileFramed_bind; [apply fileFramed_StoreEdgeStackFileFromBytes|].
  intros ?. apply readOnly_fileFramed, readOnly_ret.
Qed.

Lemma framed_reconcileRelations o stackID old new :
  framed (reconcileRelations o stackID old new).
Proof.
  intros w. rewrite reconcileRelations_run. cbn [snd].
  split_and!; try done.
  unfold reconcileLoops. cbv zeta.
  destruct (relationLoop_trace (relationFaults w) (withoutStack stackID)
              (rangeKeys (rangeRemove o)
                 (filter (λ id, id ∉ EndpointSet new) (EndpointSet old)))
              (relationsOf w) (trace w)) as (evs1 & Ht1 & Hevs1 & _).
  destruct (relationLoop _ _ _ (relationsOf w) (trace w)) as [[ok1 b1] t1] eqn:Hr1.
  cbn [fst snd] in *. destruct ok1; cbn [withRelations trace].
  - destruct (relationLoop_trace (relationFaults w) (withStack stackID)
                (rangeKeys (rangeAdd o)
                   (filter (λ id, id ∉ EndpointSet old) (EndpointSet new)))
                b1 t1) as (evs2 & Ht2 & Hevs2 & _).
    exists (evs2 ++ evs1). split.
    + by rewrite Ht2, Ht1, app_assoc.
    + rewrite stackWrites_app, !stackWrites_relation; done.
  - exists evs1. split; [done|]. by apply stackWrites_relation.
Qed.

Create HintDb frames discriminated.

#[local] Hint Resolve readOnly_ret readOnly_fail readOnly_lift readOnly_onErr
  readOnly_EdgeStack readOnly_FetchEndpointRelationsConfig
  readOnly_hasWrongEnvironmentType readOnly_hasKubeEndpoint readOnly_GetFileContent
  fileFramed_onErr fileFramed_logWarn fileFramed_RemoveDirectory
  fileFramed_StoreEdgeStackFileFromBytes fileFramed_convertAndStoreKubeManifestIfNeeded
  framed_onErr framed_reconcileRelations : frames.

(** A step of a computation, read off a run of it. *)
Lemma run_readOnly {E A} (m : ST E A) w r w1 : readOnly m → m w = (r, w1) → w1 = w.
Proof. intros Hm Hrun. specialize (Hm w). by rewrite Hrun in Hm. Qed.

Lemma run_fileFramed {E A} (m : ST E A) w r w1 :
  fileFramed m → m w = (r, w1) → fileStepsFrom w w1.
Proof. intros Hm Hrun. specialize (Hm w). by rewrite Hrun in Hm. Qed.

Lemma run_framed {E A} (m : ST E A) w r w1 : framed m → m w = (r, w1) → stepsFrom w w1.
Proof. intros Hm Hrun. specialize (Hm w). by rewrite Hrun in Hm. Qed.

(** Case analysis on the first step of a sequence. *)
Lemma bind_case {E A B} (m : ST E A) (k : A → ST E B) w
    (Q : (E + B) * World → Prop) :
  (∀ e w1, m w = (inl e, w1) → Q (inl e, w1)) →
  (∀ a w1, m w = (inr a, w1) → Q (k a w1)) →
  Q ((m ≫= k) w).
Proof.
  intros Hl Hr. unfold mbind, ST_bind.
  destruct (m w) as [[e|a] w1]; [by apply Hl|by apply Hr].
Qed.

(** ** The guard and the conversion *)

Lemma hasEndpointPredicate_ext eps ids (p q : Endpoint.t → bool) :
  (∀ e, p e = q e) → hasEndpointPredicate eps ids p = hasEndpointPredicate eps ids q.
Proof.
  intros Hpq. induction ids as [|id ids IH]; cbn; [done|].
  destruct (tx_Endpoint.Endpoint id eps); [done|]. by rewrite Hpq, IH.
Qed.

(** A compose stack that passes the guard targets no orchestrator, *)
Lemma guard_compose_no_kube d ids :
  hasWrongType d ids EdgeStackDeploymentCompose = inr false →
  hasEndpointPredicate (endpointBucket d) ids IsKubernetesEndpoint = inr false.
Proof.
  intros <-. unfold hasWrongType. apply hasEndpointPredicate_ext.
  intros e. cbn. by rewrite negb_involutive.
Qed.

(** and then nothing is converted: no file is written and the manifest
    path is empty. *)
Lemma convertAndStoreKubeManifestIfNeeded_no_kube h folder path compose ids w :
  hasEndpointPredicate (endpointBucket (tx w)) ids IsKubernetesEndpoint = inr false →
  convertAndStoreKubeManifestIfNeeded h folder path compose ids w = (inr "", w).
Proof.
  intros Hkube. unfold convertAndStoreKubeManifestIfNeeded.
  erewrite bind_inr; [|unfold hasKubeEndpoint; by rewrite Hkube]. done.
Qed.

(** The guard finds an environment that cannot run the deployment type,
    or fails on an environment that is not in the store before it. *)
Lemma hasEndpointPredicate_found eps ids p id e :
  id ∈ ids → tx_Endpoint.Endpoint id eps = inr e → p e = true →
  hasEndpointPredicate eps ids p ≠ inr false.
Proof.
  intros Hid He Hp. induction ids as [|k ids IH]; [by apply elem_of_nil in Hid|].
  cbn. destruct (tx_Endpoint.Endpoint k eps) as [|e'] eqn:Hk; [done|].
  destruct (p e') eqn:Hp'; [done|].
  apply elem_of_cons in Hid as [->|Hid]; [|by apply IH]. congruence.
Qed.

(** ** The outcome of the update *)

Ltac run_ro H :=
  match type of H with
  | ?m ?w0 = (?r, ?w1) =>
      let F := fresh "F" in
      assert (w1 = w0) as F
        by (apply (run_readOnly m w0 r w1); [auto 10 with frames|exact H]);
      subst w1
  end.

Ltac run_file H F :=
  match type of H with
  | ?m ?w0 = (?r, ?w1) =>
      assert (fileStepsFrom w0 w1) as F
        by (apply (run_fileFramed m w0 r w1); [auto 10 with frames|exact H])
  end.

(** The steps before the version is looked at change neither the
    identifier, nor the version, nor the status map. *)
Lemma preparedStack_frame payload s :
  EdgeStack.ID (preparedStack payload s) = EdgeStack.ID s
  ∧ EdgeStack.Version (preparedStack payload s) = EdgeStack.Version s
  ∧ EdgeStack.Status (preparedStack payload s) = EdgeStack.Status s.
Proof.
  unfold preparedStack, kubernetesFields, composeFields, typeTransition. cbv zeta.
  destruct (updateEdgeStackPayload.EdgeGroups payload); by repeat case_decide.
Qed.

Lemma finalStack_ID payload s related :
  EdgeStack.ID (finalStack payload s related) = EdgeStack.ID s.
Proof.
  destruct (preparedStack_frame payload s) as (HID & _).
  unfold finalStack, versionFields. cbv zeta.
  by destruct (versionUpdated _ _).
Qed.

Lemma updateEdgeStack_outcome h o stackID payload w :
  updateOutcome o stackID payload w (updateEdgeStack h o stackID payload w).
Proof.
  unfold updateEdgeStack.
  apply bind_case; [intros e w1 H1|intros s w1 H1]; run_ro H1;
    [apply stepsFrom_refl|].
  apply onErr_inv_inr in H1. unfold tx_EdgeStack.EdgeStack in H1.
  destruct (edgeStackBucket (tx w) !! stackID) as [s0|] eqn:Hs; [|done].
  injection H1 as ->.
  apply bind_case; [intros e w1 H2|intros cfg w1 H2]; run_ro H2;
    [apply stepsFrom_refl|].
  apply FetchEndpointRelationsConfig_inr in H2 as [-> _].
  cbn [config_Endpoints config_EdgeGroups].
  apply bind_case; [intros e w1 H3|intros old w1 H3]; run_ro H3;
    [apply stepsFrom_refl|].
  apply onErr_inv_inr in H3. injection H3 as Hold.
  apply bind_case; [intros e w4 H4|intros [stack4 related] w4 H4].
  { (* the reconciliation, or the resolution of the new groups, failed *)
    destruct (updateEdgeStackPayload.EdgeGroups payload) as [groups|]; [|done].
    apply bind_inv_inl in H4 as [H4|(new & w' & H4 & H5)]; run_ro H4;
      [apply stepsFrom_refl|].
    apply bind_inv_inl in H5 as [H5|(? & w'' & H5 & H6)]; [|done].
    eapply run_framed; [|exact H5]. auto with frames. }
  assert (EdgeStackRelatedEndpoints (targetGroups payload s)
            (endpointBucket (tx w)) (edgeGroupBucket (tx w)) = inr related
          ∧ stack4 = match updateEdgeStackPayload.EdgeGroups payload with
                     | Some g => EdgeStack.setEdgeGroups g s | None => s end
          ∧ w4 = reconciledWorld o payload s old related w
          ∧ (is_Some (updateEdgeStackPayload.EdgeGroups payload) →
             (reconcileRelations o (EdgeStack.ID s) old related w).1 = inr ())
          ∧ stepsFrom w w4) as (Hnew & Hstack4 & Hw4 & Hrec & HF4).
  { unfold targetGroups, reconciledWorld.
    destruct (updateEdgeStackPayload.EdgeGroups payload) as [groups|].
    - apply bind_inv_inr in H4 as (new & w' & H4 & H5). run_ro H4.
      apply onErr_inv_inr in H4. injection H4 as Hnew.
      apply bind_inv_inr in H5 as ([] & w'' & H5 & H6). injection H6 as <- <- <-.
      rewrite H5. split_and!; try done.
      eapply run_framed; [|exact H5]. auto with frames.
    - injection H4 as <- <- <-. split_and!; try done. apply stepsFrom_refl. }
  clear H4.
  (* the deployment type *)
  apply bind_case; [intros e w5 H5|intros stack5 w5 H5].
  { exfalso. destruct (decide _); [|done].
    by apply bind_inv_inl in H5 as [H5|(? & ? & _ & H5)]. }
  assert (stack5 = typeTransition (updateEdgeStackPayload.DeploymentType payload) stack4
          ∧ fileStepsFrom w4 w5) as [Hstack5 HF5].
  { unfold typeTransition. destruct (decide _).
    - apply bind_inv_inr in H5 as ([] & w' & H5 & H6). injection H6 as <- <-.
      split; [done|]. run_file H5 F. done.
    - injection H5 as <- <-. split; [done|apply fileStepsFrom_refl]. }
  clear H5.
  (* the guard *)
  apply bind_case; [intros e w6 H6|intros hasWrong w6 H6]; run_ro H6.
  { eapply stepsFrom_trans; [done|]. by apply fileStepsFrom_stepsFrom. }
  apply onErr_inv_inr in H6. injection H6 as Hguard.
  destruct hasWrong.
  { eapply stepsFrom_trans; [done|]. by apply fileStepsFrom_stepsFrom. }
  assert (endpointBucket (tx w5) = endpointBucket (tx w)) as Heps.
  { destruct HF5 as [-> _]. by destruct HF4 as (_ & -> & _). }
  (* the compose file *)
  apply bind_case; [intros e w7 H7|intros stack7 w7 H7].
  { eapply stepsFrom_trans; [done|]. eapply stepsFrom_trans.
    - by apply fileStepsFrom_stepsFrom.
    - apply fileStepsFrom_stepsFrom. destruct (decide (updateEdgeStackPayload.DeploymentType payload
                       = EdgeStackDeploymentCompose)); [|done].
      apply bind_inv_inl in H7 as [H7|(? & w' & H7 & H8)]; [by run_file H7 F|].
      run_file H7 F. eapply fileStepsFrom_trans; [done|].
      apply bind_inv_inl in H8 as [H8|(? & w'' & H8 & H9)]; [by run_file H8 F'|done]. }
  assert (stack7 = (if decide (updateEdgeStackPayload.DeploymentType payload
                               = EdgeStackDeploymentCompose)
                    then composeFields "" stack5 else stack5)
          ∧ fileStepsFrom w5 w7) as [Hstack7 HF7].
  { destruct (decide (updateEdgeStackPayload.DeploymentType payload
                     = EdgeStackDeploymentCompose)) as [Hcompose|].
    - apply bind_inv_inr in H7 as (? & w' & H7 & H8). run_file H7 F.
      apply bind_inv_inr in H8 as (manifestPath & w'' & H8 & H9).
      apply onErr_inv_inr in H8.
      rewrite convertAndStoreKubeManifestIfNeeded_no_kube in H8.
      + injection H8 as <- <-. injection H9 as <- <-. done.
      + destruct F as [-> _]. apply guard_compose_no_kube.
        unfold hasWrongType. by rewrite <-Hcompose.
    - injection H7 as <- <-. split; [done|apply fileStepsFrom_refl]. }
  clear H7.
  (* the manifest file *)
  apply bind_case; [intros e w8 H8|intros stack8 w8 H8].
  { eapply stepsFrom_trans; [done|]. eapply stepsFrom_trans.
    - by apply fileStepsFrom_stepsFrom.
    - apply fileStepsFrom_stepsFrom. eapply fileStepsFrom_trans; [done|].
      destruct (decide (updateEdgeStackPayload.DeploymentType payload
                       = EdgeStackDeploymentKubernetes)); [|done].
      apply bind_inv_inl in H8 as [H8|(? & w' & H8 & H9)]; [by run_file H8 F|done]. }
  assert (stack8 = (if decide (updateEdgeStackPayload.DeploymentType payload
                               = EdgeStackDeploymentKubernetes)
                    then kubernetesFields
                           (updateEdgeStackPayload.UseManifestNamespaces payload) stack7
                    else stack7)
          ∧ fileStepsFrom w7 w8) as [Hstack8 HF8].
  { destruct (decide (updateEdgeStackPayload.DeploymentType payload
                     = EdgeStackDeploymentKubernetes)).
    - apply bind_inv_inr in H8 as (? & w' & H8 & H9). run_file H8 F.
      injection H9 as <- <-. done.
    - injection H8 as <- <-. split; [done|apply fileStepsFrom_refl]. }
  clear H8.
  (* the version, and the write of the stack *)
  cbv zeta.
  assert (stepsFrom w w8) as HF.
  { eapply stepsFrom_trans; [done|]. apply fileStepsFrom_stepsFrom.
    eauto using fileStepsFrom_trans. }
  apply bind_case; [intros e w9 H9|intros [] w9 H9].
  { (* the store fails to write the stack *)
    apply onErr_inv_inl in H9 as (err & H9 & _).
    unfold tx_EdgeStack.UpdateEdgeStack in H9.
    destruct (StoreFaults.UpdateEdgeStack _ _); [|done]. by injection H9 as _ <-. }
  apply onErr_inv_inr in H9. unfold tx_EdgeStack.UpdateEdgeStack in H9.
  destruct (StoreFaults.UpdateEdgeStack _ _); [done|].
  injection H9 as <-.
  match goal with
  | |- context [EvUpdateEdgeStack _ ?X] =>
      assert (X = finalStack payload s related) as ->
        by (subst stack8 stack7 stack5 stack4; reflexivity)
  end.
  assert (tx w8 = tx w4) as Htx.
  { destruct HF8 as [-> _], HF7 as [-> _], HF5 as [-> _]. done. }
  destruct HF as (Hst & _ & _ & evs & Ht & Hevs).
  unfold updateOutcome, mret, ST_ret. exists s, old, related.
  rewrite finalStack_ID. split_and!; try done.
  - unfold hasWrongType. by rewrite <-Heps.
  - unfold stacksOf in *. cbn. by rewrite Hst.
  - unfold relationsOf. cbn. by rewrite Htx, Hw4.
  - exists evs. cbn. by rewrite Ht.
Qed.

Lemma updateEdgeStack_inr h o stackID payload w s' w' :
  updateEdgeStack h o stackID payload w = (inr s', w') →
  updateOutcome o stackID payload w (inr s', w').
Proof. intros <-. apply updateEdgeStack_outcome. Qed.

Lemma updateEdgeStack_inl h o stackID payload w e w' :
  updateEdgeStack h o stackID payload w = (inl e, w') → stepsFrom w w'.
Proof.
  intros Hrun. pose proof (updateEdgeStack_outcome h o stackID payload w) as Hout.
  by rewrite Hrun in Hout.
Qed.

(** ** The fields of the persisted record *)

Lemma versionUpdated_preparedStack payload s :
  versionUpdated (updateEdgeStackPayload.Version payload) (preparedStack payload s)
  = versionUpdated (updateEdgeStackPayload.Version payload) s.
Proof.
  destruct (preparedStack_frame payload s) as (_ & Hv & _).
  unfold versionUpdated. by rewrite Hv.
Qed.

Lemma finalStack_same_version payload s related :
  versionUpdated (updateEdgeStackPayload.Version payload) s = false →
  EdgeStack.Status (finalStack payload s related) = EdgeStack.Status s
  ∧ EdgeStack.Version (finalStack payload s related) = EdgeStack.Version s.
Proof.
  intros Hv. destruct (preparedStack_frame payload s) as (_ & Hversion & Hstatus).
  unfold finalStack, versionFields. cbv zeta.
  by rewrite versionUpdated_preparedStack, Hv.
Qed.

Lemma finalStack_new_version payload s related v :
  updateEdgeStackPayload.Version payload = Some v → v ≠ EdgeStack.Version s →
  EdgeStack.Status (finalStack payload s related) = ∅
  ∧ EdgeStack.Version (finalStack payload s related) = v.
Proof.
  intros Hv Hne. unfold finalStack, versionFields. cbv zeta.
  rewrite versionUpdated_preparedStack.
  assert (versionUpdated (updateEdgeStackPayload.Version payload) s = true) as ->.
  { unfold versionUpdated. rewrite Hv. by apply bool_decide_eq_true_2. }
  by rewrite Hv.
Qed.

(** C4. When the payload has no version, or the version that is stored,
    the update leaves the status map and the version of the stack as they
    were: in the record it returns, and in the record that the store holds
    under the identifier afterwards, whether the update succeeds or not. *)
Theorem same_version_keeps_status (h : Handler) (o : RangeOrder)
    (stackID : EdgeStackID) (payload : updateEdgeStackPayload.t) (w : World)
    (s : EdgeStack.t) :
  stacksOf w !! stackID = Some s →
  updateEdgeStackPayload.Version payload = None
  ∨ updateEdgeStackPayload.Version payload = Some (EdgeStack.Version s) →
  let r := updateEdgeStack h o stackID payload w in
  (∀ s', r.1 = inr s' →
     EdgeStack.Status s' = EdgeStack.Status s
     ∧ EdgeStack.Version s' = EdgeStack.Version s)
  ∧ ∃ s1, stacksOf r.2 !! stackID = Some s1
          ∧ EdgeStack.Status s1 = EdgeStack.Status s
          ∧ EdgeStack.Version s1 = EdgeStack.Version s.
Proof.
  intros Hs Hv. cbv zeta.
  assert (versionUpdated (updateEdgeStackPayload.Version payload) s = false) as Hvu.
  { unfold versionUpdated. destruct Hv as [->| ->]; [done|].
    by apply bool_decide_eq_false_2; intros ?. }
  destruct (updateEdgeStack h o stackID payload w) as [[e|s'] w'] eqn:Hrun; cbn [fst snd].
  - split; [done|]. apply updateEdgeStack_inl in Hrun as (Hst & _).
    exists s. by rewrite Hst.
  - apply updateEdgeStack_inr in Hrun
      as (s0 & old & related & Hs0 & _ & _ & _ & _ & -> & Hst & _).
    assert (s0 = s) as -> by congruence.
    destruct (finalStack_same_version payload s related Hvu) as [Hstatus Hversion].
    split; [by intros ? [= <-]|].
    rewrite Hst. destruct (decide (EdgeStack.ID s = stackID)) as [<-|Hne].
    + rewrite lookup_insert_eq. eauto.
    + rewrite lookup_insert_ne by done. eauto.
Qed.

Lemma same_version_keeps_status_witness :
  let r := updateEdgeStack exHandler exOrder 1 exPayloadNoVersion exWorld in
  (∀ s', r.1 = inr s' →
     EdgeStack.Status s' = EdgeStack.Status exStack
     ∧ EdgeStack.Version s' = EdgeStack.Version exStack)
  ∧ ∃ s1, stacksOf r.2 !! 1 = Some s1
          ∧ EdgeStack.Status s1 = EdgeStack.Status exStack
          ∧ EdgeStack.Version s1 = EdgeStack.Version exStack.
Proof.
  apply (same_version_keeps_status exHandler exOrder 1 exPayloadNoVersion exWorld exStack).
  - reflexivity.
  - left. reflexivity.
Defined.

(** C5. When the payload has a version that is not the stored one, the
    record that a successful update persists has that version and an empty
    status map, whatever the map held; the update writes the stack record
    once, as its last step, and the record written is the record returned,
    with both changes in it. *)
Theorem new_version_resets_status (h : Handler) (o : RangeOrder)
    (stackID : EdgeStackID) (payload : updateEdgeStackPayload.t) (w : World)
    (s : EdgeStack.t) (v : Z) :
  stacksOf w !! stackID = Some s →
  updateEdgeStackPayload.Version payload = Some v →
  v ≠ EdgeStack.Version s →
  let r := updateEdgeStack h o stackID payload w in
  ∀ s', r.1 = inr s' →
    EdgeStack.Version s' = v
    ∧ EdgeStack.Status s' = ∅
    ∧ stacksOf r.2 !! EdgeStack.ID s' = Some s'
    ∧ stackWrites (trace r.2)
      = EvUpdateEdgeStack (EdgeStack.ID s') s' :: stackWrites (trace w)
    ∧ head (trace r.2) = Some (EvUpdateEdgeStack (EdgeStack.ID s') s').
Proof.
  intros Hs Hv Hne. cbv zeta. intros s' Hrun.
  destruct (updateEdgeStack h o stackID payload w) as [[e|s''] w'] eqn:Hrun'; [done|].
  cbn [fst snd] in *. injection Hrun as ->.
  apply updateEdgeStack_inr in Hrun'
    as (s0 & old & related & Hs0 & _ & _ & _ & _ & -> & Hst & _ & evs & Ht & Hevs).
  assert (s0 = s) as -> by congruence.
  destruct (finalStack_new_version payload s related v Hv Hne) as [Hstatus Hversion].
  rewrite finalStack_ID. split_and!; try done.
  - by rewrite Hst, lookup_insert_eq.
  - rewrite Ht. change (?x :: ?l ++ ?t) with ([x] ++ l ++ t).
    by rewrite !stackWrites_app, Hevs.
  - by rewrite Ht.
Qed.

Lemma new_version_resets_status_witness :
  ∃ s', (updateEdgeStack exHandler exOrder 1 exPayloadAddGroup exWorld).1 = inr s'
        ∧ EdgeStack.Version s' = 2
        ∧ EdgeStack.Status s' = ∅.
Proof.
  eexists. split; [by vm_compute|].
  destruct (new_version_resets_status exHandler exOrder 1 exPayloadAddGroup exWorld
              exStack 2 eq_refl eq_refl ltac:(done) _ eq_refl) as (Hv & Hst & _).
  split; [exact Hv|exact Hst].
Defined.

Lemma versionFields_frame requested n stack :
  EdgeStack.ID (versionFields requested n stack) = EdgeStack.ID stack
  ∧ EdgeStack.EdgeGroups (versionFields requested n stack) = EdgeStack.EdgeGroups stack
  ∧ EdgeStack.DeploymentType (versionFields requested n stack)
    = EdgeStack.DeploymentType stack
  ∧ EdgeStack.EntryPoint (versionFields requested n stack) = EdgeStack.EntryPoint stack
  ∧ EdgeStack.ManifestPath (versionFields requested n stack)
    = EdgeStack.ManifestPath stack
  ∧ EdgeStack.NumDeployments (versionFields requested n stack) = n.
Proof. unfold versionFields. cbv zeta. by destruct (versionUpdated _ _). Qed.

Lemma preparedStack_DeploymentType payload s :
  EdgeStack.DeploymentType (preparedStack payload s)
  = updateEdgeStackPayload.DeploymentType payload.
Proof.
  unfold preparedStack, kubernetesFields, composeFields, typeTransition. cbv zeta.
  destruct (updateEdgeStackPayload.EdgeGroups payload);
    repeat case_decide; cbn in *; try done; by apply dec_stable.
Qed.

Lemma preparedStack_EdgeGroups payload s groups :
  updateEdgeStackPayload.EdgeGroups payload = Some groups →
  EdgeStack.EdgeGroups (preparedStack payload s) = groups.
Proof.
  intros Hg. unfold preparedStack, kubernetesFields, composeFields, typeTransition.
  cbv zeta. rewrite Hg. by repeat case_decide.
Qed.

(** After a change of the deployment type the paths are those of a fresh
    stack of the new type, whatever they were. *)
Lemma preparedStack_type_changed payload s :
  EdgeStack.DeploymentType s ≠ updateEdgeStackPayload.DeploymentType payload →
  match updateEdgeStackPayload.DeploymentType payload with
  | EdgeStackDeploymentCompose =>
      EdgeStack.EntryPoint (preparedStack payload s) = ComposeFileDefaultName
      ∧ EdgeStack.ManifestPath (preparedStack payload s) = ""
  | EdgeStackDeploymentKubernetes =>
      EdgeStack.ManifestPath (preparedStack payload s) = ManifestFileDefaultName
      ∧ EdgeStack.EntryPoint (preparedStack payload s) = ""
  end.
Proof.
  intros Hne.
  unfold preparedStack, kubernetesFields, composeFields, typeTransition. cbv zeta.
  destruct (updateEdgeStackPayload.EdgeGroups payload);
    destruct (updateEdgeStackPayload.DeploymentType payload);
    repeat case_decide; cbn in *; done.
Qed.

Lemma preparedStack_consistent payload s :
  pathsConsistent s → pathsConsistent (preparedStack payload s).
Proof.
  unfold pathsConsistent. rewrite preparedStack_DeploymentType.
  destruct (decide (EdgeStack.DeploymentType s
                    = updateEdgeStackPayload.DeploymentType payload)) as [Heq|Hne].
  - rewrite Heq. intros Hs.
    unfold preparedStack, kubernetesFields, composeFields, typeTransition. cbv zeta.
    destruct (updateEdgeStackPayload.EdgeGroups payload);
      destruct (updateEdgeStackPayload.DeploymentType payload);
      repeat case_decide; cbn in *; try done; tauto.
  - intros _. pose proof (preparedStack_type_changed payload s Hne) as Hp.
    destruct (updateEdgeStackPayload.DeploymentType payload);
      destruct Hp as [-> ->]; done.
Qed.

(** The resolver returns each environment once. *)
Lemma NoDup_relatedEndpoints gids eps groups acc l :
  NoDup acc → relatedEndpoints gids eps groups acc = inr l → NoDup l.
Proof.
  revert acc. induction gids as [|gid gids IH]; intros acc Hacc; cbn.
  - by intros [= <-].
  - destruct (List.find _ groups) as [g|]; [|done].
    apply IH. apply NoDup_list_union; [done|apply NoDup_remove_dups].
Qed.

Lemma NoDup_EdgeStackRelatedEndpoints gids eps groups l :
  EdgeStackRelatedEndpoints gids eps groups = inr l → NoDup l.
Proof. apply NoDup_relatedEndpoints. constructor. Qed.

(** C6. When the deployment type of the payload is not the stored one,
    the record that a successful update persists has the new type and the
    paths of a fresh stack of that type, whatever paths were stored: the
    default compose file name as entry point and no manifest for the
    compose type, the default manifest file name as manifest path and no
    entry point for the manifest type. *)
Theorem type_change_resets_paths (h : Handler) (o : RangeOrder)
    (stackID : EdgeStackID) (payload : updateEdgeStackPayload.t) (w : World)
    (s : EdgeStack.t) :
  stacksOf w !! stackID = Some s →
  EdgeStack.DeploymentType s ≠ updateEdgeStackPayload.DeploymentType payload →
  let r := updateEdgeStack h o stackID payload w in
  ∀ s', r.1 = inr s' →
    EdgeStack.DeploymentType s' = updateEdgeStackPayload.DeploymentType payload
    ∧ match updateEdgeStackPayload.DeploymentType payload with
      | EdgeStackDeploymentCompose =>
          EdgeStack.EntryPoint s' = ComposeFileDefaultName
          ∧ EdgeStack.ManifestPath s' = ""
      | EdgeStackDeploymentKubernetes =>
          EdgeStack.ManifestPath s' = ManifestFileDefaultName
          ∧ EdgeStack.EntryPoint s' = ""
      end
    ∧ stacksOf r.2 !! EdgeStack.ID s' = Some s'.
Proof.
  intros Hs Hne. cbv zeta. intros s' Hrun.
  destruct (updateEdgeStack h o stackID payload w) as [[e|s''] w'] eqn:Hrun'; [done|].
  cbn [fst snd] in *. injection Hrun as ->.
  apply updateEdgeStack_inr in Hrun'
    as (s0 & old & related & Hs0 & _ & _ & _ & _ & -> & Hst & _).
  assert (s0 = s) as -> by congruence.
  rewrite finalStack_ID. unfold finalStack.
  destruct (versionFields_frame (updateEdgeStackPayload.Version payload)
              (Z.of_nat (length related)) (preparedStack payload s))
    as (_ & _ & -> & -> & -> & _).
  split_and!.
  - apply preparedStack_DeploymentType.
  - by apply preparedStack_type_changed.
  - by rewrite Hst, lookup_insert_eq.
Qed.

Lemma type_change_resets_paths_witness :
  ∃ s', (updateEdgeStack exHandler exOrder 1 exPayloadToKubernetes exWorld).1 = inr s'
        ∧ EdgeStack.ManifestPath s' = ManifestFileDefaultName
        ∧ EdgeStack.EntryPoint s' = "".
Proof.
  eexists. split; [by vm_compute|].
  apply (type_change_resets_paths exHandler exOrder 1 exPayloadToKubernetes exWorld
           exStack eq_refl ltac:(done) _ eq_refl).
Defined.

(** C8. A successful update of a stack whose deployment type and paths
    agree persists a record in which they agree again: a compose stack has
    an entry point and no manifest path, a manifest stack has a manifest
    path and no entry point. *)
Theorem update_preserves_pathsConsistent (h : Handler) (o : RangeOrder)
    (stackID : EdgeStackID) (payload : updateEdgeStackPayload.t) (w : World)
    (s : EdgeStack.t) :
  stacksOf w !! stackID = Some s →
  pathsConsistent s →
  let r := updateEdgeStack h o stackID payload w in
  ∀ s', r.1 = inr s' →
    pathsConsistent s' ∧ stacksOf r.2 !! EdgeStack.ID s' = Some s'.
Proof.
  intros Hs Hinv. cbv zeta. intros s' Hrun.
  destruct (updateEdgeStack h o stackID payload w) as [[e|s''] w'] eqn:Hrun'; [done|].
  cbn [fst snd] in *. injection Hrun as ->.
  apply updateEdgeStack_inr in Hrun'
    as (s0 & old & related & Hs0 & _ & _ & _ & _ & -> & Hst & _).
  assert (s0 = s) as -> by congruence.
  split; [|by rewrite finalStack_ID, Hst, lookup_insert_eq].
  pose proof (preparedStack_consistent payload s Hinv) as Hp.
  unfold pathsConsistent, finalStack in *.
  by destruct (versionFields_frame (updateEdgeStackPayload.Version payload)
                 (Z.of_nat (length related)) (preparedStack payload s))
    as (_ & _ & -> & -> & -> & _).
Qed.

Lemma update_preserves_pathsConsistent_witness :
  ∃ s', (updateEdgeStack exHandler exOrder 1 exPayloadToKubernetes exWorld).1 = inr s'
        ∧ pathsConsistent s'.
Proof.
  eexists. split; [by vm_compute|].
  apply (update_preserves_pathsConsistent exHandler exOrder 1 exPayloadToKubernetes
           exWorld exStack eq_refl).
  - by split.
  - reflexivity.
Defined.

(** C9. A successful update whose payload has a group list persists a
    record whose [NumDeployments] is the number of environments in the
    target set resolved from that list (the length of the slice that the
    resolver returns, in which each environment is once), and whose
    [EdgeGroups] is that list. *)
Theorem update_counts_targets (h : Handler) (o : RangeOrder)
    (stackID : EdgeStackID) (payload : updateEdgeStackPayload.t) (w : World)
    (groups : list EdgeGroupID) :
  updateEdgeStackPayload.EdgeGroups payload = Some groups →
  let r := updateEdgeStack h o stackID payload w in
  ∀ s', r.1 = inr s' →
    ∃ newRelated,
      EdgeStackRelatedEndpoints groups (endpointBucket (tx w)) (edgeGroupBucket (tx w))
      = inr newRelated
      ∧ EdgeStack.NumDeployments s' = Z.of_nat (length newRelated)
      ∧ EdgeStack.NumDeployments s' = Z.of_nat (size (EndpointSet newRelated))
      ∧ EdgeStack.EdgeGroups s' = groups
      ∧ stacksOf r.2 !! EdgeStack.ID s' = Some s'.
Proof.
  intros Hgroups. cbv zeta. intros s' Hrun.
  destruct (updateEdgeStack h o stackID payload w) as [[e|s''] w'] eqn:Hrun'; [done|].
  cbn [fst snd] in *. injection Hrun as ->.
  apply updateEdgeStack_inr in Hrun'
    as (s & old & related & Hs & _ & Hnew & _ & _ & -> & Hst & _).
  unfold targetGroups in Hnew. rewrite Hgroups in Hnew.
  exists related. rewrite finalStack_ID. unfold finalStack.
  destruct (versionFields_frame (updateEdgeStackPayload.Version payload)
              (Z.of_nat (length related)) (preparedStack payload s))
    as (_ & -> & _ & _ & _ & ->).
  split_and!; try done.
  - unfold EndpointSet. rewrite size_list_to_set; [done|].
    by eapply NoDup_EdgeStackRelatedEndpoints.
  - by apply preparedStack_EdgeGroups.
  - by rewrite Hst, lookup_insert_eq.
Qed.

Lemma update_counts_targets_witness :
  EdgeStack.NumDeployments exStack = 1
  ∧ (updateEdgeStack exHandler exOrder 1 exPayloadAddGroup exWorld).1
    = inr exStackAfterAddGroup
  ∧ ∃ newRelated,
      EdgeStackRelatedEndpoints [1; 2] (endpointBucket (tx exWorld))
        (edgeGroupBucket (tx exWorld)) = inr newRelated
      ∧ EdgeStack.NumDeployments exStackAfterAddGroup
        = Z.of_nat (size (EndpointSet newRelated))
      ∧ EdgeStack.EdgeGroups exStackAfterAddGroup = [1; 2].
Proof.
  split; [reflexivity|].
  assert ((updateEdgeStack exHandler exOrder 1 exPayloadAddGroup exWorld).1
          = inr exStackAfterAddGroup) as Hrun by (by vm_compute).
  split; [exact Hrun|].
  destruct (update_counts_targets exHandler exOrder 1 exPayloadAddGroup exWorld [1; 2]
              eq_refl exStackAfterAddGroup Hrun)
    as (newRelated & Hnew & _ & Hnum & Hgroups & _).
  exists newRelated. by split_and!.
Defined.

(** ** A group that does not exist *)

Lemma find_group_None (groups : list EdgeGroup.t) gid :
  (∀ g, g ∈ groups → EdgeGroup.ID g ≠ gid) →
  List.find (λ g, bool_decide (EdgeGroup.ID g = gid)) groups = None.
Proof.
  induction groups as [|g groups IH]; intros Hg; cbn; [done|].
  rewrite bool_decide_eq_false_2 by (apply Hg; left).
  apply IH. intros g' Hg'. apply Hg. by right.
Qed.

Lemma relatedEndpoints_unknown gids eps groups acc gid :
  gid ∈ gids →
  List.find (λ g, bool_decide (EdgeGroup.ID g = gid)) groups = None →
  relatedEndpoints gids eps groups acc = inl (errorString "Edge group was not found").
Proof.
  intros Hin Hfind. revert acc.
  induction gids as [|gid' gids IH]; intros acc; [by apply elem_of_nil in Hin|].
  cbn. apply elem_of_cons in Hin as [<-|Hin].
  - by rewrite Hfind.
  - destruct (List.find (λ g, bool_decide (EdgeGroup.ID g = gid')) groups);
      [by apply IH|done].
Qed.

(** C7, as the code has it. An update whose payload names a group that
    does not exist fails before anything is changed: the world is as it
    was, no event is added to the trace. The error is an internal server
    error (status 500), not a bad request; when not even the stack exists
    it is "not found" (status 404). *)
Theorem unknown_group_fails_before_mutation (h : Handler) (o : RangeOrder)
    (stackID : EdgeStackID) (payload : updateEdgeStackPayload.t) (w : World)
    (groups : list EdgeGroupID) (gid : EdgeGroupID) :
  updateEdgeStackPayload.EdgeGroups payload = Some groups →
  gid ∈ groups →
  (∀ g, g ∈ edgeGroupBucket (tx w) → EdgeGroup.ID g ≠ gid) →
  let r := updateEdgeStack h o stackID payload w in
  r.2 = w
  ∧ ∃ e, r.1 = inl e
         ∧ StatusCode e = match stacksOf w !! stackID with
                          | Some _ => StatusInternalServerError
                          | None => StatusNotFound
                          end.
Proof.
  intros Hgroups Hin Hnone. cbv zeta.
  assert (EdgeStackRelatedEndpoints groups (endpointBucket (tx w))
            (edgeGroupBucket (tx w))
          = inl (errorString "Edge group was not found")) as Hnew.
  { eapply relatedEndpoints_unknown; [done|]. by apply find_group_None. }
  unfold updateEdgeStack, stacksOf.
  destruct (edgeStackBucket (tx w) !! stackID) as [s|] eqn:Hs.
  - erewrite bind_inr; cycle 1.
    { unfold onErr, tx_EdgeStack.EdgeStack. by rewrite Hs. }
    destruct (StoreFaults.FetchEndpointRelationsConfig (storeFaults (tx w)))
      as [err|] eqn:Hcfg.
    { erewrite bind_inl; cycle 1.
      { unfold onErr, FetchEndpointRelationsConfig. by rewrite Hcfg. }
      split; [done|]. by eexists. }
    erewrite bind_inr; cycle 1.
    { unfold onErr, FetchEndpointRelationsConfig. by rewrite Hcfg. }
    cbn [config_Endpoints config_EdgeGroups].
    destruct (EdgeStackRelatedEndpoints (EdgeStack.EdgeGroups s) _ _)
      as [err|old] eqn:Hold.
    + erewrite bind_inl; [|done].
      split; [done|]. by eexists.
    + erewrite bind_inr; [|done].
      rewrite Hgroups. erewrite bind_inl; cycle 1.
      { erewrite bind_inl; [done|]. unfold onErr, lift. by rewrite Hnew. }
      split; [done|]. by eexists.
  - erewrite bind_inl; cycle 1.
    { unfold onErr, tx_EdgeStack.EdgeStack. by rewrite Hs. }
    split; [done|]. by eexists.
Qed.

Lemma unknown_group_fails_before_mutation_witness :
  let r := updateEdgeStack exHandler exOrder 1 exPayloadUnknownGroup exWorld in
  r.2 = exWorld ∧ ∃ e, r.1 = inl e ∧ StatusCode e = StatusInternalServerError.
Proof.
  apply (unknown_group_fails_before_mutation exHandler exOrder 1 exPayloadUnknownGroup
           exWorld [9999] 9999 eq_refl).
  - by left.
  - intros g Hg. repeat (apply elem_of_cons in Hg as [->|Hg]; [done|]).
    by apply elem_of_nil in Hg.
Defined.

(** C7, as the specification states it, does not hold: the update of the
    test "Update with non-existing EdgeGroupID" is answered with status
    500. *)
Lemma unknown_group_is_not_bad_request : ¬ unknown_group_is_bad_request.
Proof.
  intros Hspec.
  destruct (Hspec exHandler exOrder 1 exPayloadUnknownGroup exWorld [9999] 9999 eq_refl)
    as (_ & e & He & Hcode).
  - by left.
  - intros g Hg. repeat (apply elem_of_cons in Hg as [->|Hg]; [done|]).
    by apply elem_of_nil in Hg.
  - vm_compute in He. injection He as <-. by vm_compute in Hcode.
Qed.

(** ** The guard *)

Lemma disk_reconcileRelations o stackID old new w :
  disk (reconcileRelations o stackID old new w).2 = disk w.
Proof. by rewrite reconcileRelations_run. Qed.

Lemma disk_RemoveDirectory h path w1 w2 :
  disk w1 = disk w2 →
  disk (FileService.RemoveDirectory h path w1).2
  = disk (FileService.RemoveDirectory h path w2).2.
Proof.
  intros Hd. unfold FileService.RemoveDirectory.
  destruct (FileService_removeFails h path); cbn; by rewrite Hd.
Qed.

(** Lines 177 to 183, with an environment of the wrong type among the
    targets: the guard rejects with a bad request, whatever would follow. *)
Lemma guard_rejects {B} (payload : updateEdgeStackPayload.t)
    (related : list EndpointID) (w : World) (k : ST HandlerError B)
    (id : EndpointID) (endpoint : Endpoint.t)
    (Q : (HandlerError + B) * World → Prop) :
  id ∈ related →
  tx_Endpoint.Endpoint id (endpointBucket (tx w)) = inr endpoint →
  compatibleType (updateEdgeStackPayload.DeploymentType payload) endpoint = false →
  (∀ e, StatusCode e = StatusBadRequest → Q (inl e, w)) →
  Q ((hasWrongType ←
        onErr (λ _, BadRequest "unable to check for existence of non fitting environments: %w")
          (hasWrongEnvironmentType related
             (updateEdgeStackPayload.DeploymentType payload));
      if (hasWrongType : bool)
      then fail (BadRequest "edge stack with config do not match the environment type")
      else k) w).
Proof.
  intros Hid Hendpoint Hwrong HQ.
  assert (hasEndpointPredicate (endpointBucket (tx w)) related
            (λ e, negb (compatibleType (updateEdgeStackPayload.DeploymentType payload) e))
          ≠ inr false) as Hguard.
  { eapply hasEndpointPredicate_found; [done..|]. by rewrite Hwrong. }
  unfold hasWrongEnvironmentType in *.
  destruct (hasEndpointPredicate (endpointBucket (tx w)) related _)
    as [err|[]] eqn:Hhas; [| |done].
  - erewrite bind_inl; cycle 1.
    { unfold onErr. by rewrite Hhas. }
    by apply HQ.
  - erewrite bind_inr; cycle 1.
    { unfold onErr. by rewrite Hhas. }
    by apply HQ.
Qed.

(** Lines 163 to 183 then: the old files are removed if the deployment
    type changes, and the guard rejects. *)
Lemma transition_then_guard_rejects {B} (h : Handler)
    (payload : updateEdgeStackPayload.t) (stack : EdgeStack.t)
    (related : list EndpointID) (w : World) (k : EdgeStack.t → ST HandlerError B)
    (id : EndpointID) (endpoint : Endpoint.t)
    (Q : (HandlerError + B) * World → Prop) :
  id ∈ related →
  tx_Endpoint.Endpoint id (endpointBucket (tx w)) = inr endpoint →
  compatibleType (updateEdgeStackPayload.DeploymentType payload) endpoint = false →
  (∀ e, StatusCode e = StatusBadRequest →
        Q (inl e,
           if decide (EdgeStack.DeploymentType stack
                      ≠ updateEdgeStackPayload.DeploymentType payload)
           then (FileService.RemoveDirectory h (EdgeStack.ProjectPath stack) w).2
           else w)) →
  Q ((stack ←
        (if decide (EdgeStack.DeploymentType stack
                    ≠ updateEdgeStackPayload.DeploymentType payload)
         then
           logWarn (FileService.RemoveDirectory h (EdgeStack.ProjectPath stack));;
           mret (EdgeStack.setDeploymentType (updateEdgeStackPayload.DeploymentType payload)
                   (EdgeStack.setManifestPath "" (EdgeStack.setEntryPoint "" stack)))
         else mret stack);
      hasWrongType ←
        onErr (λ _, BadRequest "unable to check for existence of non fitting environments: %w")
          (hasWrongEnvironmentType related
             (updateEdgeStackPayload.DeploymentType payload));
      if (hasWrongType : bool)
      then fail (BadRequest "edge stack with config do not match the environment type")
      else k stack) w).
Proof.
  intros Hid Hendpoint Hwrong HQ.
  destruct (decide (EdgeStack.DeploymentType stack
                    ≠ updateEdgeStackPayload.DeploymentType payload)).
  - erewrite bind_inr; [|reflexivity].
    apply (guard_rejects payload related _ _ id endpoint); [done| |done..].
    by destruct (fileFramed_RemoveDirectory h (EdgeStack.ProjectPath stack) w) as [-> _].
  - erewrite bind_inr; [|reflexivity].
    by apply (guard_rejects payload related _ _ id endpoint).
Qed.

Lemma RemoveDirectory_frame h path w :
  tx (FileService.RemoveDirectory h path w).2 = tx w
  ∧ stackWrites (trace (FileService.RemoveDirectory h path w).2) = stackWrites (trace w).
Proof.
  destruct (fileFramed_RemoveDirectory h path w) as (Htx & evs & Ht & Hevs).
  split; [done|]. by rewrite Ht, stackWrites_app, stackWrites_file.
Qed.

(** A run of the update that gets to the guard with an environment that
    cannot run the deployment type of the payload among its targets. *)
Lemma guard_rejects_run (h : Handler) (o : RangeOrder)
    (stackID : EdgeStackID) (payload : updateEdgeStackPayload.t) (w : World)
    (s : EdgeStack.t) (old related : list EndpointID) (id : EndpointID)
    (endpoint : Endpoint.t) :
  stacksOf w !! stackID = Some s →
  StoreFaults.FetchEndpointRelationsConfig (storeFaults (tx w)) = None →
  EdgeStackRelatedEndpoints (EdgeStack.EdgeGroups s)
    (endpointBucket (tx w)) (edgeGroupBucket (tx w)) = inr old →
  EdgeStackRelatedEndpoints (targetGroups payload s)
    (endpointBucket (tx w)) (edgeGroupBucket (tx w)) = inr related →
  id ∈ related →
  tx_Endpoint.Endpoint id (endpointBucket (tx w)) = inr endpoint →
  compatibleType (updateEdgeStackPayload.DeploymentType payload) endpoint = false →
  let r := updateEdgeStack h o stackID payload w in
  ∃ e, r.1 = inl e
       ∧ stacksOf r.2 = stacksOf w
       ∧ stackWrites (trace r.2) = stackWrites (trace w)
       ∧ relationsOf r.2 = relationsOf (reconciledWorld o payload s old related w)
       ∧ match reconciliationResult o payload s old related w with
         | inr _ =>
             StatusCode e = StatusBadRequest
             ∧ disk r.2 = diskAfterTransition h payload s w
         | inl e0 => e = e0 ∧ disk r.2 = disk w
         end.
Proof.
  intros Hs Hcfg Hold Hnew Hid Hendpoint Hwrong. cbv zeta.
  unfold updateEdgeStack, stacksOf in *.
  erewrite bind_inr; cycle 1.
  { unfold onErr, tx_EdgeStack.EdgeStack. by rewrite Hs. }
  erewrite bind_inr; cycle 1.
  { unfold onErr, FetchEndpointRelationsConfig. by rewrite Hcfg. }
  cbn [config_Endpoints config_EdgeGroups].
  erewrite bind_inr; cycle 1.
  { unfold onErr, lift. by rewrite Hold. }
  unfold reconciliationResult, reconciledWorld, targetGroups in *.
  assert (endpointBucket (tx (reconciledWorld o payload s old related w))
          = endpointBucket (tx w)) as Heps.
  { unfold reconciledWorld.
    destruct (updateEdgeStackPayload.EdgeGroups payload); [|done].
    by destruct (framed_reconcileRelations o (EdgeStack.ID s) old related w)
      as (_ & -> & _). }
  unfold reconciliationResult, reconciledWorld, targetGroups, diskAfterTransition in *.
  destruct (updateEdgeStackPayload.EdgeGroups payload) as [groups|] eqn:Hgroups.
  - pose proof (framed_reconcileRelations o (EdgeStack.ID s) old related w)
      as (Hst & _ & _ & evs & Ht & Hevs).
    pose proof (disk_reconcileRelations o (EdgeStack.ID s) old related w) as Hdisk.
    destruct (reconcileRelations o (EdgeStack.ID s) old related w)
      as [[e0|[]] w4] eqn:Hrec; cbn [fst snd] in *.
    + erewrite bind_inl; cycle 1.
      { erewrite bind_inr; [|unfold onErr, lift; by rewrite Hnew].
        by erewrite bind_inl. }
      exists e0. cbn [fst snd]. split_and!; try done.
      by rewrite Ht, stackWrites_app, Hevs.
    + erewrite bind_inr; cycle 1.
      { erewrite bind_inr; [|unfold onErr, lift; by rewrite Hnew].
        by erewrite bind_inr. }
      cbv beta iota.
      match goal with |- ∃ e, fst ?t = inl e ∧ _ => pattern t end.
      apply (transition_then_guard_rejects h payload (EdgeStack.setEdgeGroups groups s)
               related w4 _ id endpoint); [done|by rewrite Heps|done|].
      intros e Hcode. exists e. cbn [fst snd EdgeStack.setEdgeGroups
        EdgeStack.DeploymentType EdgeStack.ProjectPath].
      split; [done|].
      destruct (decide (EdgeStack.DeploymentType s
                        ≠ updateEdgeStackPayload.DeploymentType payload)).
      * destruct (RemoveDirectory_frame h (EdgeStack.ProjectPath s) w4) as [Htx Hsw].
        unfold stacksOf, relationsOf in *. rewrite Htx, Hsw, Hst, Ht.
        rewrite stackWrites_app, Hevs. split_and!; try done.
        by apply disk_RemoveDirectory.
      * unfold stacksOf in *. rewrite Hst, Ht, stackWrites_app, Hevs. by split_and!.
  - assert (related = old) as -> by congruence.
    erewrite bind_inr; [|done]. cbv beta iota.
    match goal with |- ∃ e, fst ?t = inl e ∧ _ => pattern t end.
    apply (transition_then_guard_rejects h payload s old w _ id endpoint); [done..|].
    intros e Hcode. exists e. cbn [fst snd]. split; [done|].
    destruct (decide (EdgeStack.DeploymentType s
                      ≠ updateEdgeStackPayload.DeploymentType payload)).
    + destruct (RemoveDirectory_frame h (EdgeStack.ProjectPath s) w) as [Htx Hsw].
      unfold stacksOf, relationsOf in *. by rewrite Htx, Hsw.
    + done.
Qed.

Lemma disk_RemoveDirectory_sub h path w file data :
  disk (FileService.RemoveDirectory h path w).2 !! file = Some data →
  disk w !! file = Some data.
Proof.
  unfold FileService.RemoveDirectory.
  destruct (FileService_removeFails h path); [done|]. cbn.
  by intros [? _]%map_lookup_filter_Some.
Qed.

(** C1, as the code has it. When the target set that the update resolves
    contains an environment that cannot run the deployment type of the
    payload, the update fails, writes no stack record and writes no file:
    a file that is on disk afterwards was there before, with the same
    content. But the guard runs after the reconciliation, not before: the
    relations are as the reconciliation left them. When the reconciliation
    got to its end the error is a bad request; when the reconciliation
    failed the error is its internal server error, and the files are as they
    were. The targets are resolved from the environments and the groups that
    the store lists. *)
Theorem guard_rejects_after_reconciliation (h : Handler) (o : RangeOrder)
    (stackID : EdgeStackID) (payload : updateEdgeStackPayload.t) (w : World)
    (s : EdgeStack.t) (old related : list EndpointID) (id : EndpointID)
    (endpoint : Endpoint.t) :
  stacksOf w !! stackID = Some s →
  FetchEndpointRelationsConfig w
  = (inr (mkEndpointRelationsConfig (endpointBucket (tx w)) (edgeGroupBucket (tx w))), w) →
  EdgeStackRelatedEndpoints (EdgeStack.EdgeGroups s)
    (endpointBucket (tx w)) (edgeGroupBucket (tx w)) = inr old →
  EdgeStackRelatedEndpoints (targetGroups payload s)
    (endpointBucket (tx w)) (edgeGroupBucket (tx w)) = inr related →
  id ∈ related →
  tx_Endpoint.Endpoint id (endpointBucket (tx w)) = inr endpoint →
  compatibleType (updateEdgeStackPayload.DeploymentType payload) endpoint = false →
  let r := updateEdgeStack h o stackID payload w in
  ∃ e, r.1 = inl e
       ∧ stacksOf r.2 = stacksOf w
       ∧ stackWrites (trace r.2) = stackWrites (trace w)
       ∧ (∀ file data, disk r.2 !! file = Some data → disk w !! file = Some data)
       ∧ relationsOf r.2 = relationsOf (reconciledWorld o payload s old related w)
       ∧ match reconciliationResult o payload s old related w with
         | inr _ => StatusCode e = StatusBadRequest
         | inl e0 =>
             e = e0 ∧ StatusCode e = StatusInternalServerError ∧ disk r.2 = disk w
         end.
Proof.
  intros Hs Hcfg Hold Hnew Hid Hendpoint Hwrong. cbv zeta.
  assert (StoreFaults.FetchEndpointRelationsConfig (storeFaults (tx w)) = None) as Hfetch.
  { unfold FetchEndpointRelationsConfig in Hcfg.
    by destruct (StoreFaults.FetchEndpointRelationsConfig _). }
  destruct (guard_rejects_run h o stackID payload w s old related id endpoint
              Hs Hfetch Hold Hnew Hid Hendpoint Hwrong)
    as (e & Hrun & Hst & Hsw & Hrel & Hres).
  exists e. split_and!; try done.
  - intros file data.
    destruct (reconciliationResult o payload s old related w) as [e0|[]].
    + destruct Hres as [_ ->]. done.
    + destruct Hres as [_ ->]. unfold diskAfterTransition.
      destruct (decide _); [|done]. apply disk_RemoveDirectory_sub.
  - unfold reconciliationResult in *.
    destruct (updateEdgeStackPayload.EdgeGroups payload) as [groups|]; [|tauto].
    destruct (reconcileRelations o (EdgeStack.ID s) old related w) as [[e0|[]] w4] eqn:Hrec;
      cbn [fst] in *; [|tauto].
    destruct Hres as [-> Hdisk]. split_and!; try done.
    by destruct (reconcileRelations_error _ _ _ _ _ _ _ Hrec) as [-> | ->].
Qed.

Lemma guard_rejects_after_reconciliation_witness :
  let r := updateEdgeStack exHandler exOrder 1 exPayloadWrongType exWorld in
  ∃ e, r.1 = inl e
       ∧ StatusCode e = StatusBadRequest
       ∧ stacksOf r.2 = stacksOf exWorld
       ∧ relationsOf r.2
         = relationsOf (reconciledWorld exOrder exPayloadWrongType exStack [1] [1; 2] exWorld).
Proof.
  destruct (guard_rejects_after_reconciliation exHandler exOrder 1 exPayloadWrongType
              exWorld exStack [1] [1; 2] 1
              (Endpoint.mk 1 EdgeAgentOnDockerEnvironment [] ∅ ∅))
    as (e & Hrun & Hst & _ & _ & Hrel & Hres).
  - reflexivity.
  - reflexivity.
  - reflexivity.
  - reflexivity.
  - by left.
  - reflexivity.
  - reflexivity.
  - exists e. split_and!; [exact Hrun|exact Hres|exact Hst|exact Hrel].
Defined.

(** C1, as the specification states it, does not hold: the stack 1
    targets the environment 1, a container runtime; the update to the
    groups 1 and 2 as a manifest stack is rejected, but by then the
    reconciliation has written the relation record of the environment 2,
    which has the stack. *)
Lemma guard_does_not_run_before_mutation : ¬ guard_runs_before_mutation.
Proof.
  intros Hspec.
  destruct (Hspec exHandler exOrder 1 exPayloadWrongType exWorld exStack [1] [1; 2] 1
              (Endpoint.mk 1 EdgeAgentOnDockerEnvironment [] ∅ ∅)
              eq_refl eq_refl eq_refl ltac:(by left) eq_refl eq_refl)
    as (_ & _ & Hrel & _).
  apply (f_equal (λ relations, membershipFlag relations 2 1)) in Hrel.
  by vm_compute in Hrel.
Qed.

(** The rejected update of the concrete installation: the answer is a
    bad request, the stack record is as it was, and the relation record of
    the environment 2 has the stack. *)
Example guard_rejects_after_relations_written :
  let r := updateEdgeStack exHandler exOrder 1 exPayloadWrongType exWorld in
  (StatusCode <$> (match r.1 with inl e => Some e | inr _ => None end)) = Some 400
  ∧ membershipFlag (relationsOf exWorld) 2 1 = None
  ∧ membershipFlag (relationsOf r.2) 2 1 = Some true
  ∧ stacksOf r.2 = stacksOf exWorld.
Proof. by vm_compute. Qed.

(** ** The handler *)

(** A payload without content, or without groups, is a bad request, and
    nothing is done. *)
Lemma edgeStackUpdate_invalid_payload h noTx o stackID payload w :
  updateEdgeStackPayload.StackFileContent payload = ""
  ∨ updateEdgeStackPayload.lenEdgeGroups payload = 0%nat →
  edgeStackUpdate h noTx o (Some stackID) (Some payload) w
  = (inl (BadRequest "Invalid request payload"), w).
Proof.
  intros Hinvalid. unfold edgeStackUpdate, updateEdgeStackPayload.Validate.
  destruct (decide (updateEdgeStackPayload.StackFileContent payload = "")); [done|].
  destruct (decide (updateEdgeStackPayload.lenEdgeGroups payload = 0%nat)); [done|].
  by destruct Hinvalid.
Qed.

(** The tests of the handler, on the concrete installation. *)
Example TestUpdateAndInspect :
  ∃ data,
    (edgeStackUpdate exHandler false exOrder (Some 1) (Some exPayloadUpdateAndInspect)
       exWorld).1 = inr data
    ∧ EdgeStack.Version data = 238
    ∧ EdgeStack.DeploymentType data = EdgeStackDeploymentCompose
    ∧ EdgeStack.EdgeGroups data = [1; 2].
Proof. eexists. by vm_compute. Qed.

Example TestUpdateWithInvalidEdgeGroups :
  let answer payload :=
    statusOf (edgeStackUpdate exHandler false exOrder (Some 1) (Some payload) exWorld).1 in
  answer exPayloadUnknownGroup = StatusInternalServerError
  ∧ answer exPayloadUnknownEndpoint = StatusInternalServerError
  ∧ answer exPayloadDockerToKubernetes = StatusBadRequest.
Proof. by vm_compute. Qed.

Example TestUpdateWithInvalidPayload :
  let answer payload :=
    statusOf (edgeStackUpdate exHandler false exOrder (Some 1) (Some payload) exWorld).1 in
  answer (updateEdgeStackPayload.mk "" (Some 238) (Some [1])
            EdgeStackDeploymentCompose false) = StatusBadRequest
  ∧ answer (updateEdgeStackPayload.mk "error-test" (Some 238) (Some [])
              EdgeStackDeploymentCompose false) = StatusBadRequest.
Proof. by vm_compute. Qed.

(** * The migration of the DockerHub settings *)

Lemma sameMigratedEntry_isMigratedEntry id username password accesses r :
  sameMigratedEntry
    (Registry.mk id DockerHubRegistry "Dockerhub (authenticated - migrated)" "docker.io"
       true username password accesses) r
  = isMigratedEntry r.
Proof. done. Qed.

Local Abbreviation entries l := (filter (λ r, isMigratedEntry r = true) l).

(** The identifiers that the loop deletes, by the first registry. *)
Lemma deletedIDs_cons fails seen r l :
  deletedIDs fails seen (r :: l)
  = if isMigratedEntry r
    then
      if seen
      then
        match fails (Registry.ID r) with
        | Some _ => deletedIDs fails true l
        | None => Registry.ID r :: deletedIDs fails true l
        end
      else deletedIDs fails true l
    else deletedIDs fails seen l.
Proof.
  unfold deletedIDs. destruct (isMigratedEntry r) eqn:Hr.
  - rewrite (filter_cons_True (λ r, isMigratedEntry r = true)) by done.
    destruct seen; cbn [drop]; [|done].
    rewrite fmap_cons. destruct (fails (Registry.ID r)) eqn:Hf.
    + by rewrite filter_cons_False by (by rewrite Hf).
    + by rewrite filter_cons_True by done.
  - by rewrite (filter_cons_False (λ r, isMigratedEntry r = true)) by (by rewrite Hr).
Qed.

Lemma elem_of_deletedIDs fails seen l id :
  id ∈ deletedIDs fails seen l → id ∈ Registry.ID <$> l.
Proof.
  unfold deletedIDs. intros [_ Hid]%list_elem_of_filter.
  apply list_elem_of_fmap in Hid as (r & -> & Hr). apply list_elem_of_fmap_2.
  apply subseteq_drop in Hr. by apply list_elem_of_filter in Hr as [_ ?].
Qed.

Section dedupLoop.
Variable registry : Registry.t.
Hypothesis registry_migrated : ∀ r, sameMigratedEntry registry r = isMigratedEntry r.

Lemma dedupLoop_spec registries migrated m :
  let r := dedupLoop registry registries migrated m in
  r.1 = migrated || existsb isMigratedEntry registries
  ∧ registryBucket r.2
    = filter (λ r, Registry.ID r
                   ∉ deletedIDs (MigratorFaults.DeleteRegistry (migratorFaults m))
                       migrated registries)
        (registryBucket m)
  ∧ dockerhubBucket r.2 = dockerhubBucket m
  ∧ registrySequence r.2 = registrySequence m
  ∧ migratorEndpoints r.2 = migratorEndpoints m
  ∧ migratorFaults r.2 = migratorFaults m.
Proof.
  cbv zeta. revert migrated m.
  induction registries as [|r rest IH]; intros migrated m; cbn [dedupLoop].
  - split_and!; try done.
    + by rewrite orb_false_r.
    + symmetry. apply filter_all. intros x _. unfold deletedIDs.
      rewrite filter_nil, drop_nil. apply not_elem_of_nil.
  - rewrite registry_migrated, deletedIDs_cons. cbn [existsb].
    destruct (isMigratedEntry r) eqn:Hr.
    + destruct migrated; cbn [negb orb].
      * unfold registryService.DeleteRegistry.
        destruct (MigratorFaults.DeleteRegistry (migratorFaults m) (Registry.ID r));
          [apply IH|].
        match goal with
        | |- context [dedupLoop registry rest true ?m'] =>
            destruct (IH true m') as (-> & -> & -> & -> & -> & ->)
        end.
        split_and!; try done.
        cbn [registryBucket migratorFaults].
        rewrite list_filter_filter. apply list_filter_iff. intros x.
        rewrite not_elem_of_cons. tauto.
      * apply IH.
    + rewrite orb_false_l. apply IH.
Qed.
End dedupLoop.

Lemma filter_ext_elem {A} (P Q : A → Prop) `{∀ x, Decision (P x)} `{∀ x, Decision (Q x)}
    (l : list A) :
  (∀ x, x ∈ l → P x ↔ Q x) → filter P l = filter Q l.
Proof.
  induction l as [|x l IH]; intros HPQ; [done|].
  rewrite !filter_cons.
  rewrite IH by (intros y Hy; apply HPQ; by right).
  assert (P x ↔ Q x) as Hx by (apply HPQ; left).
  destruct (decide (P x)) as [HP|HP], (decide (Q x)) as [HQ|HQ]; try done; tauto.
Qed.

Section keepFirst.
Variable fails : RegistryID → option error.
Implicit Types (l : list Registry.t) (seen : bool).

(** With identifiers that are keys, to delete the later entries by their
    identifier is to drop them from the list. *)
Lemma filter_deleted_keepFirstBut seen l :
  NoDup (Registry.ID <$> l) →
  filter (λ r, Registry.ID r ∉ deletedIDs fails seen l) l = keepFirstBut fails seen l.
Proof.
  revert seen. induction l as [|r l IH]; intros seen Hnd; [done|].
  rewrite fmap_cons in Hnd. apply NoDup_cons in Hnd as [Hr Hnd].
  assert (∀ seen', Registry.ID r ∉ deletedIDs fails seen' l) as Hfresh.
  { intros seen' Hin. by apply Hr, (elem_of_deletedIDs fails seen'). }
  rewrite deletedIDs_cons. cbn [keepFirstBut].
  destruct (isMigratedEntry r) eqn:Hm; [destruct seen|].
  - destruct (fails (Registry.ID r)) eqn:Hf.
    + rewrite filter_cons_True by apply Hfresh. by rewrite (IH true Hnd).
    + rewrite filter_cons_False by (intros Hn; apply Hn; left).
      rewrite <-(IH true Hnd). apply filter_ext_elem. intros x Hx.
      rewrite not_elem_of_cons. split; [tauto|].
      intros Hx'. split; [|done]. intros Heq. apply Hr. rewrite <-Heq.
      by apply list_elem_of_fmap_2.
  - rewrite filter_cons_True by apply Hfresh. by rewrite (IH true Hnd).
  - rewrite filter_cons_True by apply Hfresh. by rewrite (IH seen Hnd).
Qed.

(** When no deletion fails, every later entry goes. *)
Lemma keepFirstBut_keepFirst seen l :
  (∀ r, r ∈ l → isMigratedEntry r = true → fails (Registry.ID r) = None) →
  keepFirstBut fails seen l = keepFirst seen l.
Proof.
  revert seen. induction l as [|r l IH]; intros seen Hl; [done|].
  cbn [keepFirstBut keepFirst].
  assert (∀ seen', keepFirstBut fails seen' l = keepFirst seen' l) as IH'.
  { intros seen'. apply IH. intros r' Hr'. apply Hl. by right. }
  destruct (isMigratedEntry r) eqn:Hm; [|by rewrite IH'].
  rewrite (Hl r) by (done || left). by rewrite IH'.
Qed.

(** After the loop, no deletion that the loop would try again goes
    through. *)
Lemma deletedIDs_keepFirstBut seen l :
  deletedIDs fails seen (keepFirstBut fails seen l) = [].
Proof.
  revert seen. induction l as [|r l IH]; intros seen; [by destruct seen|].
  cbn [keepFirstBut].
  destruct (isMigratedEntry r) eqn:Hm; [destruct seen|].
  - destruct (fails (Registry.ID r)) eqn:Hf; [|apply IH].
    rewrite deletedIDs_cons, Hm, Hf. apply IH.
  - rewrite deletedIDs_cons, Hm. apply IH.
  - rewrite deletedIDs_cons, Hm. apply IH.
Qed.

Lemma existsb_keepFirstBut l :
  existsb isMigratedEntry (keepFirstBut fails false l) = existsb isMigratedEntry l.
Proof.
  induction l as [|r l IH]; [done|]. cbn [keepFirstBut existsb].
  destruct (isMigratedEntry r) eqn:Hm; cbn [existsb]; by rewrite ?Hm, ?IH.
Qed.

Lemma entries_keepFirst seen l :
  entries (keepFirst seen l) = if seen then [] else take 1 (entries l).
Proof.
  revert seen. induction l as [|r l IH]; intros seen; cbn [keepFirst].
  - by destruct seen.
  - destruct (isMigratedEntry r) eqn:Hm.
    + rewrite (filter_cons_True _ r l) by done. destruct seen.
      * apply IH.
      * rewrite filter_cons_True by done. by rewrite IH.
    + rewrite !filter_cons_False by (by rewrite Hm). apply IH.
Qed.

Lemma others_keepFirst seen l :
  filter (λ r, isMigratedEntry r ≠ true) (keepFirst seen l)
  = filter (λ r, isMigratedEntry r ≠ true) l.
Proof.
  revert seen. induction l as [|r l IH]; intros seen; cbn [keepFirst]; [done|].
  destruct (isMigratedEntry r) eqn:Hm.
  - rewrite (filter_cons_False _ r l) by (rewrite Hm; tauto). destruct seen.
    + apply IH.
    + rewrite filter_cons_False by (rewrite Hm; tauto). apply IH.
  - rewrite !filter_cons_True by (by rewrite Hm). by rewrite IH.
Qed.

Lemma existsb_entries l :
  existsb isMigratedEntry l = true ↔ entries l ≠ [].
Proof.
  induction l as [|r l IH]; cbn [existsb]; [done|].
  destruct (isMigratedEntry r) eqn:Hm.
  - by rewrite filter_cons_True.
  - by rewrite filter_cons_False, orb_false_l by (by rewrite Hm).
Qed.

Lemma entries_nil l : existsb isMigratedEntry l = false → entries l = [].
Proof.
  intros Hex. destruct (entries l) eqn:Hl; [done|].
  assert (existsb isMigratedEntry l = true) by (apply existsb_entries; by rewrite Hl).
  congruence.
Qed.
End keepFirst.

Lemma Migrator_eq m m' :
  dockerhubBucket m = dockerhubBucket m' →
  registryBucket m = registryBucket m' →
  registrySequence m = registrySequence m' →
  migratorEndpoints m = migratorEndpoints m' →
  migratorFaults m = migratorFaults m' →
  m = m'.
Proof. destruct m, m'. cbn. by intros -> -> -> -> ->. Qed.

(** A run that gets to the loop, with authenticated DockerHub settings
    and the registries listed. *)
Lemma updateDockerhubToDB32_run m dockerhub :
  NoDup (Registry.ID <$> registryBucket m) →
  dockerhubService.DockerHub m = inr dockerhub →
  DockerHub.Authentication dockerhub = true →
  MigratorFaults.Registries (migratorFaults m) = None →
  let r := updateDockerhubToDB32 m in
  dockerhubBucket r.2 = dockerhubBucket m
  ∧ migratorEndpoints r.2 = migratorEndpoints m
  ∧ migratorFaults r.2 = migratorFaults m
  ∧ if existsb isMigratedEntry (registryBucket m)
    then r.1 = None
         ∧ registryBucket r.2
           = keepFirstBut (MigratorFaults.DeleteRegistry (migratorFaults m)) false
               (registryBucket m)
         ∧ registrySequence r.2 = registrySequence m
    else (is_Some r.1 ∧ r.2 = m)
         ∨ (r.1 = None
            ∧ ∃ created,
                registryBucket r.2 = registryBucket m ++ [created]
                ∧ isMigratedEntry created = true
                ∧ registrySequence r.2 = registrySequence m + 1).
Proof.
  intros Hnd Hd Hauth Hlist. cbv zeta.
  unfold updateDockerhubToDB32. rewrite Hd, Hauth.
  unfold registryService.Registries. rewrite Hlist. cbn [negb]. cbv zeta.
  match goal with
  | |- context [dedupLoop ?registry ?l false m] =>
      pose proof (dedupLoop_spec registry
                    (sameMigratedEntry_isMigratedEntry _ _ _ _) l false m) as Hloop;
      destruct (dedupLoop registry l false m) as [migrated m'] eqn:Hrun
  end.
  cbv zeta in Hloop. cbn [fst snd orb] in Hloop.
  destruct Hloop as (-> & Hb & Hdh & Hseq & Heps & Hfaults).
  rewrite (filter_deleted_keepFirstBut _ false _ Hnd) in Hb.
  destruct (existsb isMigratedEntry (registryBucket m)) eqn:Hex.
  - cbn [fst snd]. by split_and!.
  - assert (m' = m) as ->.
    { apply Migrator_eq; try done. rewrite Hb. clear -Hex.
      induction (registryBucket m) as [|r l IH]; [done|].
      cbn [existsb] in Hex. apply orb_false_iff in Hex as [Hr Hl].
      cbn [keepFirstBut]. by rewrite Hr, IH. }
    unfold endpointService.Endpoints.
    destruct (MigratorFaults.Endpoints (migratorFaults m)) as [err|];
      [cbn [fst snd]; split_and!; try done; left; by split|].
    unfold registryService.Create.
    destruct (MigratorFaults.Create (migratorFaults m)) as [err|];
      [cbn [fst snd]; split_and!; try done; left; by split|].
    cbn [fst snd registryBucket registrySequence dockerhubBucket migratorEndpoints
           migratorFaults].
    split_and!; try done. right. split; [done|]. by eexists.
Qed.

(** A run that gets to the loop, finds an entry and has no deletion that
    goes through changes nothing. *)
Lemma updateDockerhubToDB32_settled m dockerhub :
  dockerhubService.DockerHub m = inr dockerhub →
  DockerHub.Authentication dockerhub = true →
  MigratorFaults.Registries (migratorFaults m) = None →
  existsb isMigratedEntry (registryBucket m) = true →
  deletedIDs (MigratorFaults.DeleteRegistry (migratorFaults m)) false (registryBucket m)
  = [] →
  updateDockerhubToDB32 m = (None, m).
Proof.
  intros Hd Hauth Hlist Hex Hdel.
  unfold updateDockerhubToDB32. rewrite Hd, Hauth.
  unfold registryService.Registries. rewrite Hlist. cbn [negb]. cbv zeta.
  match goal with
  | |- context [dedupLoop ?registry ?l false m] =>
      pose proof (dedupLoop_spec registry
                    (sameMigratedEntry_isMigratedEntry _ _ _ _) l false m) as Hloop;
      destruct (dedupLoop registry l false m) as [migrated m'] eqn:Hrun
  end.
  cbv zeta in Hloop. cbn [fst snd orb] in Hloop.
  destruct Hloop as (-> & Hb & Hdh & Hseq & Heps & Hfaults).
  rewrite Hex. f_equal. apply Migrator_eq; try done.
  rewrite Hb, Hdel. apply filter_all. intros r _. apply not_elem_of_nil.
Qed.

(** The settings that a run reads are those of the bucket. *)
Lemma DockerHub_inr m dockerhub :
  dockerhubService.DockerHub m = inr dockerhub →
  MigratorFaults.DockerHub (migratorFaults m) = None
  ∧ dockerhubBucket m = Some dockerhub.
Proof.
  unfold dockerhubService.DockerHub.
  destruct (MigratorFaults.DockerHub (migratorFaults m)); [done|].
  destruct (dockerhubBucket m); [|done]. by intros [= ->].
Qed.

(** A run that does not get to the loop changes nothing. *)
Lemma updateDockerhubToDB32_early m :
  (∀ dockerhub, dockerhubService.DockerHub m = inr dockerhub →
                DockerHub.Authentication dockerhub = false) →
  (updateDockerhubToDB32 m).2 = m.
Proof.
  intros Hearly. unfold updateDockerhubToDB32.
  destruct (dockerhubService.DockerHub m) as [err|dockerhub].
  - by destruct (IsErrObjectNotFound err).
  - by rewrite (Hearly dockerhub eq_refl).
Qed.

(** C10, as the code has it. When the registries are listed, the
    migration of the DockerHub settings is idempotent: a second run returns
    what the first run returned and leaves the store as the first run left
    it. A run with authenticated DockerHub settings, in which no deletion of
    an entry of the migration fails, leaves at most one entry, and exactly
    one when it returns no error; if there was an entry before, it returns
    no error, creates no registry, keeps the first entry, deletes each later
    one and touches no other registry. The identifiers of the registries are
    the keys of the bucket, hence distinct. *)
Theorem updateDockerhubToDB32_idempotent (m : Migrator) :
  NoDup (Registry.ID <$> registryBucket m) →
  registryService.Registries m = inr (registryBucket m) →
  let r := updateDockerhubToDB32 m in
  updateDockerhubToDB32 r.2 = (r.1, r.2)
  ∧ ∀ dockerhub,
      dockerhubService.DockerHub m = inr dockerhub →
      DockerHub.Authentication dockerhub = true →
      (∀ r0, r0 ∈ registryBucket m → isMigratedEntry r0 = true →
             (registryService.DeleteRegistry (Registry.ID r0) m).1 = None) →
      (length (filter (λ r, isMigratedEntry r = true) (registryBucket r.2)) ≤ 1)%nat
      ∧ (r.1 = None →
         length (filter (λ r, isMigratedEntry r = true) (registryBucket r.2)) = 1%nat)
      ∧ ((∃ r0, r0 ∈ registryBucket m ∧ isMigratedEntry r0 = true) →
         r.1 = None
         ∧ registryBucket r.2 = keepFirst false (registryBucket m)
         ∧ registrySequence r.2 = registrySequence m
         ∧ filter (λ r, isMigratedEntry r = true) (registryBucket r.2)
           = take 1 (filter (λ r, isMigratedEntry r = true) (registryBucket m))
         ∧ filter (λ r, isMigratedEntry r ≠ true) (registryBucket r.2)
           = filter (λ r, isMigratedEntry r ≠ true) (registryBucket m)).
Proof.
  intros Hnd Hlist. cbv zeta.
  assert (MigratorFaults.Registries (migratorFaults m) = None) as Hlist'.
  { unfold registryService.Registries in Hlist.
    by destruct (MigratorFaults.Registries (migratorFaults m)). }
  clear Hlist.
  assert (∀ m0, (updateDockerhubToDB32 m0).2 = m0 →
                updateDockerhubToDB32 (updateDockerhubToDB32 m0).2
                = ((updateDockerhubToDB32 m0).1, (updateDockerhubToDB32 m0).2)) as Hsame.
  { intros m0 Hm0. rewrite Hm0 at 1. by destruct (updateDockerhubToDB32 m0). }
  destruct (dockerhubService.DockerHub m) as [err|dockerhub] eqn:Hd.
  { split; [|done]. apply Hsame, updateDockerhubToDB32_early. by rewrite Hd. }
  destruct (DockerHub.Authentication dockerhub) eqn:Hauth; cycle 1.
  { split.
    - apply Hsame, updateDockerhubToDB32_early. rewrite Hd. by intros ? [= <-].
    - intros ? [= <-]. by rewrite Hauth. }
  pose proof (updateDockerhubToDB32_run m dockerhub Hnd Hd Hauth Hlist')
    as (Hdh & Heps & Hfaults & Hregs).
  cbv zeta in Hdh, Heps, Hfaults, Hregs.
  apply DockerHub_inr in Hd as [Hd0 Hd].
  assert (dockerhubService.DockerHub (updateDockerhubToDB32 m).2 = inr dockerhub) as Hd1.
  { unfold dockerhubService.DockerHub. by rewrite Hfaults, Hdh, Hd0, Hd. }
  split.
  - (* the second run *)
    destruct (existsb isMigratedEntry (registryBucket m)) eqn:Hex.
    + destruct Hregs as (Hnone & Hb & _). rewrite Hnone.
      apply (updateDockerhubToDB32_settled _ dockerhub); [done|done|congruence| |].
      * by rewrite Hb, existsb_keepFirstBut.
      * rewrite Hb, Hfaults. apply deletedIDs_keepFirstBut.
    + destruct Hregs as [[_ Hm]|(Hnone & created & Hb & Hcreated & _)].
      * by apply Hsame.
      * rewrite Hnone.
        apply (updateDockerhubToDB32_settled _ dockerhub); [done|done|congruence| |].
        -- rewrite Hb, existsb_app. cbn [existsb]. by rewrite Hcreated, orb_true_r.
        -- rewrite Hb. unfold deletedIDs.
           rewrite filter_app, (entries_nil _ Hex), filter_cons_True, filter_nil by done.
           done.
  - intros ? [= <-] _ Hdelete.
    assert (∀ r0, r0 ∈ registryBucket m → isMigratedEntry r0 = true →
                  MigratorFaults.DeleteRegistry (migratorFaults m) (Registry.ID r0) = None)
      as Hdelete'.
    { intros r0 Hr0 Hm0. specialize (Hdelete r0 Hr0 Hm0).
      unfold registryService.DeleteRegistry in Hdelete.
      by destruct (MigratorFaults.DeleteRegistry (migratorFaults m) (Registry.ID r0)). }
    clear Hdelete.
    destruct (existsb isMigratedEntry (registryBucket m)) eqn:Hex.
    + destruct Hregs as (Hnone & Hb & Hseq).
      rewrite (keepFirstBut_keepFirst _ _ _ Hdelete') in Hb.
      assert (length (filter (λ r, isMigratedEntry r = true)
                        (registryBucket (updateDockerhubToDB32 m).2)) = 1%nat) as Hone.
      { rewrite Hb, entries_keepFirst. apply existsb_entries in Hex.
        by destruct (filter (λ r, isMigratedEntry r = true) (registryBucket m)). }
      split_and!; [lia|done|]. intros _. split_and!; try done.
      * rewrite Hb. apply (entries_keepFirst false).
      * rewrite Hb. apply others_keepFirst.
    + assert (¬ ∃ r0, r0 ∈ registryBucket m ∧ isMigratedEntry r0 = true) as Hnone.
      { intros (r0 & Hr0 & Hm0).
        assert (existsb isMigratedEntry (registryBucket m) = true); [|congruence].
        apply existsb_exists. exists r0. split; [|done]. by apply list_elem_of_In. }
      destruct Hregs as [[[err Herr] Hm]|(Hok & created & Hb & Hcreated & _)].
      * rewrite Hm, Herr, (entries_nil _ Hex). cbn [length].
        split_and!; [lia|done|done].
      * rewrite Hb, filter_app, (entries_nil _ Hex), filter_cons_True, filter_nil by done.
        cbn [app length]. split_and!; [lia|done|done].
Qed.

Lemma updateDockerhubToDB32_idempotent_witness :
  let r := updateDockerhubToDB32 exMigrator in
  updateDockerhubToDB32 r.2 = (None, r.2)
  ∧ registryBucket r.2 = [exOtherRegistry 1; exMigratedEntry 2; exOtherRegistry 3]
  ∧ registrySequence r.2 = 5.
Proof.
  assert (NoDup (Registry.ID <$> registryBucket exMigrator)) as Hnd.
  { apply (bool_decide_unpack _). by vm_compute. }
  destruct (updateDockerhubToDB32_idempotent exMigrator Hnd eq_refl) as [Hidem Hauth].
  destruct (Hauth _ eq_refl eq_refl) as (_ & _ & Hentry); [done|].
  destruct Hentry as (Hnone & Hb & Hseq & _).
  - exists (exMigratedEntry 2). split; [|done]. right. by left.
  - cbv zeta. split; [by rewrite Hidem, Hnone|]. split; [by rewrite Hb|exact Hseq].
Defined.

(** C10, as it is stated, does not hold: a run that returns early, here
    because the DockerHub settings do not authenticate, leaves the three
    entries of earlier runs where they are. *)
Lemma early_return_keeps_duplicates : ¬ migration_leaves_one_entry.
Proof.
  intros Hspec.
  destruct (Hspec exMigratorUnauthenticated) as [_ Hlen].
  - apply (bool_decide_unpack _). by vm_compute.
  - vm_compute in Hlen. lia.
Qed.

(** Without a migrated entry the run creates one, with the next
    identifier of the sequence; a run that returns early changes nothing;
    and when the registries cannot be listed, whose error the migration
    drops, a run creates an entry though there are entries. *)
Example updateDockerhubToDB32_creates :
  registryBucket
    (updateDockerhubToDB32
       (mkMigrator (Some (DockerHub.mk true "user" "secret")) [exOtherRegistry 1] 1 []
          MigratorFaults.none)).2
  = [exOtherRegistry 1; exMigratedEntry 2].
Proof. by vm_compute. Qed.

Example updateDockerhubToDB32_unauthenticated :
  updateDockerhubToDB32 exMigratorUnauthenticated = (None, exMigratorUnauthenticated).
Proof. reflexivity. Qed.

Example updateDockerhubToDB32_no_listing :
  registryBucket (updateDockerhubToDB32 exMigratorNoListing).2
  = registryBucket exMigrator ++ [exMigratedEntry 6].
Proof. by vm_compute. Qed.

(** * Further properties of the update *)

(** ** What the update touches *)

Lemma sameButStack_refl stackID r : sameButStack stackID r r.
Proof. by split. Qed.

Lemma sameButStack_trans stackID r1 r2 r3 :
  sameButStack stackID r1 r2 → sameButStack stackID r2 r3 → sameButStack stackID r1 r3.
Proof.
  intros [Hid1 Hst1] [Hid2 Hst2]. split; [congruence|].
  intros id Hid. by rewrite Hst2, Hst1.
Qed.

Lemma sameButStack_withoutStack stackID r : sameButStack stackID r (withoutStack stackID r).
Proof.
  split; [done|]. intros id Hid. cbn. by rewrite lookup_delete_ne.
Qed.

Lemma sameButStack_withStack stackID r : sameButStack stackID r (withStack stackID r).
Proof.
  split; [done|]. intros id Hid. cbn. by rewrite lookup_insert_ne.
Qed.

Lemma touchesOnly_refl stackID dirs w : touchesOnly stackID dirs w w.
Proof.
  split_and!; try done. intros id r r' Hr Hr'.
  assert (r' = r) as -> by congruence. apply sameButStack_refl.
Qed.

Lemma touchesOnly_trans stackID dirs w1 w2 w3 :
  touchesOnly stackID dirs w1 w2 → touchesOnly stackID dirs w2 w3 →
  touchesOnly stackID dirs w1 w3.
Proof.
  intros (He1 & Hg1 & Hs1 & Hd1 & Hr1 & Hf1) (He2 & Hg2 & Hs2 & Hd2 & Hr2 & Hf2).
  split_and!; try congruence.
  - intros id Hid. by rewrite Hs2, Hs1.
  - intros id r r' Hr Hr'.
    assert (is_Some (relationsOf w2 !! id)) as [r2 Hr2'].
    { apply elem_of_dom. rewrite Hd1. apply elem_of_dom. by eexists. }
    eapply sameButStack_trans; eauto.
  - intros dir name Hdir. by rewrite Hf2, Hf1.
Qed.

Section touching.
Context {E A B : Type}.
Variables (stackID : EdgeStackID) (dirs : list string).

Lemma readOnly_touching (m : ST E A) : readOnly m → touching stackID dirs m.
Proof. intros Hm w. rewrite Hm. apply touchesOnly_refl. Qed.

Lemma touching_bind (m : ST E A) (k : A → ST E B) :
  touching stackID dirs m → (∀ a, touching stackID dirs (k a)) →
  touching stackID dirs (m ≫= k).
Proof.
  intros Hm Hk w. unfold mbind, ST_bind. specialize (Hm w).
  destruct (m w) as [[e|a] w1]; cbn in *; [done|].
  eapply touchesOnly_trans; [done|]. apply Hk.
Qed.

(** The same, when the result of the first step is known to satisfy [P]. *)
Lemma touching_bind_with (P : A → Prop) (m : ST E A) (k : A → ST E B) :
  touching stackID dirs m →
  (∀ w a w1, m w = (inr a, w1) → P a) →
  (∀ a, P a → touching stackID dirs (k a)) →
  touching stackID dirs (m ≫= k).
Proof.
  intros Hm HP Hk w. unfold mbind, ST_bind. specialize (Hm w). specialize (HP w).
  destruct (m w) as [[e|a] w1]; cbn in *; [done|].
  eapply touchesOnly_trans; [done|]. apply Hk. by eapply HP.
Qed.

Lemma touching_onErr {E'} (f : E → E') (m : ST E A) :
  touching stackID dirs m → touching stackID dirs (onErr f m).
Proof. intros Hm w. unfold onErr. specialize (Hm w). by destruct (m w) as [[?|?] ?]. Qed.
End touching.

Lemma touching_logWarn {E} stackID dirs (m : ST error ()) :
  touching stackID dirs m → touching stackID dirs (@logWarn E m).
Proof. intros Hm w. apply Hm. Qed.

(** The reconciliation rewrites the entry of the stack, in the relation
    records that are there. *)
Lemma touching_reconcileRelations o stackID dirs old new :
  touching stackID dirs (reconcileRelations o stackID old new).
Proof.
  intros w. rewrite reconcileRelations_run. cbn [snd].
  split_and!; try done.
  - rewrite relationsOf_withRelations. apply reconcileLoops_dom.
  - rewrite relationsOf_withRelations. intros id r r' Hr.
    rewrite reconcileLoops_lookup, Hr.
    repeat case_decide; intros [= <-];
      auto using sameButStack_refl, sameButStack_withoutStack, sameButStack_withStack.
Qed.

Lemma touching_RemoveDirectory h stackID dirs path :
  path ∈ dirs → touching stackID dirs (FileService.RemoveDirectory h path).
Proof.
  intros Hpath w. unfold FileService.RemoveDirectory.
  destruct (FileService_removeFails h path); [apply touchesOnly_refl|].
  split_and!; try done.
  - intros id r r' Hr Hr'. cbn in Hr'.
    assert (r' = r) as -> by (unfold relationsOf in *; cbn in *; congruence).
    apply sameButStack_refl.
  - intros dir name Hdir. cbn.
    destruct (disk w !! (dir, name)) as [data|] eqn:Hfile.
    + apply map_lookup_filter_Some. split; [done|]. cbn. by intros ->.
    + apply map_lookup_filter_None. left. done.
Qed.

Lemma touching_StoreEdgeStackFileFromBytes h stackID dirs folder name data :
  FileService.GetEdgeStackProjectPath h folder ∈ dirs →
  touching stackID dirs (FileService.StoreEdgeStackFileFromBytes h folder name data).
Proof.
  intros Hfolder w. unfold FileService.StoreEdgeStackFileFromBytes.
  destruct (FileService_storeFails h folder name); [apply touchesOnly_refl|].
  split_and!; try done.
  - intros id r r' Hr Hr'.
    assert (r' = r) as -> by (unfold relationsOf in *; cbn in *; congruence).
    apply sameButStack_refl.
  - intros dir name' Hdir. cbn. apply lookup_insert_ne. by intros [= <- _].
Qed.

Lemma touching_convertAndStoreKubeManifestIfNeeded h stackID dirs folder path compose ids :
  FileService.GetEdgeStackProjectPath h folder ∈ dirs →
  touching stackID dirs (convertAndStoreKubeManifestIfNeeded h folder path compose ids).
Proof.
  intros Hfolder. unfold convertAndStoreKubeManifestIfNeeded.
  apply touching_bind; [apply readOnly_touching, readOnly_hasKubeEndpoint|].
  intros hasKube. destruct (negb hasKube); [apply readOnly_touching, readOnly_ret|].
  apply touching_bind; [apply readOnly_touching, readOnly_GetFileContent|].
  intros ?. apply touching_bind; [apply readOnly_touching, readOnly_lift|].
  intros ?. apply touching_bind; [by apply touching_StoreEdgeStackFileFromBytes|].
  intros ?. apply readOnly_touching, readOnly_ret.
Qed.

Lemma touching_UpdateEdgeStack stackID dirs s :
  touching stackID dirs (tx_EdgeStack.UpdateEdgeStack stackID s).
Proof.
  intros w. unfold tx_EdgeStack.UpdateEdgeStack.
  destruct (StoreFaults.UpdateEdgeStack _ _); [apply touchesOnly_refl|].
  split_and!; try done.
  - intros id Hid. unfold stacksOf. cbn. by rewrite lookup_insert_ne.
  - intros id r r' Hr Hr'.
    assert (r' = r) as -> by (unfold relationsOf in *; cbn in *; congruence).
    apply sameButStack_refl.
Qed.

(** X1. The update of a stack touches nothing but that stack. When the
    stack is not in the store the world is as it was. Otherwise, and
    whether the update succeeds or fails part way, the environments, the
    groups and the records of the other stacks are as they were; no relation
    record is created or deleted, and a relation record differs from what it
    was at most in the entry of this stack; the files outside of the project
    path of the record and of the folder of the stack are as they were. *)
Theorem update_touches_only_its_stack (h : Handler) (o : RangeOrder)
    (stackID : EdgeStackID) (payload : updateEdgeStackPayload.t) (w : World) :
  let w' := (updateEdgeStack h o stackID payload w).2 in
  match stacksOf w !! stackID with
  | None => w' = w
  | Some s => touchesOnly (EdgeStack.ID s) (stackDirs h s) w w'
  end.
Proof.
  cbv zeta. unfold updateEdgeStack, stacksOf.
  destruct (edgeStackBucket (tx w) !! stackID) as [s|] eqn:Hs.
  - erewrite bind_inr; cycle 1.
    { unfold onErr, tx_EdgeStack.EdgeStack. by rewrite Hs. }
    revert w Hs.
    assert (FileService.GetEdgeStackProjectPath h (pretty (EdgeStack.ID s))
            ∈ stackDirs h s) as Hfolder by (right; left).
    assert (EdgeStack.ProjectPath s ∈ stackDirs h s) as Hpath by left.
    match goal with
    | |- ∀ w, _ → touchesOnly _ _ w (?m w).2 =>
        enough (touching (EdgeStack.ID s) (stackDirs h s) m) as Hm
          by (intros w _; apply Hm)
    end.
    apply touching_bind; [apply readOnly_touching; auto with frames|]. intros cfg.
    apply touching_bind; [apply readOnly_touching; auto with frames|]. intros old.
    apply touching_bind_with with (P := λ a, sameStack s a.1).
    { destruct (updateEdgeStackPayload.EdgeGroups payload) as [groups|].
      - apply touching_bind; [apply readOnly_touching; auto with frames|]. intros new.
        apply touching_bind; [apply touching_reconcileRelations|]. intros _.
        apply readOnly_touching, readOnly_ret.
      - apply readOnly_touching, readOnly_ret. }
    { intros w [stack related] w1.
      destruct (updateEdgeStackPayload.EdgeGroups payload) as [groups|].
      - intros (new & ? & _ & ([] & ? & _ & [= <- <- <-])%bind_inv_inr)%bind_inv_inr.
        by split.
      - intros [= <- <- <-]. by split. }
    intros [stack related] [HID Hpp]. cbn [fst] in *.
    apply touching_bind_with with (P := sameStack s).
    { destruct (decide _); [|apply readOnly_touching, readOnly_ret].
      apply touching_bind; [|intros ?; apply readOnly_touching, readOnly_ret].
      apply touching_logWarn, touching_RemoveDirectory. by rewrite Hpp. }
    { intros w stack' w1. destruct (decide _).
      - intros ([] & ? & _ & [= <- <-])%bind_inv_inr. by split.
      - intros [= <- <-]. by split. }
    clear stack HID Hpp. intros stack [HID Hpp].
    apply touching_bind; [apply readOnly_touching; auto with frames|].
    intros [|]; [apply readOnly_touching, readOnly_fail|].
    apply touching_bind_with with (P := sameStack s).
    { destruct (decide _); [|apply readOnly_touching, readOnly_ret].
      apply touching_bind.
      - apply touching_onErr, touching_StoreEdgeStackFileFromBytes.
        by rewrite HID.
      - intros ?. apply touching_bind; [|intros ?; apply readOnly_touching, readOnly_ret].
        apply touching_onErr, touching_convertAndStoreKubeManifestIfNeeded.
        by rewrite HID. }
    { intros w stack' w1. destruct (decide _).
      - intros (? & ? & _ & (? & ? & _ & [= <- <-])%bind_inv_inr)%bind_inv_inr.
        by destruct (decide _).
      - intros [= <- <-]. by split. }
    intros stack7 [HID7 Hpp7].
    apply touching_bind_with with (P := sameStack s).
    { destruct (decide _); [|apply readOnly_touching, readOnly_ret].
      apply touching_bind; [|intros ?; apply readOnly_touching, readOnly_ret].
      apply touching_onErr, touching_StoreEdgeStackFileFromBytes.
      by rewrite HID. }
    { intros w stack' w1. destruct (decide _).
      - intros (? & ? & _ & [= <- <-])%bind_inv_inr. by destruct (decide _).
      - intros [= <- <-]. by split. }
    intros stack8 [HID8 Hpp8]. cbv zeta.
    apply touching_bind; [|intros ?; apply readOnly_touching, readOnly_ret].
    apply touching_onErr.
    match goal with
    | |- touching _ _ (tx_EdgeStack.UpdateEdgeStack ?k _) =>
        assert (k = EdgeStack.ID s) as Hk; [|rewrite Hk]
    end.
    { rewrite <-HID8.
      by destruct (match updateEdgeStackPayload.Version payload with
                   | Some v => bool_decide (v ≠ EdgeStack.Version stack8)
                   | None => false
                   end). }
    apply touching_UpdateEdgeStack.
  - erewrite bind_inl; [done|].
    unfold onErr, tx_EdgeStack.EdgeStack. by rewrite Hs.
Qed.

(** ** The relations after a successful update *)

Lemma membershipFlag_withStack b id stackID r :
  b !! id = Some (withStack stackID r) → membershipFlag b id stackID = Some true.
Proof.
  intros Hr. unfold membershipFlag. rewrite Hr. cbn. apply lookup_insert_eq.
Qed.

Lemma membershipFlag_withoutStack b id stackID r :
  b !! id = Some (withoutStack stackID r) → membershipFlag b id stackID = None.
Proof.
  intros Hr. unfold membershipFlag. rewrite Hr. cbn. apply lookup_delete_eq.
Qed.

(** X2. After a successful update with a group list, the relations are
    those of the new target set: the relation record of every environment
    that joined the target set has the stack, with the flag [true]; the
    relation record of every environment that left it is still there and
    has no entry of the stack; every other relation record is as it was. *)
Theorem update_reconciles_relations (h : Handler) (o : RangeOrder)
    (stackID : EdgeStackID) (payload : updateEdgeStackPayload.t) (w : World)
    (groups : list EdgeGroupID) (s' : EdgeStack.t) :
  updateEdgeStackPayload.EdgeGroups payload = Some groups →
  (updateEdgeStack h o stackID payload w).1 = inr s' →
  let w' := (updateEdgeStack h o stackID payload w).2 in
  ∃ s old new,
    stacksOf w !! stackID = Some s
    ∧ EdgeStackRelatedEndpoints (EdgeStack.EdgeGroups s)
        (endpointBucket (tx w)) (edgeGroupBucket (tx w)) = inr old
    ∧ EdgeStackRelatedEndpoints groups
        (endpointBucket (tx w)) (edgeGroupBucket (tx w)) = inr new
    ∧ ∀ id,
        (id ∈ new → id ∉ old →
         membershipFlag (relationsOf w') id (EdgeStack.ID s) = Some true)
        ∧ (id ∈ old → id ∉ new →
           is_Some (relationsOf w' !! id)
           ∧ membershipFlag (relationsOf w') id (EdgeStack.ID s) = None)
        ∧ ((id ∈ old ↔ id ∈ new) → relationsOf w' !! id = relationsOf w !! id).
Proof.
  intros Hgroups Hrun. cbv zeta.
  destruct (updateEdgeStack h o stackID payload w) as [[e|s''] w'] eqn:Hrun'; [done|].
  cbn [fst snd] in *. injection Hrun as ->.
  apply updateEdgeStack_inr in Hrun'
    as (s & old & new & Hs & Hold & Hnew & _ & Hrec & _ & _ & Hrel & _).
  unfold targetGroups, reconciledWorld in *. rewrite Hgroups in *.
  exists s, old, new. split_and!; try done. intros id.
  specialize (Hrec ltac:(by eexists)). apply reconcileRelations_ok_inv in Hrec.
  rewrite reconcileRelations_run in Hrel. cbn [snd] in Hrel.
  rewrite relationsOf_withRelations in Hrel. rewrite Hrel.
  rewrite (reconcileLoops_lookup_ok _ _ _ _ _ _ _ id Hrec).
  assert ((id ∈ old ∧ id ∉ new) ∨ (id ∈ new ∧ id ∉ old) →
          is_Some (relationsOf w !! id)) as Hdom.
  { intros Hid.
    apply (proj1 (reconcileLoops_ok_iff (relationFaults w) o (EdgeStack.ID s) old new
                    (relationsOf w) (trace w)) Hrec id) in Hid.
    by apply elem_of_passable in Hid as [? _]. }
  split_and!.
  - intros Hin Hout. assert (is_Some (relationsOf w !! id)) as [r Hr]
      by (apply Hdom; by right).
    apply (membershipFlag_withStack _ _ _ r).
    rewrite (reconcileLoops_lookup_ok _ _ _ _ _ _ _ id Hrec).
    rewrite decide_False, decide_True, Hr by tauto. done.
  - intros Hin Hout. assert (is_Some (relationsOf w !! id)) as [r Hr]
      by (apply Hdom; by left).
    rewrite decide_True, Hr by done. split; [by eexists|].
    apply (membershipFlag_withoutStack _ _ _ r).
    rewrite (reconcileLoops_lookup_ok _ _ _ _ _ _ _ id Hrec).
    rewrite decide_True, Hr by done. done.
  - intros Hboth. rewrite !decide_False by tauto. done.
Qed.

Lemma update_reconciles_relations_witness :
  let w' := (updateEdgeStack exHandler exOrder 1 exPayloadAddGroup exWorld).2 in
  membershipFlag (relationsOf exWorld) 2 1 = None
  ∧ membershipFlag (relationsOf w') 2 1 = Some true
  ∧ relationsOf w' !! 1 = relationsOf exWorld !! 1.
Proof.
  cbv zeta. split; [reflexivity|].
  destruct (update_reconciles_relations exHandler exOrder 1 exPayloadAddGroup exWorld
              [1; 2] exStackAfterAddGroup eq_refl)
    as (s & old & new & Hs & Hold & Hnew & Hrel); [by vm_compute|].
  injection Hs as <-. injection Hold as <-. injection Hnew as <-.
  split.
  - apply (Hrel 2); [by right; left|].
    intros Hin. by apply list_elem_of_singleton in Hin.
  - apply (Hrel 1). split; intros _; by left.
Defined.

(** ** The errors of the update *)

Section failsWith.
Context {E A B : Type}.

Lemma failsWith_ret (P : E → Prop) (a : A) : failsWith P (mret a : ST E A).
Proof. by intros w e w1. Qed.

Lemma failsWith_fail (P : E → Prop) (e : E) : P e → failsWith P (fail e : ST E A).
Proof. by intros He w e' w1 [= <- _]. Qed.

Lemma failsWith_bind (P : E → Prop) (m : ST E A) (k : A → ST E B) :
  failsWith P m → (∀ a, failsWith P (k a)) → failsWith P (m ≫= k).
Proof.
  intros Hm Hk w e w2 [Hrun|(a & w1 & _ & Hrun)]%bind_inv_inl.
  - by eapply Hm.
  - by eapply Hk.
Qed.

Lemma failsWith_onErr {E'} (P : E' → Prop) (f : E → E') (m : ST E A) :
  (∀ e, P (f e)) → failsWith P (onErr f m).
Proof. intros Hf w e' w1 (e & _ & ->)%onErr_inv_inl. apply Hf. Qed.
End failsWith.

Lemma failsWith_logWarn {E} (P : E → Prop) (m : ST error ()) : failsWith P (@logWarn E m).
Proof. by intros w e w1. Qed.

Lemma failsWith_reconcileRelations o stackID old new :
  failsWith clientOrServerError (reconcileRelations o stackID old new).
Proof.
  intros w e w1 Hrun. right.
  by destruct (reconcileRelations_error _ _ _ _ _ _ _ Hrun) as [-> | ->].
Qed.

(** X3. An update that fails writes no stack record: the stack bucket is
    as it was and the trace has no new write of a stack. The error is "not
    found" exactly when the stack is not in the store, and then nothing at
    all was done; every other error is a bad request or an internal server
    error. *)
Theorem failed_update_writes_no_stack (h : Handler) (o : RangeOrder)
    (stackID : EdgeStackID) (payload : updateEdgeStackPayload.t) (w : World)
    (e : HandlerError) :
  (updateEdgeStack h o stackID payload w).1 = inl e →
  let w' := (updateEdgeStack h o stackID payload w).2 in
  stacksOf w' = stacksOf w
  ∧ stackWrites (trace w') = stackWrites (trace w)
  ∧ match stacksOf w !! stackID with
    | None => StatusCode e = StatusNotFound ∧ w' = w
    | Some _ => clientOrServerError e
    end.
Proof.
  intros Hrun. cbv zeta.
  destruct (updateEdgeStack h o stackID payload w) as [[e'|?] w'] eqn:Hrun'; [|done].
  cbn [fst snd] in *. injection Hrun as ->.
  pose proof (updateEdgeStack_inl _ _ _ _ _ _ _ Hrun') as (Hst & _ & _ & evs & Ht & Hevs).
  split; [done|]. split; [by rewrite Ht, stackWrites_app, Hevs|].
  unfold updateEdgeStack, stacksOf in *.
  destruct (edgeStackBucket (tx w) !! stackID) as [s|] eqn:Hs.
  - erewrite bind_inr in Hrun'; cycle 1.
    { unfold onErr, tx_EdgeStack.EdgeStack. by rewrite Hs. }
    revert Hrun'.
    match goal with
    | |- ?m w = _ → _ =>
        enough (failsWith clientOrServerError m) as Hm by (intros Hrun'; by eapply Hm)
    end.
    apply failsWith_bind; [apply failsWith_onErr; by right|]. intros cfg.
    apply failsWith_bind; [apply failsWith_onErr; by right|]. intros old.
    apply failsWith_bind.
    { destruct (updateEdgeStackPayload.EdgeGroups payload) as [groups|];
        [|apply failsWith_ret].
      apply failsWith_bind; [apply failsWith_onErr; by right|]. intros new.
      apply failsWith_bind; [apply failsWith_reconcileRelations|]. intros _.
      apply failsWith_ret. }
    intros [stack related].
    apply failsWith_bind.
    { destruct (decide _); [|apply failsWith_ret].
      apply failsWith_bind; [apply failsWith_logWarn|]. intros _. apply failsWith_ret. }
    intros stack5.
    apply failsWith_bind; [apply failsWith_onErr; by left|].
    intros [|]; [apply failsWith_fail; by left|].
    apply failsWith_bind.
    { destruct (decide _); [|apply failsWith_ret].
      apply failsWith_bind; [apply failsWith_onErr; by right|]. intros _.
      apply failsWith_bind; [apply failsWith_onErr; by right|]. intros manifestPath.
      apply failsWith_ret. }
    intros stack7.
    apply failsWith_bind.
    { destruct (decide _); [|apply failsWith_ret].
      apply failsWith_bind; [apply failsWith_onErr; by right|]. intros _.
      apply failsWith_ret. }
    intros stack8. cbv zeta.
    apply failsWith_bind; [apply failsWith_onErr; by right|]. intros _.
    apply failsWith_ret.
  - erewrite bind_inl in Hrun'; cycle 1.
    { unfold onErr, tx_EdgeStack.EdgeStack. by rewrite Hs. }
    injection Hrun' as He Hw. by subst.
Qed.

Lemma failed_update_writes_no_stack_witness :
  let r := updateEdgeStack exHandler exOrder 1 exPayloadUnknownEndpoint exWorld in
  ∃ e, r.1 = inl e
       ∧ StatusCode e = StatusInternalServerError
       ∧ stacksOf r.2 = stacksOf exWorld
       ∧ stackWrites (trace r.2) = stackWrites (trace exWorld).
Proof.
  cbv zeta. eexists. split; [by vm_compute|]. split; [reflexivity|].
  destruct (failed_update_writes_no_stack exHandler exOrder 1 exPayloadUnknownEndpoint
              exWorld _ eq_refl) as (Hst & Ht & _).
  split; [exact Hst|exact Ht].
Defined.

(** ** The files after a successful update *)

Lemma StoreEdgeStackFileFromBytes_inr h folder name data w p w1 :
  FileService.StoreEdgeStackFileFromBytes h folder name data w = (inr p, w1) →
  tx w1 = tx w
  ∧ disk w1 = <[(FileService.GetEdgeStackProjectPath h folder, name) := data]> (disk w).
Proof.
  unfold FileService.StoreEdgeStackFileFromBytes.
  destruct (FileService_storeFails h folder name); [done|]. by intros [= _ <-].
Qed.

Lemma stackFileName_versionFields requested n stack :
  stackFileName (versionFields requested n stack) = stackFileName stack.
Proof.
  unfold stackFileName.
  by destruct (versionFields_frame requested n stack) as (_ & _ & -> & -> & -> & _).
Qed.

(** The files after a successful update: the old project directory is
    removed if the deployment type changes, then the content of the payload
    is written. *)
Lemma updateEdgeStack_disk h o stackID payload w s' w' :
  updateEdgeStack h o stackID payload w = (inr s', w') →
  ∃ s, stacksOf w !! stackID = Some s
       ∧ disk w'
         = <[(FileService.GetEdgeStackProjectPath h (pretty (EdgeStack.ID s)),
              stackFileName s') := updateEdgeStackPayload.StackFileContent payload]>
             (diskAfterTransition h payload s w).
Proof.
  intros Hrun.
  pose proof (updateEdgeStack_inr _ _ _ _ _ _ _ Hrun)
    as (s & old & related & Hs & Hold & Hnew & Hguard & _ & Hs' & _).
  exists s. split; [done|]. rewrite Hs'. unfold finalStack.
  rewrite stackFileName_versionFields. clear Hs'.
  unfold updateEdgeStack in Hrun.
  apply bind_inv_inr in Hrun as (s0 & w1 & H1 & Hrun). run_ro H1.
  apply onErr_inv_inr in H1. unfold tx_EdgeStack.EdgeStack, stacksOf in *.
  rewrite Hs in H1. injection H1 as <-.
  apply bind_inv_inr in Hrun as (cfg & w1 & H2 & Hrun). run_ro H2.
  apply FetchEndpointRelationsConfig_inr in H2 as [-> _].
  cbn [config_Endpoints config_EdgeGroups] in Hrun.
  apply bind_inv_inr in Hrun as (old' & w1 & H3 & Hrun). run_ro H3.
  apply onErr_inv_inr in H3. injection H3 as H3.
  assert (old' = old) as -> by congruence. clear H3.
  apply bind_inv_inr in Hrun as ([stack4 related'] & w4 & H4 & Hrun).
  assert (stack4 = match updateEdgeStackPayload.EdgeGroups payload with
                   | Some g => EdgeStack.setEdgeGroups g s | None => s end
          ∧ related' = related
          ∧ disk w4 = disk w
          ∧ endpointBucket (tx w4) = endpointBucket (tx w))
    as (Hstack4 & -> & Hd4 & He4).
  { unfold targetGroups in Hnew.
    destruct (updateEdgeStackPayload.EdgeGroups payload) as [groups|].
    - apply bind_inv_inr in H4 as (new & wa & H4 & H5). run_ro H4.
      apply onErr_inv_inr in H4. injection H4 as H4.
      apply bind_inv_inr in H5 as ([] & wb & H5 & H6). injection H6 as <- <- <-.
      assert (wb = (reconcileRelations o (EdgeStack.ID s) old new w).2) as ->
        by (by rewrite H5).
      rewrite disk_reconcileRelations.
      destruct (framed_reconcileRelations o (EdgeStack.ID s) old new w) as (_ & -> & _).
      split_and!; try done. congruence.
    - injection H4 as <- <- <-. split_and!; try done. congruence. }
  clear H4.
  assert (EdgeStack.ID stack4 = EdgeStack.ID s
          ∧ EdgeStack.DeploymentType stack4 = EdgeStack.DeploymentType s
          ∧ EdgeStack.ProjectPath stack4 = EdgeStack.ProjectPath s)
    as (HID4 & Htype4 & Hpath4).
  { rewrite Hstack4. by destruct (updateEdgeStackPayload.EdgeGroups payload). }
  (* the deployment type *)
  apply bind_inv_inr in Hrun as (stack5 & w5 & H5 & Hrun).
  assert (stack5 = typeTransition (updateEdgeStackPayload.DeploymentType payload) stack4
          ∧ disk w5 = diskAfterTransition h payload s w
          ∧ endpointBucket (tx w5) = endpointBucket (tx w)) as (Hstack5 & Hd5 & He5).
  { unfold typeTransition, diskAfterTransition. rewrite Htype4, Hpath4 in *.
    destruct (decide (EdgeStack.DeploymentType s
                      ≠ updateEdgeStackPayload.DeploymentType payload)).
    - apply bind_inv_inr in H5 as ([] & wa & H5 & H6). injection H6 as <- <-.
      unfold logWarn in H5. injection H5 as <-.
      split_and!; [done|by apply disk_RemoveDirectory|].
      by destruct (fileFramed_RemoveDirectory h (EdgeStack.ProjectPath s) w4) as [-> _].
    - injection H5 as <- <-. done. }
  clear H5.
  assert (EdgeStack.ID stack5 = EdgeStack.ID s) as HID5.
  { rewrite Hstack5, <-HID4. unfold typeTransition. clear Hrun. by destruct (decide _). }
  assert (EdgeStack.DeploymentType stack5
          = updateEdgeStackPayload.DeploymentType payload) as Htype5.
  { rewrite Hstack5. unfold typeTransition. clear Hrun.
    destruct (decide (EdgeStack.DeploymentType stack4
                      ≠ updateEdgeStackPayload.DeploymentType payload))
      as [|Heq%dec_stable]; done. }
  rewrite HID5 in Hrun.
  (* the guard *)
  apply bind_inv_inr in Hrun as (hasWrong & w6 & H6 & Hrun). run_ro H6.
  apply onErr_inv_inr in H6. injection H6 as H6.
  destruct hasWrong; [done|].
  unfold preparedStack. cbv zeta. rewrite <-Hstack4, <-Hstack5.
  apply bind_inv_inr in Hrun as (stack7 & w7 & H7 & Hrun).
  apply bind_inv_inr in Hrun as (stack8 & w8 & H8 & Hrun).
  cbv zeta in Hrun.
  apply bind_inv_inr in Hrun as ([] & w9 & H9 & Hrun). injection Hrun as _ <-.
  apply onErr_inv_inr in H9. unfold tx_EdgeStack.UpdateEdgeStack in H9.
  destruct (StoreFaults.UpdateEdgeStack _ _); [done|].
  injection H9 as <-. cbn [disk logEvent setTx].
  destruct (updateEdgeStackPayload.DeploymentType payload) eqn:Htype.
  - (* a compose stack *)
    rewrite (decide_True (P := EdgeStackDeploymentCompose = EdgeStackDeploymentCompose))
      in H7 by done.
    rewrite (decide_False (P := EdgeStackDeploymentCompose = EdgeStackDeploymentKubernetes))
      in H8 by done.
    injection H8 as <- <-.
    rewrite (decide_True (P := EdgeStackDeploymentCompose = EdgeStackDeploymentCompose))
      by done.
    rewrite (decide_False (P := EdgeStackDeploymentCompose = EdgeStackDeploymentKubernetes))
      by done.
    apply bind_inv_inr in H7 as (p & wa & H7 & H7').
    apply onErr_inv_inr, StoreEdgeStackFileFromBytes_inr in H7 as [Htx Hd].
    apply bind_inv_inr in H7' as (manifestPath & wb & H7' & H7'').
    apply onErr_inv_inr in H7'.
    rewrite convertAndStoreKubeManifestIfNeeded_no_kube in H7'; cycle 1.
    { rewrite Htx, He5. apply guard_compose_no_kube. unfold hasWrongType.
      by rewrite He5 in H6. }
    injection H7' as <- <-. injection H7'' as <- <-.
    rewrite Hd, Hd5. f_equal. f_equal. unfold stackFileName.
    assert (EdgeStack.DeploymentType (composeFields "" stack5)
            = EdgeStackDeploymentCompose) as ->.
    { unfold composeFields. by destruct (decide _). }
    unfold composeFields. by destruct (decide _).
  - (* a manifest stack *)
    rewrite (decide_False (P := EdgeStackDeploymentKubernetes = EdgeStackDeploymentCompose))
      in H7 by done.
    injection H7 as <- <-.
    rewrite (decide_True (P := EdgeStackDeploymentKubernetes
                               = EdgeStackDeploymentKubernetes)) in H8 by done.
    rewrite (decide_False (P := EdgeStackDeploymentKubernetes = EdgeStackDeploymentCompose))
      by done.
    rewrite (decide_True (P := EdgeStackDeploymentKubernetes
                               = EdgeStackDeploymentKubernetes)) by done.
    apply bind_inv_inr in H8 as (p & wa & H8 & H8').
    apply onErr_inv_inr, StoreEdgeStackFileFromBytes_inr in H8 as [Htx Hd].
    injection H8' as <- <-.
    rewrite Hd, Hd5. f_equal. f_equal. unfold stackFileName.
    assert (EdgeStack.DeploymentType
              (kubernetesFields (updateEdgeStackPayload.UseManifestNamespaces payload)
                 stack5) = EdgeStackDeploymentKubernetes) as ->.
    { unfold kubernetesFields. by destruct (decide _). }
    unfold kubernetesFields. by destruct (decide _).
Qed.

Lemma preparedStack_stackFileName payload s : stackFileName (preparedStack payload s) ≠ "".
Proof.
  unfold stackFileName. rewrite preparedStack_DeploymentType.
  unfold preparedStack, kubernetesFields, composeFields, typeTransition. cbv zeta.
  destruct (updateEdgeStackPayload.EdgeGroups payload);
    destruct (updateEdgeStackPayload.DeploymentType payload);
    repeat case_decide; cbn in *; done.
Qed.

(** X4. After a successful update the content of the payload is on disk,
    in the folder of the stack of the file service, under the name that the
    persisted record gives: the entry point of a compose stack, the manifest
    path of a manifest stack, which is not empty. The files are those from
    before without the old project directory if the deployment type
    changed (and its removal did not fail), with this one file written. *)
Theorem update_stores_content (h : Handler) (o : RangeOrder)
    (stackID : EdgeStackID) (payload : updateEdgeStackPayload.t) (w : World)
    (s' : EdgeStack.t) :
  (updateEdgeStack h o stackID payload w).1 = inr s' →
  let w' := (updateEdgeStack h o stackID payload w).2 in
  let folder := FileService.GetEdgeStackProjectPath h (pretty (EdgeStack.ID s')) in
  stackFileName s' ≠ ""
  ∧ (FileService.GetFileContent folder (stackFileName s') w').1
    = inr (updateEdgeStackPayload.StackFileContent payload)
  ∧ ∃ s, stacksOf w !! stackID = Some s
         ∧ disk w'
           = <[(folder, stackFileName s')
                 := updateEdgeStackPayload.StackFileContent payload]>
               (diskAfterTransition h payload s w).
Proof.
  intros Hrun. cbv zeta.
  destruct (updateEdgeStack h o stackID payload w) as [[e|s''] w'] eqn:Hrun'; [done|].
  cbn [fst snd] in *. injection Hrun as ->.
  pose proof (updateEdgeStack_inr _ _ _ _ _ _ _ Hrun')
    as (s0 & old & related & Hs0 & _ & _ & _ & _ & Hs' & _).
  destruct (updateEdgeStack_disk _ _ _ _ _ _ _ Hrun') as (s & Hs & Hdisk).
  assert (s0 = s) as -> by congruence.
  assert (EdgeStack.ID s' = EdgeStack.ID s) as -> by (rewrite Hs'; apply finalStack_ID).
  split_and!.
  - rewrite Hs'. unfold finalStack. rewrite stackFileName_versionFields.
    apply preparedStack_stackFileName.
  - unfold FileService.GetFileContent. by rewrite Hdisk, lookup_insert_eq.
  - by exists s.
Qed.

Lemma update_stores_content_witness :
  let w' := (updateEdgeStack exHandler exOrder 1 exPayloadToKubernetes exWorld).2 in
  disk w' !! ("/data/edge_stacks/1", "k8s-deployment.yml") = Some "kind: Deployment"
  ∧ disk w' !! ("/data/edge_stacks/1", "docker-compose.yml") = None.
Proof.
  cbv zeta.
  destruct (update_stores_content exHandler exOrder 1 exPayloadToKubernetes exWorld
              (finalStack exPayloadToKubernetes exStack [3]))
    as (_ & _ & s & Hs & Hdisk); [by vm_compute|].
  assert (Some s = Some exStack) as [= ->] by (by rewrite <-Hs).
  rewrite Hdisk. split; by vm_compute.
Defined.

(** ** The record after a successful update *)

Lemma finalStack_kept payload s related :
  EdgeStack.ProjectPath (finalStack payload s related) = EdgeStack.ProjectPath s
  ∧ EdgeStack.EdgeGroups (finalStack payload s related) = targetGroups payload s
  ∧ EdgeStack.UseManifestNamespaces (finalStack payload s related)
    = (if decide (updateEdgeStackPayload.DeploymentType payload
                  = EdgeStackDeploymentKubernetes)
       then updateEdgeStackPayload.UseManifestNamespaces payload
       else EdgeStack.UseManifestNamespaces s).
Proof.
  unfold finalStack, versionFields, targetGroups. cbv zeta.
  destruct (versionUpdated _ _);
    unfold preparedStack, kubernetesFields, composeFields, typeTransition; cbv zeta;
    destruct (updateEdgeStackPayload.EdgeGroups payload);
    destruct (updateEdgeStackPayload.DeploymentType payload);
    repeat case_decide; cbn in *; done.
Qed.

Lemma finalStack_same_type payload s related :
  EdgeStack.DeploymentType s = updateEdgeStackPayload.DeploymentType payload →
  match updateEdgeStackPayload.DeploymentType payload with
  | EdgeStackDeploymentCompose =>
      EdgeStack.EntryPoint (finalStack payload s related)
      = (if decide (EdgeStack.EntryPoint s = "")
         then ComposeFileDefaultName else EdgeStack.EntryPoint s)
      ∧ EdgeStack.ManifestPath (finalStack payload s related) = ""
  | EdgeStackDeploymentKubernetes =>
      EdgeStack.ManifestPath (finalStack payload s related)
      = (if decide (EdgeStack.ManifestPath s = "")
         then ManifestFileDefaultName else EdgeStack.ManifestPath s)
      ∧ EdgeStack.EntryPoint (finalStack payload s related) = EdgeStack.EntryPoint s
  end.
Proof.
  intros Htype. unfold finalStack, versionFields. cbv zeta.
  destruct (versionUpdated _ _);
    unfold preparedStack, kubernetesFields, composeFields, typeTransition; cbv zeta;
    destruct (updateEdgeStackPayload.EdgeGroups payload);
    destruct (updateEdgeStackPayload.DeploymentType payload);
    repeat case_decide; cbn in *; done.
Qed.

(** X5. A successful update replaces the record of the stack and no
    other: the stack bucket is the one from before with the returned record
    under the identifier. The record keeps its identifier and its project
    path; its group list is that of the payload, or the stored one when the
    payload has none; [UseManifestNamespaces] is that of the payload for a
    manifest stack and is kept for a compose stack. When the deployment
    type does not change, a compose stack keeps its entry point (the default
    name if it had none) and has no manifest path, and a manifest stack keeps
    its manifest path (the default name if it had none) and its entry
    point. *)
Theorem update_replaces_the_record (h : Handler) (o : RangeOrder)
    (stackID : EdgeStackID) (payload : updateEdgeStackPayload.t) (w : World)
    (s' : EdgeStack.t) :
  (updateEdgeStack h o stackID payload w).1 = inr s' →
  let w' := (updateEdgeStack h o stackID payload w).2 in
  ∃ s, stacksOf w !! stackID = Some s
       ∧ stacksOf w' = <[EdgeStack.ID s := s']> (stacksOf w)
       ∧ EdgeStack.ID s' = EdgeStack.ID s
       ∧ EdgeStack.ProjectPath s' = EdgeStack.ProjectPath s
       ∧ EdgeStack.EdgeGroups s' = targetGroups payload s
       ∧ EdgeStack.UseManifestNamespaces s'
         = (if decide (updateEdgeStackPayload.DeploymentType payload
                       = EdgeStackDeploymentKubernetes)
            then updateEdgeStackPayload.UseManifestNamespaces payload
            else EdgeStack.UseManifestNamespaces s)
       ∧ (EdgeStack.DeploymentType s = updateEdgeStackPayload.DeploymentType payload →
          match updateEdgeStackPayload.DeploymentType payload with
          | EdgeStackDeploymentCompose =>
              EdgeStack.EntryPoint s'
              = (if decide (EdgeStack.EntryPoint s = "")
                 then ComposeFileDefaultName else EdgeStack.EntryPoint s)
              ∧ EdgeStack.ManifestPath s' = ""
          | EdgeStackDeploymentKubernetes =>
              EdgeStack.ManifestPath s'
              = (if decide (EdgeStack.ManifestPath s = "")
                 then ManifestFileDefaultName else EdgeStack.ManifestPath s)
              ∧ EdgeStack.EntryPoint s' = EdgeStack.EntryPoint s
          end).
Proof.
  intros Hrun. cbv zeta.
  destruct (updateEdgeStack h o stackID payload w) as [[e|s''] w'] eqn:Hrun'; [done|].
  cbn [fst snd] in *. injection Hrun as ->.
  apply updateEdgeStack_inr in Hrun'
    as (s & old & related & Hs & _ & _ & _ & _ & -> & Hst & _).
  exists s. rewrite finalStack_ID.
  destruct (finalStack_kept payload s related) as (Hpath & Hgroups & Hns).
  split_and!; try done. apply finalStack_same_type.
Qed.

Lemma update_replaces_the_record_witness :
  let r := updateEdgeStack exHandler exOrder 1 exPayloadAddGroup exWorld in
  ∃ s', r.1 = inr s'
        ∧ stacksOf r.2 = {[ 1 := s' ]}
        ∧ EdgeStack.ProjectPath s' = "/data/edge_stacks/1"
        ∧ EdgeStack.EntryPoint s' = "docker-compose.yml".
Proof.
  cbv zeta. exists exStackAfterAddGroup. split; [by vm_compute|].
  destruct (update_replaces_the_record exHandler exOrder 1 exPayloadAddGroup exWorld
              exStackAfterAddGroup)
    as (s & Hs & Hst & _ & Hpath & _ & _ & Hentry); [by vm_compute|].
  assert (Some s = Some exStack) as [= ->] by (by rewrite <-Hs).
  split; [|split].
  - rewrite Hst. by vm_compute.
  - exact Hpath.
  - apply (Hentry eq_refl).
Defined.

(** ** When the update succeeds *)

Lemma reconcileRelations_succeeds o stackID old new w :
  (∀ id, (id ∈ old ∧ id ∉ new) ∨ (id ∈ new ∧ id ∉ old) →
         is_Some (relationsOf w !! id)
         ∧ StoreFaults.UpdateEndpointRelation (storeFaults (tx w)) id = None) →
  (reconcileRelations o stackID old new w).1 = inr ().
Proof.
  intros Hall. rewrite reconcileRelations_run. cbv zeta. cbn [fst].
  assert ((reconcileLoops (relationFaults w) o stackID old new (relationsOf w)
             (trace w)).1.1 = true) as ->; [|done].
  apply reconcileLoops_ok_iff. intros id Hid. apply elem_of_passable. by apply Hall.
Qed.

Lemma storeFaults_reconcileRelations o stackID old new w :
  storeFaults (tx (reconcileRelations o stackID old new w).2) = storeFaults (tx w).
Proof. by rewrite reconcileRelations_run. Qed.

Lemma UpdateEdgeStack_ok {E} (f : error → E) id s w :
  StoreFaults.UpdateEdgeStack (storeFaults (tx w)) id = None →
  onErr f (tx_EdgeStack.UpdateEdgeStack id s) w
  = (inr (),
     logEvent (EvUpdateEdgeStack id s)
       (setTx (setEdgeStackBucket (<[id := s]> (edgeStackBucket (tx w))) (tx w)) w)).
Proof. intros Hok. unfold onErr, tx_EdgeStack.UpdateEdgeStack. by rewrite Hok. Qed.

(** X6. The update of a stored stack succeeds, and returns the record
    described by the specification of its steps, whenever: the store lists
    the environments and the groups; the groups of the stored stack and
    those of the payload resolve; every environment that leaves or joins the
    target set has a relation record, which the store does not fail to
    update; every environment of the new target set is in the store and can
    run the deployment type of the payload; the file service does not fail
    to write the file of the stack; and the store does not fail to update
    the record of the stack. Whether the removal of the old project
    directory fails does not matter. *)
Theorem update_succeeds (h : Handler) (o : RangeOrder)
    (stackID : EdgeStackID) (payload : updateEdgeStackPayload.t) (w : World)
    (s : EdgeStack.t) (old related : list EndpointID) :
  stacksOf w !! stackID = Some s →
  StoreFaults.FetchEndpointRelationsConfig (storeFaults (tx w)) = None →
  EdgeStackRelatedEndpoints (EdgeStack.EdgeGroups s)
    (endpointBucket (tx w)) (edgeGroupBucket (tx w)) = inr old →
  EdgeStackRelatedEndpoints (targetGroups payload s)
    (endpointBucket (tx w)) (edgeGroupBucket (tx w)) = inr related →
  (is_Some (updateEdgeStackPayload.EdgeGroups payload) →
   ∀ id, (id ∈ old ∧ id ∉ related) ∨ (id ∈ related ∧ id ∉ old) →
         is_Some (relationsOf w !! id)
         ∧ StoreFaults.UpdateEndpointRelation (storeFaults (tx w)) id = None) →
  hasWrongType (tx w) related (updateEdgeStackPayload.DeploymentType payload)
  = inr false →
  FileService_storeFails h (pretty (EdgeStack.ID s))
    (stackFileName (preparedStack payload s)) = false →
  StoreFaults.UpdateEdgeStack (storeFaults (tx w)) (EdgeStack.ID s) = None →
  (updateEdgeStack h o stackID payload w).1 = inr (finalStack payload s related).
Proof.
  intros Hs Hcfg Hold Hnew Hrel Hguard Hstore Hwrite.
  enough (∃ s', (updateEdgeStack h o stackID payload w).1 = inr s') as [s' Hrun].
  { rewrite Hrun. f_equal.
    destruct (updateEdgeStack h o stackID payload w) as [[e|s''] w'] eqn:Hrun'; [done|].
    injection Hrun as ->.
    apply updateEdgeStack_inr in Hrun'
      as (s0 & old0 & related0 & Hs0 & _ & Hnew0 & _ & _ & -> & _).
    assert (s0 = s) as -> by congruence. congruence. }
  unfold updateEdgeStack, stacksOf in *.
  erewrite bind_inr; cycle 1.
  { unfold onErr, tx_EdgeStack.EdgeStack. by rewrite Hs. }
  erewrite bind_inr; cycle 1.
  { unfold onErr, FetchEndpointRelationsConfig. by rewrite Hcfg. }
  cbn [config_Endpoints config_EdgeGroups].
  erewrite bind_inr; cycle 1.
  { unfold onErr, lift. by rewrite Hold. }
  (* the reconciliation *)
  apply bind_case; [intros e w4 H4|intros [stack4 related'] w4 H4].
  { exfalso. unfold targetGroups in Hnew.
    destruct (updateEdgeStackPayload.EdgeGroups payload) as [groups|]; [|done].
    erewrite bind_inr in H4; cycle 1.
    { unfold onErr, lift. by rewrite Hnew. }
    apply bind_inv_inl in H4 as [H4|(? & ? & _ & H4)]; [|done].
    pose proof (reconcileRelations_succeeds o (EdgeStack.ID s) old related w
                  (Hrel ltac:(by eexists))) as Hok.
    by rewrite H4 in Hok. }
  assert (stack4 = match updateEdgeStackPayload.EdgeGroups payload with
                   | Some g => EdgeStack.setEdgeGroups g s | None => s end
          ∧ related' = related
          ∧ endpointBucket (tx w4) = endpointBucket (tx w)
          ∧ storeFaults (tx w4) = storeFaults (tx w))
    as (Hstack4 & -> & He4 & Hf4).
  { unfold targetGroups in Hnew.
    destruct (updateEdgeStackPayload.EdgeGroups payload) as [groups|].
    - erewrite bind_inr in H4; cycle 1.
      { unfold onErr, lift. by rewrite Hnew. }
      apply bind_inv_inr in H4 as ([] & wb & H4 & H4'). injection H4' as <- <- <-.
      assert (wb = (reconcileRelations o (EdgeStack.ID s) old related w).2) as ->
        by (by rewrite H4).
      rewrite storeFaults_reconcileRelations.
      by destruct (framed_reconcileRelations o (EdgeStack.ID s) old related w)
        as (_ & -> & _).
    - injection H4 as <- <- <-. split_and!; try done. congruence. }
  clear H4.
  (* the deployment type *)
  apply bind_case; [intros e w5 H5|intros stack5 w5 H5].
  { exfalso. destruct (decide _); [|done].
    by apply bind_inv_inl in H5 as [H5|(? & ? & _ & H5)]. }
  assert (stack5 = typeTransition (updateEdgeStackPayload.DeploymentType payload) stack4
          ∧ endpointBucket (tx w5) = endpointBucket (tx w)
          ∧ storeFaults (tx w5) = storeFaults (tx w)) as (Hstack5 & He5 & Hf5).
  { unfold typeTransition. destruct (decide _).
    - apply bind_inv_inr in H5 as ([] & wa & H5 & H6). injection H6 as <- <-.
      split; [done|]. run_file H5 F. by destruct F as [-> _].
    - by injection H5 as <- <-. }
  clear H5.
  assert (EdgeStack.ID stack5 = EdgeStack.ID s) as HID5.
  { rewrite Hstack5, Hstack4. unfold typeTransition.
    by destruct (updateEdgeStackPayload.EdgeGroups payload), (decide _). }
  rewrite HID5.
  (* the guard *)
  erewrite bind_inr; cycle 1.
  { unfold onErr, hasWrongEnvironmentType. unfold hasWrongType in Hguard.
    by rewrite He5, Hguard. }
  cbv iota.
  (* the files *)
  unfold preparedStack in Hstore. cbv zeta in Hstore.
  rewrite <-Hstack4, <-Hstack5 in Hstore.
  assert (EdgeStack.DeploymentType stack5
          = updateEdgeStackPayload.DeploymentType payload) as Htype5.
  { rewrite Hstack5. unfold typeTransition.
    destruct (decide (EdgeStack.DeploymentType stack4
                      ≠ updateEdgeStackPayload.DeploymentType payload))
      as [|Heq%dec_stable]; done. }
  destruct (updateEdgeStackPayload.DeploymentType payload) eqn:Htype.
  - (* a compose stack *)
    rewrite (decide_True (P := EdgeStackDeploymentCompose = EdgeStackDeploymentCompose))
      in Hstore by done.
    rewrite (decide_False (P := EdgeStackDeploymentCompose = EdgeStackDeploymentKubernetes))
      in Hstore by done.
    rewrite (decide_True (P := EdgeStackDeploymentCompose = EdgeStackDeploymentCompose))
      by done.
    assert (stackFileName (composeFields "" stack5)
            = EdgeStack.EntryPoint
                (if decide (EdgeStack.EntryPoint stack5 = "")
                 then EdgeStack.setEntryPoint ComposeFileDefaultName stack5
                 else stack5)) as Hname.
    { unfold stackFileName, composeFields.
      assert (EdgeStack.DeploymentType
                (EdgeStack.setManifestPath ""
                   (if decide (EdgeStack.EntryPoint stack5 = "")
                    then EdgeStack.setEntryPoint ComposeFileDefaultName stack5
                    else stack5)) = EdgeStackDeploymentCompose) as ->
        by (by destruct (decide (EdgeStack.EntryPoint stack5 = ""))).
      by destruct (decide (EdgeStack.EntryPoint stack5 = "")). }
    rewrite Hname in Hstore.
    erewrite bind_inr; cycle 1.
    { erewrite bind_inr; cycle 1.
      { unfold onErr, FileService.StoreEdgeStackFileFromBytes. by rewrite Hstore. }
      erewrite bind_inr; [reflexivity|].
      unfold onErr. rewrite convertAndStoreKubeManifestIfNeeded_no_kube; [done|].
      cbn [tx logEvent setDisk]. rewrite He5. by apply guard_compose_no_kube. }
    erewrite bind_inr; [|reflexivity]. cbv zeta.
    match goal with
    | |- context [tx_EdgeStack.UpdateEdgeStack ?k _] =>
        assert (k = EdgeStack.ID s) as ->
          by (rewrite <-HID5; clear; by repeat case_match)
    end.
    erewrite bind_inr; [by eexists|].
    apply UpdateEdgeStack_ok. cbn [tx logEvent setDisk]. by rewrite Hf5.
  - (* a manifest stack *)
    rewrite (decide_False (P := EdgeStackDeploymentKubernetes = EdgeStackDeploymentCompose))
      in Hstore by done.
    rewrite (decide_True (P := EdgeStackDeploymentKubernetes
                               = EdgeStackDeploymentKubernetes)) in Hstore by done.
    assert (stackFileName
              (kubernetesFields (updateEdgeStackPayload.UseManifestNamespaces payload)
                 stack5)
            = EdgeStack.ManifestPath
                (if decide (EdgeStack.ManifestPath stack5 = "")
                 then EdgeStack.setManifestPath ManifestFileDefaultName stack5
                 else stack5)) as Hname.
    { unfold stackFileName, kubernetesFields.
      assert (EdgeStack.DeploymentType
                (EdgeStack.setUseManifestNamespaces
                   (updateEdgeStackPayload.UseManifestNamespaces payload)
                   (if decide (EdgeStack.ManifestPath stack5 = "")
                    then EdgeStack.setManifestPath ManifestFileDefaultName stack5
                    else stack5)) = EdgeStackDeploymentKubernetes) as ->
        by (by destruct (decide (EdgeStack.ManifestPath stack5 = ""))).
      by destruct (decide (EdgeStack.ManifestPath stack5 = "")). }
    rewrite Hname in Hstore.
    erewrite bind_inr; [|reflexivity].
    rewrite (decide_True (P := EdgeStackDeploymentKubernetes
                               = EdgeStackDeploymentKubernetes)) by done.
    erewrite bind_inr; cycle 1.
    { erewrite bind_inr; [reflexivity|].
      unfold onErr, FileService.StoreEdgeStackFileFromBytes.
      cbn [EdgeStack.ManifestPath EdgeStack.setUseManifestNamespaces].
      by rewrite Hstore. }
    cbv zeta.
    match goal with
    | |- context [tx_EdgeStack.UpdateEdgeStack ?k _] =>
        assert (k = EdgeStack.ID s) as ->
          by (rewrite <-HID5; clear; by repeat case_match)
    end.
    erewrite bind_inr; [by eexists|].
    apply UpdateEdgeStack_ok. cbn [tx logEvent setDisk]. by rewrite Hf5.
Qed.

Lemma update_succeeds_witness :
  (updateEdgeStack exHandler exOrder 1 exPayloadAddGroup exWorld).1
  = inr exStackAfterAddGroup.
Proof.
  rewrite (update_succeeds exHandler exOrder 1 exPayloadAddGroup exWorld exStack
             [1] [1; 2]); try reflexivity.
  intros _ id [[Hin Hout]|[Hin Hout]].
  - apply list_elem_of_singleton in Hin as ->. destruct Hout. by left.
  - apply elem_of_cons in Hin as [->|Hin]; [destruct Hout; by left|].
    apply list_elem_of_singleton in Hin as ->. split; [by eexists|done].
Defined.

(** ** The reconciliation and the order of its loops *)

Lemma rangeKeys_empty prio : rangeKeys prio ∅ = [].
Proof.
  unfold rangeKeys. rewrite elements_empty, filter_nil, app_nil_r.
  apply filter_none. intros k _. apply not_elem_of_empty.
Qed.

Lemma length_rangeKeys prio (s : gset Z) : length (rangeKeys prio s) = size s.
Proof.
  unfold size, set_size. cbn. apply Permutation_length, NoDup_Permutation.
  - apply NoDup_rangeKeys.
  - apply NoDup_elements.
  - intros k. by rewrite elem_of_rangeKeys, elem_of_elements.
Qed.

(** X7. When the old and the new target set have the same environments,
    whatever the order and the repetitions of the two slices, the
    reconciliation reads and writes nothing: it succeeds and the world,
    trace included, is as it was. *)
Theorem reconcile_same_targets (o : RangeOrder) (stackID : EdgeStackID)
    (oldSet newSet : list EndpointID) (w : World) :
  EndpointSet oldSet = EndpointSet newSet →
  reconcileRelations o stackID oldSet newSet w = (inr (), w).
Proof.
  intros Hsame. unfold reconcileRelations. cbv zeta. rewrite Hsame.
  assert (filter (λ id, id ∉ EndpointSet newSet) (EndpointSet newSet) = (∅ : gset Z))
    as ->.
  { apply set_eq. intros id. rewrite elem_of_filter. split; [by intros [??]|].
    by intros ?%not_elem_of_empty. }
  by rewrite !rangeKeys_empty.
Qed.

Lemma reconcile_same_targets_witness :
  reconcileRelations exOrder 1 [1; 2; 1] [2; 1] exWorld = (inr (), exWorld).
Proof.
  apply (reconcile_same_targets exOrder 1 [1; 2; 1] [2; 1] exWorld).
  apply (bool_decide_unpack _). by vm_compute.
Defined.

Lemma reconcileLoops_trace fails o stackID old new b t :
  (reconcileLoops fails o stackID old new b t).1.1 = true →
  ∃ evs, (reconcileLoops fails o stackID old new b t).2 = evs ++ t
         ∧ Forall (λ e, isRelationWrite e = true) evs
         ∧ length evs
           = (size (endpointsToRemove old new) + size (endpointsToAdd old new))%nat.
Proof.
  intros Hok. pose proof Hok as Hok'.
  rewrite reconcileLoops_ok, andb_true_iff, !bool_decide_eq_true in Hok'.
  destruct Hok' as [Hv1 Hv2].
  unfold reconcileLoops in *. cbv zeta in *.
  fold (endpointsToRemove old new) in *. fold (endpointsToAdd old new) in *.
  destruct (relationLoop_trace fails (withoutStack stackID)
              (rangeKeys (rangeRemove o) (endpointsToRemove old new)) b t)
    as (evs1 & Ht1 & Hevs1 & Hlen1).
  pose proof (relationLoop_passable fails (withoutStack stackID)
                (rangeKeys (rangeRemove o) (endpointsToRemove old new)) b t) as Hdom.
  destruct (relationLoop fails (withoutStack stackID) _ b t) as [[ok1 b1] t1] eqn:Hr1.
  cbn [fst snd] in *. destruct ok1; [|done].
  destruct (relationLoop_trace fails (withStack stackID)
              (rangeKeys (rangeAdd o) (endpointsToAdd old new)) b1 t1)
    as (evs2 & Ht2 & Hevs2 & Hlen2).
  exists (evs2 ++ evs1). split_and!.
  - by rewrite Ht2, Ht1, app_assoc.
  - by apply Forall_app.
  - rewrite length_app, Hlen1, Hlen2, Hdom, Hv1, Hv2, !length_rangeKeys. lia.
Qed.

(** X8. The reconciliation succeeds exactly when every environment that
    leaves or joins the target set has a relation record, which the store
    does not fail to update, whatever the order in which the two [range]
    loops visit the environments. When it succeeds, the relations it leaves
    do not depend on that order, and it has written one relation record for
    each of these environments and nothing else. When it fails, it fails
    in every order, with an internal server error: that of the read or of
    the update of a relation record, whichever the order meets first. *)
Theorem reconcile_order_irrelevant (o o' : RangeOrder) (stackID : EdgeStackID)
    (oldSet newSet : list EndpointID) (w : World) :
  let r := reconcileRelations o stackID oldSet newSet w in
  let r' := reconcileRelations o' stackID oldSet newSet w in
  (r.1 = inr ()
   ↔ ∀ id, (id ∈ oldSet ∧ id ∉ newSet) ∨ (id ∈ newSet ∧ id ∉ oldSet) →
           is_Some (relationsOf w !! id)
           ∧ StoreFaults.UpdateEndpointRelation (storeFaults (tx w)) id = None)
  ∧ (r.1 = inr () →
     r'.1 = inr ()
     ∧ relationsOf r'.2 = relationsOf r.2
     ∧ ∃ evs, trace r.2 = evs ++ trace w
              ∧ Forall (λ e, isRelationWrite e = true) evs
              ∧ length evs
                = (size (endpointsToRemove oldSet newSet)
                   + size (endpointsToAdd oldSet newSet))%nat)
  ∧ (∀ e, r.1 = inl e →
          StatusCode e = StatusInternalServerError
          ∧ ∃ e', r'.1 = inl e' ∧ StatusCode e' = StatusInternalServerError).
Proof.
  cbv zeta.
  rewrite (reconcileRelations_run o), (reconcileRelations_run o'). cbv zeta.
  cbn [fst snd]. rewrite !relationsOf_withRelations.
  pose proof (reconcileLoops_ok_iff (relationFaults w) o stackID oldSet newSet
                (relationsOf w) (trace w)) as Hok.
  pose proof (reconcileLoops_ok_iff (relationFaults w) o' stackID oldSet newSet
                (relationsOf w) (trace w)) as Hok'.
  assert (∀ id, id ∈ passable (relationFaults w) (relationsOf w)
                ↔ is_Some (relationsOf w !! id)
                  ∧ StoreFaults.UpdateEndpointRelation (storeFaults (tx w)) id = None)
    as Hdom by (intros; apply elem_of_passable).
  destruct (reconcileLoops (relationFaults w) o stackID oldSet newSet (relationsOf w)
              (trace w)).1.1 eqn:Hr;
    destruct (reconcileLoops (relationFaults w) o' stackID oldSet newSet (relationsOf w)
                (trace w)).1.1 eqn:Hr'.
  - split_and!; [|intros _|done].
    + split; [|done]. intros _ id Hid. apply Hdom. by apply Hok.
    + split; [done|]. split; [|by apply reconcileLoops_trace].
      apply map_eq. intros id.
      by rewrite !reconcileLoops_lookup_ok.
  - assert (false = true) by (apply Hok', Hok; done). done.
  - assert (false = true) by (apply Hok, Hok'; done). done.
  - split_and!; [|done|].
    + split; [done|]. intros Hall.
      assert (false = true) by (apply Hok; intros id Hid; by apply Hdom, Hall). done.
    + intros e [= <-]. split; [apply reconcileError_status|].
      eexists. split; [done|apply reconcileError_status].
Qed.

(** ** The handler *)

(** X9. The answer of the handler to a request. A request is answered
    with a stack only if its route variable is an identifier and its body a
    payload with content and at least one group; the stack returned is what
    the store then holds under its identifier, with the group list and the
    deployment type of the payload. A request with another route variable,
    body or payload is a bad request and nothing is done. An error never
    comes with a write of a stack record: the stack bucket is as it was. *)
Theorem edgeStackUpdate_answer (h : Handler) (noTx : bool) (o : RangeOrder)
    (routeID : option EdgeStackID) (body : option updateEdgeStackPayload.t)
    (w : World) :
  let r := edgeStackUpdate h noTx o routeID body w in
  match r.1 with
  | inr s' =>
      ∃ stackID payload groups,
        routeID = Some stackID ∧ body = Some payload
        ∧ updateEdgeStackPayload.StackFileContent payload ≠ ""
        ∧ updateEdgeStackPayload.EdgeGroups payload = Some groups ∧ groups ≠ []
        ∧ r = updateEdgeStack h o stackID payload w
        ∧ EdgeStack.EdgeGroups s' = groups
        ∧ EdgeStack.DeploymentType s' = updateEdgeStackPayload.DeploymentType payload
        ∧ stacksOf r.2 !! EdgeStack.ID s' = Some s'
  | inl e =>
      stacksOf r.2 = stacksOf w
      ∧ (match routeID, body with
         | Some _, Some payload =>
             updateEdgeStackPayload.StackFileContent payload = ""
             ∨ updateEdgeStackPayload.lenEdgeGroups payload = 0%nat
         | _, _ => True
         end →
         StatusCode e = StatusBadRequest ∧ r.2 = w)
  end.
Proof.
  cbv zeta. unfold edgeStackUpdate.
  destruct routeID as [stackID|]; [|done].
  destruct body as [payload|]; [|done].
  unfold updateEdgeStackPayload.Validate, updateEdgeStackPayload.lenEdgeGroups.
  destruct (decide (updateEdgeStackPayload.StackFileContent payload = ""))
    as [Hcontent|Hcontent]; [done|].
  destruct (updateEdgeStackPayload.EdgeGroups payload) as [groups|] eqn:Hgroups;
    [|done].
  destruct (decide (length groups = 0%nat)) as [Hlen|Hlen]; [done|].
  assert (groups ≠ []) as Hne by (by intros ->).
  assert ((if noTx then updateEdgeStack h o stackID payload
           else UpdateTx (updateEdgeStack h o stackID payload)) w
          = updateEdgeStack h o stackID payload w) as -> by (by destruct noTx).
  destruct (updateEdgeStack h o stackID payload w) as [[e|s'] w'] eqn:Hrun;
    cbn [fst snd].
  - apply updateEdgeStack_inl in Hrun as (Hst & _). split; [done|]. tauto.
  - exists stackID, payload, groups.
    pose proof (updateEdgeStack_inr _ _ _ _ _ _ _ Hrun)
      as (s & old & related & Hs & _ & _ & _ & _ & Hs' & Hst & _).
    split_and!; try done; rewrite Hs'.
    + unfold finalStack.
      destruct (versionFields_frame (updateEdgeStackPayload.Version payload)
                  (Z.of_nat (length related)) (preparedStack payload s))
        as (_ & -> & _).
      by apply preparedStack_EdgeGroups.
    + unfold finalStack.
      destruct (versionFields_frame (updateEdgeStackPayload.Version payload)
                  (Z.of_nat (length related)) (preparedStack payload s))
        as (_ & _ & -> & _).
      apply preparedStack_DeploymentType.
    + by rewrite finalStack_ID, Hst, Hs', lookup_insert_eq.
Qed.

(** * The other steps of the migration to the version 32 *)

(** ** The records of a bucket *)

Section bucketRecords.
Context {V : Type}.
Implicit Types (b : gmap Z V) (key : V → Z).

Lemma bucketRecords_Permutation b : bucketRecords b ≡ₚ (map_to_list b).*2.
Proof. unfold bucketRecords. by rewrite merge_sort_Permutation. Qed.

Lemma elem_of_bucketRecords b r : r ∈ bucketRecords b ↔ ∃ k, b !! k = Some r.
Proof.
  rewrite bucketRecords_Permutation, list_elem_of_fmap. split.
  - intros ([k r'] & -> & Hin%elem_of_map_to_list). by exists k.
  - intros [k Hk]. exists (k, r). split; [done|]. by apply elem_of_map_to_list.
Qed.

Lemma bucketRecords_keys key b :
  keyedBy key b → key <$> bucketRecords b ≡ₚ (map_to_list b).*1.
Proof.
  intros Hkeys. rewrite bucketRecords_Permutation, <-list_fmap_compose.
  assert (key ∘ snd <$> map_to_list b = fst <$> map_to_list b) as ->; [|done].
  apply Forall_fmap_ext, Forall_forall. intros [k r] Hin%elem_of_map_to_list.
  cbn. by apply Hkeys.
Qed.

Lemma NoDup_bucketRecords key b : keyedBy key b → NoDup (key <$> bucketRecords b).
Proof. intros Hkeys. rewrite bucketRecords_keys by done. apply NoDup_fst_map_to_list. Qed.

Lemma bucketRecords_key key b r k :
  keyedBy key b → r ∈ bucketRecords b → key r = k → b !! k = Some r.
Proof.
  intros Hkeys [k' Hr]%elem_of_bucketRecords <-. by rewrite (Hkeys _ _ Hr).
Qed.
End bucketRecords.

(** In a list with distinct keys, the record with a key is the first
    that [List.find] gets to. *)
Lemma find_NoDup {V} (key : V → Z) (l : list V) (r : V) :
  NoDup (key <$> l) → r ∈ l →
  List.find (λ x, bool_decide (key x = key r)) l = Some r.
Proof.
  induction l as [|x l IH]; [by intros _ ?%elem_of_nil|].
  rewrite fmap_cons, NoDup_cons. intros [Hx Hl] [->|Hr]%elem_of_cons; cbn.
  - by rewrite bool_decide_eq_true_2.
  - rewrite bool_decide_eq_false_2; [by apply IH|].
    intros Heq. apply Hx. rewrite Heq. by apply list_elem_of_fmap_2.
Qed.

Lemma find_None_key {V} (key : V → Z) (l : list V) (k : Z) :
  (∀ x, x ∈ l → key x ≠ k) → List.find (λ x, bool_decide (key x = k)) l = None.
Proof.
  induction l as [|x l IH]; [done|]. intros Hl. cbn.
  rewrite bool_decide_eq_false_2 by (apply Hl; left).
  apply IH. intros y Hy. apply Hl. by right.
Qed.

(** ** [updateRegistriesToDB32] *)

Lemma filterAccessPolicies_restrictedTo registryPolicies endpointPolicies :
  restrictedTo registryPolicies endpointPolicies
    (filterAccessPolicies registryPolicies endpointPolicies).
Proof.
  intros id policy. unfold filterAccessPolicies. by rewrite map_lookup_filter_Some.
Qed.

(** The accesses that the loop over the environments leaves: for each
    identifier, those of the last environment that has it. *)
Lemma registryAccessesLoop_lookup registry endpoints accesses id :
  registryAccessesLoop registry endpoints accesses !! id
  = match lastEndpoint id endpoints with
    | Some endpoint =>
        Some (mkRegistryAccessPolicies
                (filterAccessPolicies (RegistryRecord.UserAccessPolicies registry)
                   (EndpointRecord.UserAccessPolicies endpoint))
                (filterAccessPolicies (RegistryRecord.TeamAccessPolicies registry)
                   (EndpointRecord.TeamAccessPolicies endpoint))
                [])
    | None => accesses !! id
    end.
Proof.
  unfold lastEndpoint. revert accesses.
  induction endpoints as [|e rest IH]; intros accesses; cbn [registryAccessesLoop];
    [done|].
  cbv zeta. rewrite IH.
  destruct (decide (EndpointRecord.ID e = id)) as [Heq|Hne].
  - rewrite filter_cons_True by done.
    destruct (filter _ rest) as [|e' l] eqn:Hf; cbn [last].
    + by rewrite Heq, lookup_insert_eq.
    + by destruct (last (e' :: l)) eqn:Hlast; [|by apply last_None in Hlast].
  - rewrite filter_cons_False by done.
    destruct (last (filter _ rest)); [done|]. by rewrite lookup_insert_ne.
Qed.

(** The accesses depend on the registry through its two maps of access
    policies only. *)
Lemma registryAccessesLoop_setRegistryAccesses v registry endpoints accesses :
  registryAccessesLoop (RegistryRecord.setRegistryAccesses v registry) endpoints accesses
  = registryAccessesLoop registry endpoints accesses.
Proof.
  revert accesses. induction endpoints as [|e rest IH]; intros accesses; [done|].
  cbn [registryAccessesLoop]. cbv zeta. by rewrite IH.
Qed.

(** The record that the migration writes for a registry. *)
Lemma registriesLoop_frame c registries endpoints m :
  endpointBucket32 (registriesLoop c registries endpoints m) = endpointBucket32 m
  ∧ resourceControlBucket (registriesLoop c registries endpoints m)
    = resourceControlBucket m
  ∧ settingsBucket (registriesLoop c registries endpoints m) = settingsBucket m.
Proof.
  revert m. induction registries as [|r rest IH]; intros m; [done|].
  cbn [registriesLoop]. cbv zeta.
  destruct (IH (registryService32.UpdateRegistry c
                  (RegistryRecord.ID
                     (RegistryRecord.setRegistryAccesses
                        (registryAccessesLoop r endpoints ∅) r))
                  (RegistryRecord.setRegistryAccesses
                     (registryAccessesLoop r endpoints ∅) r) m).2)
    as (-> & -> & ->).
  unfold registryService32.UpdateRegistry. by destruct (UpdateRegistry_fails c _).
Qed.

Lemma registriesLoop_lookup c registries endpoints m k :
  NoDup (RegistryRecord.ID <$> registries) →
  registryBucket32 (registriesLoop c registries endpoints m) !! k
  = match List.find (λ r, bool_decide (RegistryRecord.ID r = k)) registries with
    | Some registry =>
        match UpdateRegistry_fails c k with
        | Some _ => registryBucket32 m !! k
        | None =>
            Some (RegistryRecord.setRegistryAccesses
                    (registryAccessesLoop registry endpoints ∅) registry)
        end
    | None => registryBucket32 m !! k
    end.
Proof.
  revert m. induction registries as [|r rest IH]; intros m; [done|].
  rewrite fmap_cons, NoDup_cons. intros [Hr Hrest].
  cbn [registriesLoop List.find]. cbv zeta. rewrite IH by done.
  change (RegistryRecord.ID (RegistryRecord.setRegistryAccesses _ r))
    with (RegistryRecord.ID r).
  unfold registryService32.UpdateRegistry.
  destruct (decide (RegistryRecord.ID r = k)) as [Heq|Hne].
  - rewrite bool_decide_eq_true_2 by done.
    rewrite find_None_key; cycle 1.
    { intros x Hx Hk. apply Hr. rewrite Heq, <-Hk. by apply list_elem_of_fmap_2. }
    rewrite Heq. destruct (UpdateRegistry_fails c k); [done|].
    cbn. by rewrite lookup_insert_eq.
  - rewrite bool_decide_eq_false_2 by done.
    assert (registryBucket32
              (match UpdateRegistry_fails c (RegistryRecord.ID r) with
               | Some err => (Some err, m)
               | None =>
                   (None,
                    setRegistryBucket32
                      (<[RegistryRecord.ID r :=
                           RegistryRecord.setRegistryAccesses
                             (registryAccessesLoop r endpoints ∅) r]>
                         (registryBucket32 m)) m)
               end).2 !! k = registryBucket32 m !! k) as ->; [|done].
    destruct (UpdateRegistry_fails c (RegistryRecord.ID r)); [done|].
    cbn. by rewrite lookup_insert_ne.
Qed.

(** A run whose two listings succeed. *)
Lemma updateRegistriesToDB32_lookup c m k :
  Registries_fails c = None → Endpoints_fails c = None →
  keyedBy RegistryRecord.ID (registryBucket32 m) →
  registryBucket32 (updateRegistriesToDB32 c m).2 !! k
  = match registryBucket32 m !! k with
    | Some registry =>
        Some (match UpdateRegistry_fails c k with
              | Some _ => registry
              | None =>
                  RegistryRecord.setRegistryAccesses
                    (registryAccessesLoop registry (endpointBucket32 m) ∅) registry
              end)
    | None => None
    end.
Proof.
  intros Hr He Hkeys.
  unfold updateRegistriesToDB32, registryService32.Registries,
    endpointService32.Endpoints. rewrite Hr, He. cbn [snd].
  rewrite registriesLoop_lookup by (by apply NoDup_bucketRecords).
  destruct (registryBucket32 m !! k) as [registry|] eqn:Hk.
  - assert (registry ∈ bucketRecords (registryBucket32 m)) as Hin
      by (apply elem_of_bucketRecords; by exists k).
    pose proof (find_NoDup RegistryRecord.ID _ registry
                  (NoDup_bucketRecords _ _ Hkeys) Hin) as Hfind.
    rewrite (Hkeys _ _ Hk) in Hfind. rewrite Hfind.
    by destruct (UpdateRegistry_fails c k).
  - rewrite find_None_key; [done|].
    intros x Hx Hxk. by rewrite (bucketRecords_key _ _ _ _ Hkeys Hx Hxk) in Hk.
Qed.

Lemma MigratorDB32_eq m m' :
  registryBucket32 m = registryBucket32 m' →
  endpointBucket32 m = endpointBucket32 m' →
  resourceControlBucket m = resourceControlBucket m' →
  settingsBucket m = settingsBucket m' →
  m = m'.
Proof. destruct m, m'; cbn; by intros -> -> -> ->. Qed.

Lemma updateRegistriesToDB32_frame c m :
  Registries_fails c = None → Endpoints_fails c = None →
  (updateRegistriesToDB32 c m).1 = None
  ∧ endpointBucket32 (updateRegistriesToDB32 c m).2 = endpointBucket32 m
  ∧ resourceControlBucket (updateRegistriesToDB32 c m).2 = resourceControlBucket m
  ∧ settingsBucket (updateRegistriesToDB32 c m).2 = settingsBucket m.
Proof.
  intros Hr He.
  unfold updateRegistriesToDB32, registryService32.Registries,
    endpointService32.Endpoints. rewrite Hr, He. cbn [fst snd].
  split; [done|]. apply registriesLoop_frame.
Qed.

(** X10. A run of [updateRegistriesToDB32] whose two listings succeed
    returns no error and gives every registry, in place of the accesses it
    had, one entry of accesses for each environment: with no namespace, and
    with the policies that the registry had for those users, and for those
    teams, that have a policy on the environment; so nobody gains access to
    a registry. A registry whose update fails is as it was. No registry is
    created or deleted, and the other fields of the registries, the
    environments, the resource controls and the settings are as they
    were. *)
Theorem updateRegistriesToDB32_restricts (c : Services32) (m : MigratorDB32) :
  Registries_fails c = None → Endpoints_fails c = None →
  keyedBy RegistryRecord.ID (registryBucket32 m) →
  let r := updateRegistriesToDB32 c m in
  r.1 = None
  ∧ endpointBucket32 r.2 = endpointBucket32 m
  ∧ resourceControlBucket r.2 = resourceControlBucket m
  ∧ settingsBucket r.2 = settingsBucket m
  ∧ dom (registryBucket32 r.2) = dom (registryBucket32 m)
  ∧ ∀ k registry,
      registryBucket32 m !! k = Some registry →
      ∃ registry',
        registryBucket32 r.2 !! k = Some registry'
        ∧ registry'
          = RegistryRecord.setRegistryAccesses (RegistryRecord.RegistryAccesses registry')
              registry
        ∧ (is_Some (UpdateRegistry_fails c k) → registry' = registry)
        ∧ (UpdateRegistry_fails c k = None →
           ∀ id,
             match lastEndpoint id (endpointBucket32 m) with
             | None => RegistryRecord.RegistryAccesses registry' !! id = None
             | Some endpoint =>
                 ∃ p, RegistryRecord.RegistryAccesses registry' !! id = Some p
                      ∧ Namespaces p = []
                      ∧ restrictedTo (RegistryRecord.UserAccessPolicies registry)
                          (EndpointRecord.UserAccessPolicies endpoint)
                          (RegistryUserAccessPolicies p)
                      ∧ restrictedTo (RegistryRecord.TeamAccessPolicies registry)
                          (EndpointRecord.TeamAccessPolicies endpoint)
                          (RegistryTeamAccessPolicies p)
             end).
Proof.
  intros Hr He Hkeys. cbv zeta.
  pose proof (λ k, updateRegistriesToDB32_lookup c m k Hr He Hkeys) as Hlookup.
  destruct (updateRegistriesToDB32_frame c m Hr He) as (Hnone & Heps & Hrcs & Hsettings).
  split_and!; try done.
  - apply set_eq. intros k. rewrite !elem_of_dom, Hlookup.
    destruct (registryBucket32 m !! k); [|done]. split; by eexists.
  - intros k registry Hk. rewrite Hlookup, Hk.
    destruct registry as [[] ? ?].
    destruct (UpdateRegistry_fails c k) as [err|] eqn:Hfail.
    + eexists. split; [done|]. split; [done|]. split; [done|]. done.
    + eexists. split; [done|]. split; [done|]. split; [by intros [? [=]]|].
      intros _ id. cbn [RegistryRecord.RegistryAccesses RegistryRecord.setRegistryAccesses
        RegistryRecord.registry Registry.setRegistryAccesses Registry.RegistryAccesses].
      rewrite registryAccessesLoop_lookup.
      destruct (lastEndpoint id (endpointBucket32 m)) as [endpoint|];
        [|apply lookup_empty].
      eexists. split; [done|]. split; [done|].
      split; apply filterAccessPolicies_restrictedTo.
Qed.

Lemma updateRegistriesToDB32_restricts_witness :
  let m' := (updateRegistriesToDB32 exServices32 exStore32).2 in
  ∃ registry' p,
    registryBucket32 m' !! 1 = Some registry'
    ∧ RegistryRecord.RegistryAccesses registry' !! 1 = Some p
    ∧ dom (RegistryUserAccessPolicies p) = {[ 10 ]}
    ∧ RegistryTeamAccessPolicies p = ∅.
Proof.
  cbv zeta.
  assert (keyedBy RegistryRecord.ID (registryBucket32 exStore32)) as Hkeys.
  { intros k r Hk. apply elem_of_map_to_list in Hk. vm_compute in Hk.
    repeat (apply elem_of_cons in Hk as [[= -> ->]|Hk]; [done|]).
    by apply elem_of_nil in Hk. }
  destruct (updateRegistriesToDB32_restricts exServices32 exStore32 eq_refl eq_refl Hkeys)
    as (_ & _ & _ & _ & _ & Hregs).
  destruct (Hregs 1 (exRegistryRecord 1 "Quay" [10; 11] [20]) eq_refl)
    as (registry' & Hk & _ & _ & Haccess).
  specialize (Haccess eq_refl 1). cbn in Haccess.
  destruct Haccess as (p & Hp & _ & _ & _).
  exists registry', p. split; [done|]. split; [done|].
  vm_compute in Hk. injection Hk as <-. vm_compute in Hp. injection Hp as <-.
  split; by vm_compute.
Defined.

(** X11. [updateRegistriesToDB32] returns the error of the first of its
    two listings that fails, and then writes nothing; it never returns the
    error of an update of a registry. It is idempotent: a second run leaves
    the store as the first run left it, and returns what the first run
    returned. *)
Theorem updateRegistriesToDB32_idempotent (c : Services32) (m : MigratorDB32) :
  keyedBy RegistryRecord.ID (registryBucket32 m) →
  let r := updateRegistriesToDB32 c m in
  r.1 = match Registries_fails c with
        | Some err => Some err
        | None => Endpoints_fails c
        end
  ∧ (is_Some r.1 → r.2 = m)
  ∧ updateRegistriesToDB32 c r.2 = r.
Proof.
  intros Hkeys. cbv zeta.
  destruct (Registries_fails c) as [err|] eqn:Hr.
  { unfold updateRegistriesToDB32, registryService32.Registries. by rewrite Hr. }
  destruct (Endpoints_fails c) as [err|] eqn:He.
  { unfold updateRegistriesToDB32, registryService32.Registries,
      endpointService32.Endpoints. by rewrite Hr, He. }
  destruct (updateRegistriesToDB32_frame c m Hr He) as (Hnone & Heps & Hrcs & Hsettings).
  pose proof (λ k, updateRegistriesToDB32_lookup c m k Hr He Hkeys) as Hlookup.
  destruct (updateRegistriesToDB32 c m) as [res m1] eqn:Hrun. cbn [fst snd] in *.
  subst res. split; [done|]. split; [by intros [? [=]]|].
  assert (keyedBy RegistryRecord.ID (registryBucket32 m1)) as Hkeys1.
  { intros k r1. rewrite Hlookup.
    destruct (registryBucket32 m !! k) as [registry|] eqn:Hk; [|done].
    intros [= <-]. rewrite <-(Hkeys _ _ Hk).
    by destruct (UpdateRegistry_fails c _). }
  destruct (updateRegistriesToDB32_frame c m1 Hr He)
    as (Hnone2 & Heps2 & Hrcs2 & Hsettings2).
  pose proof (λ k, updateRegistriesToDB32_lookup c m1 k Hr He Hkeys1) as Hlookup2.
  destruct (updateRegistriesToDB32 c m1) as [res m2] eqn:Hrun2. cbn [fst snd] in *.
  subst res. f_equal. apply MigratorDB32_eq; try congruence.
  apply map_eq. intros k. rewrite Hlookup2, Hlookup.
  destruct (registryBucket32 m !! k) as [registry|]; [|done].
  destruct (UpdateRegistry_fails c k); [done|].
  rewrite registryAccessesLoop_setRegistryAccesses, Heps. by destruct registry as [[] ? ?].
Qed.

Lemma updateRegistriesToDB32_idempotent_witness :
  let r := updateRegistriesToDB32 exServices32 exStore32 in
  r.1 = None ∧ r.2 ≠ exStore32 ∧ updateRegistriesToDB32 exServices32 r.2 = r.
Proof.
  cbv zeta.
  assert (keyedBy RegistryRecord.ID (registryBucket32 exStore32)) as Hkeys.
  { intros k r Hk. apply elem_of_map_to_list in Hk. vm_compute in Hk.
    repeat (apply elem_of_cons in Hk as [[= -> ->]|Hk]; [done|]).
    by apply elem_of_nil in Hk. }
  destruct (updateRegistriesToDB32_idempotent exServices32 exStore32 Hkeys)
    as (Hnone & _ & Hidem).
  split; [exact Hnone|]. split; [|exact Hidem].
  intros Heq. apply (f_equal (λ m, RegistryRecord.RegistryAccesses
                                     <$> registryBucket32 m !! 1)) in Heq.
  by vm_compute in Heq.
Defined.

(** ** [findResourcesToUpdateForDB32] *)

Lemma findResourcesLoop_lookup dockerID volumes toUpdate vrc id :
  findResourcesLoop dockerID volumes toUpdate vrc !! id
  = match last (matchingVolumes vrc id volumes) with
    | Some volume => Some (newResourceID volume dockerID)
    | None => toUpdate !! id
    end.
Proof.
  unfold matchingVolumes. revert toUpdate.
  induction volumes as [|volume rest IH]; intros toUpdate; [done|].
  cbn [findResourcesLoop]. cbv zeta. fold (legacyResourceID volume).
  destruct (vrc !! legacyResourceID volume) as [rc|] eqn:Hrc.
  - rewrite IH. destruct (decide (ResourceControl.ID rc = id)) as [Heq|Hne].
    + rewrite filter_cons_True by (by rewrite Hrc, <-Heq).
      destruct (filter _ rest) as [|v l] eqn:Hf; cbn [last].
      * by rewrite Heq, lookup_insert_eq.
      * by destruct (last (v :: l)) eqn:Hlast; [|by apply last_None in Hlast].
    + rewrite filter_cons_False by (rewrite Hrc; cbn; congruence).
      destruct (last (filter _ rest)); [done|]. by rewrite lookup_insert_ne.
  - rewrite IH. by rewrite filter_cons_False by (by rewrite Hrc).
Qed.

(** X12. [findResourcesToUpdateForDB32] gives a new resource identifier,
    the name of the volume and the identifier of the engine, to every
    resource control of the map whose resource identifier is the name and
    the creation time of a volume of the list; when several volumes match
    a resource control, the last one wins. The entries of [toUpdate] for
    the other resource controls are as they were, and a nil or empty volume
    list changes nothing. *)
Theorem findResourcesToUpdateForDB32_lookup (dockerID : string)
    (volumesData : VolumeListOKBody.t) (toUpdate : gmap Z string)
    (volumeResourceControls : gmap string ResourceControl.t) (id : ResourceControlID) :
  let volumes := default [] (VolumeListOKBody.Volumes volumesData) in
  findResourcesToUpdateForDB32 dockerID volumesData toUpdate volumeResourceControls !! id
  = match last (matchingVolumes volumeResourceControls id volumes) with
    | Some volume => Some (Volume.Name volume +:+ "_" +:+ dockerID)
    | None => toUpdate !! id
    end
  ∧ (volumes = [] →
     findResourcesToUpdateForDB32 dockerID volumesData toUpdate volumeResourceControls
     = toUpdate).
Proof.
  cbv zeta. unfold findResourcesToUpdateForDB32. cbv zeta. split.
  - apply findResourcesLoop_lookup.
  - by intros ->.
Qed.

(** ** [updateVolumeResourceControlToDB32] *)

(** The map of the resource controls of volumes. *)
Lemma volumeControlsLoop_Some l acc rid rc :
  volumeControlsLoop l acc !! rid = Some rc →
  acc !! rid = Some rc
  ∨ (rc ∈ l ∧ ResourceControl.Type_ rc = VolumeResourceControl
     ∧ ResourceControl.ResourceID rc = rid).
Proof.
  revert acc. induction l as [|x l IH]; intros acc; cbn [volumeControlsLoop]; [by left|].
  intros [Hacc|(Hin & Htype & Hrid)]%IH.
  - destruct (decide (ResourceControl.Type_ x = VolumeResourceControl)); [|by left].
    destruct (decide (ResourceControl.ResourceID x = rid)) as [Heq|Hne].
    + rewrite Heq, lookup_insert_eq in Hacc. injection Hacc as <-.
      right. split; [left|]; done.
    + rewrite lookup_insert_ne in Hacc by done. by left.
  - right. split; [by right|done].
Qed.

Lemma volumeControlsLoop_elem l acc rc :
  (∀ rc', rc' ∈ l → ResourceControl.Type_ rc' = VolumeResourceControl →
          ResourceControl.ResourceID rc' = ResourceControl.ResourceID rc → rc' = rc) →
  acc !! ResourceControl.ResourceID rc = Some rc
  ∨ (rc ∈ l ∧ ResourceControl.Type_ rc = VolumeResourceControl) →
  volumeControlsLoop l acc !! ResourceControl.ResourceID rc = Some rc.
Proof.
  revert acc. induction l as [|x l IH]; intros acc Huniq Hrc; cbn [volumeControlsLoop].
  - destruct Hrc as [Hacc|[Hin _]]; [done|by apply elem_of_nil in Hin].
  - apply IH; [intros rc' Hin; apply Huniq; by right|].
    destruct Hrc as [Hacc|[Hin Htype]].
    + left. destruct (decide (ResourceControl.Type_ x = VolumeResourceControl)); [|done].
      destruct (decide (ResourceControl.ResourceID x = ResourceControl.ResourceID rc))
        as [Heq|Hne].
      * rewrite (Huniq x) by (done || left). rewrite lookup_insert_eq. done.
      * by rewrite lookup_insert_ne.
    + apply elem_of_cons in Hin as [->|Hin]; [|right; done].
      left. rewrite decide_True by done. apply lookup_insert_eq.
Qed.

(** The new resource identifiers that the loop over the environments
    finds. *)
Lemma snapshotsLoop_step c endpoint rest toUpdate vrc :
  snapshotsLoop c (endpoint :: rest) toUpdate vrc
  = snapshotsLoop c rest
      (match last (EndpointRecord.Snapshots endpoint) with
       | Some snapshot =>
           if IsDockerEndpoint c (EndpointRecord.endpoint endpoint)
           then match FetchDockerID c snapshot with
                | inr dockerID =>
                    match VolumeListOKBody.Volumes
                            (DockerSnapshot.SnapshotRaw_Volumes snapshot) with
                    | Some volumes => findResourcesLoop dockerID volumes toUpdate vrc
                    | None => toUpdate
                    end
                | inl _ => toUpdate
                end
           else toUpdate
       | None => toUpdate
       end) vrc.
Proof.
  cbn [snapshotsLoop]. cbv zeta. rewrite last_lookup.
  replace (pred (length (EndpointRecord.Snapshots endpoint)))
    with (length (EndpointRecord.Snapshots endpoint) - 1)%nat by lia.
  destruct (IsDockerEndpoint c (EndpointRecord.endpoint endpoint)); cbn [negb].
  - destruct (decide (length (EndpointRecord.Snapshots endpoint) = 0%nat)) as [Hlen|Hlen].
    + rewrite lookup_ge_None_2; [done|]. lia.
    + destruct (EndpointRecord.Snapshots endpoint !! _) as [snapshot|]; [|done].
      destruct (FetchDockerID c snapshot) as [|dockerID]; [done|].
      unfold findResourcesToUpdateForDB32.
      by destruct (VolumeListOKBody.Volumes _).
  - by destruct (EndpointRecord.Snapshots endpoint !! _).
Qed.

Lemma snapshotVolume_cons c endpoint rest volume dockerID :
  snapshotVolume c (endpoint :: rest) volume dockerID
  ↔ (∃ snapshot volumes,
       IsDockerEndpoint c (EndpointRecord.endpoint endpoint) = true
       ∧ last (EndpointRecord.Snapshots endpoint) = Some snapshot
       ∧ FetchDockerID c snapshot = inr dockerID
       ∧ VolumeListOKBody.Volumes (DockerSnapshot.SnapshotRaw_Volumes snapshot)
         = Some volumes
       ∧ volume ∈ volumes)
    ∨ snapshotVolume c rest volume dockerID.
Proof.
  unfold snapshotVolume. split.
  - intros (e & snapshot & volumes & [->|Hin]%elem_of_cons & H).
    + left. by exists snapshot, volumes.
    + right. by exists e, snapshot, volumes.
  - intros [(snapshot & volumes & H)|(e & snapshot & volumes & Hin & H)].
    + exists endpoint, snapshot, volumes. split; [left|]; done.
    + exists e, snapshot, volumes. split; [by right|done].
Qed.

Lemma snapshotsLoop_Some c endpoints toUpdate vrc id v :
  snapshotsLoop c endpoints toUpdate vrc !! id = Some v →
  toUpdate !! id = Some v
  ∨ ∃ volume dockerID rc,
      snapshotVolume c endpoints volume dockerID
      ∧ vrc !! legacyResourceID volume = Some rc
      ∧ ResourceControl.ID rc = id
      ∧ v = newResourceID volume dockerID.
Proof.
  revert toUpdate. induction endpoints as [|endpoint rest IH]; intros toUpdate;
    [by left|].
  rewrite snapshotsLoop_step.
  intros [Hacc|(volume & dockerID & rc & Hvol & Hrest)]%IH; cycle 1.
  { right. exists volume, dockerID, rc. split; [|done].
    apply snapshotVolume_cons. by right. }
  destruct (last (EndpointRecord.Snapshots endpoint)) as [snapshot|] eqn:Hlast;
    [|by left].
  destruct (IsDockerEndpoint c (EndpointRecord.endpoint endpoint)) eqn:Hdocker;
    [|by left].
  destruct (FetchDockerID c snapshot) as [|dockerID] eqn:Hid; [by left|].
  destruct (VolumeListOKBody.Volumes (DockerSnapshot.SnapshotRaw_Volumes snapshot))
    as [volumes|] eqn:Hvolumes; [|by left].
  rewrite findResourcesLoop_lookup in Hacc.
  destruct (last (matchingVolumes vrc id volumes)) as [volume|] eqn:Hmatch; [|by left].
  injection Hacc as <-. right.
  apply last_Some_elem_of, list_elem_of_filter in Hmatch as [Hrc Hin].
  destruct (vrc !! legacyResourceID volume) as [rc|] eqn:Hvrc; [|done].
  injection Hrc as Hrc.
  exists volume, dockerID, rc. split_and!; try done.
  apply snapshotVolume_cons. left. by exists snapshot, volumes.
Qed.

Lemma snapshotsLoop_is_Some c endpoints toUpdate vrc id :
  is_Some (toUpdate !! id)
  ∨ (∃ volume dockerID rc,
       snapshotVolume c endpoints volume dockerID
       ∧ vrc !! legacyResourceID volume = Some rc
       ∧ ResourceControl.ID rc = id) →
  is_Some (snapshotsLoop c endpoints toUpdate vrc !! id).
Proof.
  revert toUpdate. induction endpoints as [|endpoint rest IH]; intros toUpdate.
  - intros [Hacc|(volume & dockerID & rc & (e & ? & ? & Hin & _) & _)]; [done|].
    by apply elem_of_nil in Hin.
  - rewrite snapshotsLoop_step. intros Hid. apply IH.
    assert (∀ dockerID volumes,
              is_Some (toUpdate !! id)
              ∨ (∃ volume rc, volume ∈ volumes
                              ∧ vrc !! legacyResourceID volume = Some rc
                              ∧ ResourceControl.ID rc = id) →
              is_Some (findResourcesLoop dockerID volumes toUpdate vrc !! id)) as Hfind.
    { intros dockerID volumes Hcase. rewrite findResourcesLoop_lookup.
      destruct (last (matchingVolumes vrc id volumes)) as [volume|] eqn:Hmatch;
        [by eexists|].
      destruct Hcase as [Hacc|(volume & rc & Hin & Hrc & Hrcid)]; [done|].
      apply last_None in Hmatch.
      assert (volume ∈ matchingVolumes vrc id volumes) as Helem
        by (apply list_elem_of_filter; by rewrite Hrc, <-Hrcid).
      rewrite Hmatch in Helem. by apply elem_of_nil in Helem. }
    destruct Hid as [Hacc|(volume & dockerID & rc & Hvol & Hrc & Hrcid)].
    + left.
      destruct (last (EndpointRecord.Snapshots endpoint)) as [snapshot|]; [|done].
      destruct (IsDockerEndpoint c (EndpointRecord.endpoint endpoint)); [|done].
      destruct (FetchDockerID c snapshot) as [|dockerID]; [done|].
      destruct (VolumeListOKBody.Volumes (DockerSnapshot.SnapshotRaw_Volumes snapshot));
        [|done].
      apply Hfind. by left.
    + apply snapshotVolume_cons in Hvol
        as [(snapshot & volumes & Hdocker & Hlast & Hid & Hvolumes & Hin)|Hvol].
      * left. rewrite Hlast, Hdocker, Hid, Hvolumes. apply Hfind.
        right. by exists volume, rc.
      * right. by exists volume, dockerID, rc.
Qed.

(** The order of a [range] loop over a map: whatever the preference
    list, the loop visits exactly the entries of the map, each key once. *)
Section rangeEntries.
Context `{Countable K} {V : Type}.
Implicit Types (prio : list K) (m : gmap K V).

Lemma elem_of_rangeEntries prio m k v :
  (k, v) ∈ rangeEntries prio m ↔ m !! k = Some v.
Proof.
  unfold rangeEntries.
  rewrite elem_of_app, list_elem_of_omap, list_elem_of_filter, elem_of_map_to_list.
  split.
  - intros [(k' & _ & Hk)|[_ Hk]]; [|done].
    destruct (m !! k') as [v'|] eqn:Hk'; [|done]. by injection Hk as <- <-.
  - intros Hk. destruct (decide (k ∈ prio)) as [Hin|Hout].
    + left. exists k. split; [by apply elem_of_remove_dups|]. by rewrite Hk.
    + right. done.
Qed.

Lemma rangeEntries_keys prio m :
  (rangeEntries prio m).*1
  = filter (λ k, is_Some (m !! k)) (remove_dups prio)
    ++ (filter (λ kv, kv.1 ∉ prio) (map_to_list m)).*1.
Proof.
  unfold rangeEntries. rewrite fmap_app. f_equal.
  induction (remove_dups prio) as [|k l IH]; [done|].
  destruct (m !! k) as [v|] eqn:Hk.
  - rewrite filter_cons_True by (by rewrite Hk). simpl. rewrite Hk. simpl. f_equal. apply IH.
  - rewrite filter_cons_False by (rewrite Hk; by intros [??]). simpl. rewrite Hk.
    apply IH.
Qed.

Lemma NoDup_rangeEntries prio m : NoDup (rangeEntries prio m).*1.
Proof.
  rewrite rangeEntries_keys. apply NoDup_app. split_and!.
  - apply NoDup_filter, NoDup_remove_dups.
  - intros k [_ Hin]%list_elem_of_filter
      ([k' v] & -> & [Hout _]%list_elem_of_filter)%list_elem_of_fmap.
    by apply (elem_of_remove_dups prio) in Hin.
  - apply (NoDup_fmap_fst _); [|apply NoDup_filter, NoDup_map_to_list].
    intros k v1 v2 [_ H1%elem_of_map_to_list]%list_elem_of_filter
      [_ H2%elem_of_map_to_list]%list_elem_of_filter.
    congruence.
Qed.
End rangeEntries.

(** The last loop: what it leaves in the bucket of the resource
    controls. *)
Lemma controlsLoop_frame c l toUpdate m :
  registryBucket32 (controlsLoop c l toUpdate m).2 = registryBucket32 m
  ∧ endpointBucket32 (controlsLoop c l toUpdate m).2 = endpointBucket32 m
  ∧ settingsBucket (controlsLoop c l toUpdate m).2 = settingsBucket m.
Proof.
  revert m. induction l as [|rc l IH]; intros m; [done|].
  cbn [controlsLoop]. cbv zeta.
  unfold resourceControlService.UpdateResourceControl,
    resourceControlService.DeleteResourceControl.
  destruct (toUpdate !! ResourceControl.ID rc) as [new|].
  - destruct (UpdateResourceControl_fails c _); [done|].
    by destruct (IH (setResourceControlBucket
                       (<[ResourceControl.ID (ResourceControl.setResourceID new rc) :=
                            ResourceControl.setResourceID new rc]>
                          (resourceControlBucket m)) m)) as (-> & -> & ->).
  - destruct (DeleteResourceControl_fails c _); [done|].
    by destruct (IH (setResourceControlBucket
                       (delete (ResourceControl.ID rc) (resourceControlBucket m)) m))
      as (-> & -> & ->).
Qed.

Lemma controlsLoop_lookup c l toUpdate m :
  NoDup (ResourceControl.ID <$> l) →
  let r := controlsLoop c l toUpdate m in
  (∀ k, resourceControlBucket r.2 !! k = resourceControlBucket m !! k
        ∨ ∃ rc, rc ∈ l ∧ ResourceControl.ID rc = k
                ∧ resourceControlBucket r.2 !! k = migratedControl toUpdate rc)
  ∧ (r.1 = None →
     ∀ rc, rc ∈ l →
           resourceControlBucket r.2 !! ResourceControl.ID rc
           = migratedControl toUpdate rc).
Proof.
  cbv zeta. revert m. induction l as [|rc l IH]; intros m.
  { intros _. split; [by left|]. by intros _ rc ?%elem_of_nil. }
  rewrite fmap_cons, NoDup_cons. intros [Hrc Hl].
  assert (∀ m1 : MigratorDB32,
            resourceControlBucket m1 !! ResourceControl.ID rc
            = migratedControl toUpdate rc →
            (∀ k, k ≠ ResourceControl.ID rc →
                  resourceControlBucket m1 !! k = resourceControlBucket m !! k) →
            (∀ k, resourceControlBucket (controlsLoop c l toUpdate m1).2 !! k
                  = resourceControlBucket m !! k
                  ∨ ∃ rc', rc' ∈ rc :: l ∧ ResourceControl.ID rc' = k
                           ∧ resourceControlBucket (controlsLoop c l toUpdate m1).2 !! k
                             = migratedControl toUpdate rc')
            ∧ ((controlsLoop c l toUpdate m1).1 = None →
               ∀ rc', rc' ∈ rc :: l →
                      resourceControlBucket (controlsLoop c l toUpdate m1).2
                        !! ResourceControl.ID rc'
                      = migratedControl toUpdate rc')) as Hstep.
  { intros m1 Hhead Hother. destruct (IH m1 Hl) as [Hany Hok].
    assert (resourceControlBucket (controlsLoop c l toUpdate m1).2
              !! ResourceControl.ID rc = migratedControl toUpdate rc) as Hhead'.
    { destruct (Hany (ResourceControl.ID rc)) as [->|(rc' & Hin & Hid & _)]; [done|].
      destruct Hrc. rewrite <-Hid. by apply list_elem_of_fmap_2. }
    split.
    - intros k. destruct (decide (k = ResourceControl.ID rc)) as [->|Hne].
      + right. exists rc. split; [left|]; done.
      + destruct (Hany k) as [Hk|(rc' & Hin & Hid & Hk)].
        * left. by rewrite Hk, Hother.
        * right. exists rc'. split; [by right|done].
    - intros Hnone rc' [->|Hin]%elem_of_cons; [done|]. by apply Hok. }
  cbn [controlsLoop]. cbv zeta.
  unfold resourceControlService.UpdateResourceControl,
    resourceControlService.DeleteResourceControl.
  destruct (toUpdate !! ResourceControl.ID rc) as [new|] eqn:Hnew.
  - destruct (UpdateResourceControl_fails c _); [split; [by left|done]|].
    apply Hstep.
    + unfold migratedControl. rewrite Hnew. cbn. apply lookup_insert_eq.
    + intros k Hk. cbn. by rewrite lookup_insert_ne.
  - destruct (DeleteResourceControl_fails c _); [split; [by left|done]|].
    apply Hstep.
    + unfold migratedControl. rewrite Hnew. cbn. apply lookup_delete_eq.
    + intros k Hk. cbn. by rewrite lookup_delete_ne.
Qed.

(** The error of the last loop is that of the first update or deletion
    that fails; the resource control that it fails on is as it was. *)
Lemma controlsLoop_error c l toUpdate m e :
  NoDup (ResourceControl.ID <$> l) →
  (controlsLoop c l toUpdate m).1 = Some e →
  ∃ rc err,
    rc ∈ l ∧ Unwrap e = err
    ∧ resourceControlBucket (controlsLoop c l toUpdate m).2 !! ResourceControl.ID rc
      = resourceControlBucket m !! ResourceControl.ID rc
    ∧ match toUpdate !! ResourceControl.ID rc with
      | Some _ =>
          UpdateResourceControl_fails c (ResourceControl.ID rc) = Some err
          ∧ wrappedMessage e
            = "failed updating resource control " +:+ pretty (ResourceControl.ID rc)
      | None =>
          DeleteResourceControl_fails c (ResourceControl.ID rc) = Some err
          ∧ wrappedMessage e
            = "failed deleting resource control " +:+ pretty (ResourceControl.ID rc)
      end.
Proof.
  revert m. induction l as [|rc l IH]; intros m; [done|].
  rewrite fmap_cons, NoDup_cons. intros [Hrc Hl].
  cbn [controlsLoop]. cbv zeta.
  unfold resourceControlService.UpdateResourceControl,
    resourceControlService.DeleteResourceControl.
  destruct (toUpdate !! ResourceControl.ID rc) as [new|] eqn:Hnew.
  - destruct (UpdateResourceControl_fails c _) as [err|] eqn:Hfail.
    + intros [= <-]. exists rc, err. split; [left|]. split; [done|].
      by rewrite Hnew.
    + intros (rc' & err & Hin & Herr & Hk & H)%IH; [|done].
      exists rc', err. split; [by right|]. split; [done|]. split; [|done].
      rewrite Hk. cbn. apply lookup_insert_ne.
      intros Heq. apply Hrc. cbn in Heq. rewrite Heq. by apply list_elem_of_fmap_2.
  - destruct (DeleteResourceControl_fails c _) as [err|] eqn:Hfail.
    + intros [= <-]. exists rc, err. split; [left|]. split; [done|].
      by rewrite Hnew.
    + intros (rc' & err & Hin & Herr & Hk & H)%IH; [|done].
      exists rc', err. split; [by right|]. split; [done|]. split; [|done].
      rewrite Hk. cbn. apply lookup_delete_ne.
      intros Heq. apply Hrc. rewrite Heq. by apply list_elem_of_fmap_2.
Qed.

(** When no update and no deletion fails, the last loop gets to its
    end. *)
Lemma controlsLoop_None c l toUpdate m :
  (controlsLoop c l toUpdate m).1 = None
  ∨ ∃ rc, rc ∈ l
          ∧ (is_Some (UpdateResourceControl_fails c (ResourceControl.ID rc))
             ∨ is_Some (DeleteResourceControl_fails c (ResourceControl.ID rc))).
Proof.
  revert m. induction l as [|rc l IH]; intros m; [by left|].
  cbn [controlsLoop]. cbv zeta.
  unfold resourceControlService.UpdateResourceControl,
    resourceControlService.DeleteResourceControl.
  destruct (toUpdate !! ResourceControl.ID rc) as [new|].
  - destruct (UpdateResourceControl_fails c _) as [err|] eqn:Hfail.
    + right. exists rc. split; [left|]. left. cbn in Hfail. by rewrite Hfail.
    + destruct (IH (setResourceControlBucket
                      (<[ResourceControl.ID (ResourceControl.setResourceID new rc) :=
                           ResourceControl.setResourceID new rc]>
                         (resourceControlBucket m)) m)) as [Hok|(rc' & Hin & H)].
      * by left.
      * right. exists rc'. split; [by right|done].
  - destruct (DeleteResourceControl_fails c _) as [err|] eqn:Hfail.
    + right. exists rc. split; [left|]. right. by rewrite Hfail.
    + destruct (IH (setResourceControlBucket
                      (delete (ResourceControl.ID rc) (resourceControlBucket m)) m))
        as [Hok|(rc' & Hin & H)].
      * by left.
      * right. exists rc'. split; [by right|done].
Qed.

(** The resource controls that the last loop ranges over. *)
Section volumeControls.
Variables (order : list string) (b : gmap Z ResourceControl.t).
Hypothesis keys : keyedBy ResourceControl.ID b.

Local Abbreviation vrc := (volumeControlsLoop (bucketRecords b) ∅).

Lemma volumeControls_Some rid rc :
  vrc !! rid = Some rc →
  b !! ResourceControl.ID rc = Some rc
  ∧ ResourceControl.Type_ rc = VolumeResourceControl
  ∧ ResourceControl.ResourceID rc = rid.
Proof.
  intros [Hempty|(Hin & Htype & Hrid)]%volumeControlsLoop_Some; [done|].
  split; [|done]. by eapply bucketRecords_key.
Qed.

Lemma volumeControls_entries rc :
  rc ∈ (rangeEntries order vrc).*2 ↔ ∃ rid, vrc !! rid = Some rc.
Proof.
  rewrite list_elem_of_fmap. split.
  - intros ([rid rc'] & -> & Hin%elem_of_rangeEntries). by exists rid.
  - intros [rid Hrid]. exists (rid, rc). split; [done|]. by apply elem_of_rangeEntries.
Qed.

Lemma NoDup_volumeControls : NoDup (ResourceControl.ID <$> (rangeEntries order vrc).*2).
Proof.
  rewrite <-list_fmap_compose. apply NoDup_fmap_2_strong.
  - intros [rid1 rc1] [rid2 rc2] H1%elem_of_rangeEntries H2%elem_of_rangeEntries Hid.
    cbn in Hid.
    apply volumeControls_Some in H1 as (Hb1 & _ & <-).
    apply volumeControls_Some in H2 as (Hb2 & _ & <-).
    rewrite Hid in Hb1. by assert (rc1 = rc2) as -> by congruence.
  - eapply NoDup_fmap_1, NoDup_rangeEntries.
Qed.

Lemma volumeControls_elem k rc :
  distinctVolumes b →
  b !! k = Some rc → ResourceControl.Type_ rc = VolumeResourceControl →
  vrc !! ResourceControl.ResourceID rc = Some rc.
Proof.
  intros Hdistinct Hk Htype. apply volumeControlsLoop_elem.
  - intros rc' [k' Hk']%elem_of_bucketRecords Htype' Hrid.
    assert (k' = k) as -> by (by eapply Hdistinct). congruence.
  - right. split; [|done]. apply elem_of_bucketRecords. by exists k.
Qed.
End volumeControls.

(** A run of the migration of the resource controls of volumes: its
    result is that of the last loop, unless a listing fails. *)
Lemma updateVolumeResourceControlToDB32_run c order m :
  Endpoints_fails c = None → ResourceControls_fails c = None →
  updateVolumeResourceControlToDB32 c order m
  = controlsLoop c
      (rangeEntries order
         (volumeControlsLoop (bucketRecords (resourceControlBucket m)) ∅)).*2
      (snapshotsLoop c (endpointBucket32 m) ∅
         (volumeControlsLoop (bucketRecords (resourceControlBucket m)) ∅))
      m.
Proof.
  intros He Hr.
  unfold updateVolumeResourceControlToDB32, endpointService32.Endpoints,
    resourceControlService.ResourceControls. by rewrite He, Hr.
Qed.

Lemma updateVolumeResourceControlToDB32_listing c order m :
  is_Some (Endpoints_fails c) ∨ is_Some (ResourceControls_fails c) →
  (updateVolumeResourceControlToDB32 c order m).2 = m
  ∧ (updateVolumeResourceControlToDB32 c order m).1
    = match Endpoints_fails c with
      | Some err => Some (Errorf "failed fetching environments" err)
      | None => Errorf "failed fetching resource controls" <$> ResourceControls_fails c
      end.
Proof.
  unfold updateVolumeResourceControlToDB32, endpointService32.Endpoints,
    resourceControlService.ResourceControls.
  destruct (Endpoints_fails c); [done|].
  destruct (ResourceControls_fails c); [done|]. by intros [[? [=]]|[? [=]]].
Qed.

(** X13. Whatever the order of its last loop, and whether it succeeds or
    fails part way, the migration of the resource controls of volumes
    leaves alone every resource control that is not one of a volume, creates
    no resource control, and changes neither the identifier nor the type of
    a resource control; the registries, the environments and the settings
    are as they were. The keys of the bucket are the identifiers of its
    records. *)
Theorem updateVolumeResourceControlToDB32_frame (c : Services32) (order : list string)
    (m : MigratorDB32) :
  keyedBy ResourceControl.ID (resourceControlBucket m) →
  let m' := (updateVolumeResourceControlToDB32 c order m).2 in
  registryBucket32 m' = registryBucket32 m
  ∧ endpointBucket32 m' = endpointBucket32 m
  ∧ settingsBucket m' = settingsBucket m
  ∧ dom (resourceControlBucket m') ⊆ dom (resourceControlBucket m)
  ∧ ∀ k rc,
      resourceControlBucket m !! k = Some rc →
      (ResourceControl.Type_ rc ≠ VolumeResourceControl →
       resourceControlBucket m' !! k = Some rc)
      ∧ (∀ rc', resourceControlBucket m' !! k = Some rc' →
                ResourceControl.ID rc' = ResourceControl.ID rc
                ∧ ResourceControl.Type_ rc' = ResourceControl.Type_ rc).
Proof.
  intros Hkeys. cbv zeta.
  destruct (Endpoints_fails c) as [err|] eqn:He.
  { destruct (updateVolumeResourceControlToDB32_listing c order m) as [-> _].
    - left. by rewrite He.
    - split_and!; try done. intros k rc Hk. split; [done|]. intros rc' Hk'.
      by assert (rc' = rc) as -> by congruence. }
  destruct (ResourceControls_fails c) as [err|] eqn:Hr.
  { destruct (updateVolumeResourceControlToDB32_listing c order m) as [-> _].
    - right. by rewrite Hr.
    - split_and!; try done. intros k rc Hk. split; [done|]. intros rc' Hk'.
      by assert (rc' = rc) as -> by congruence. }
  rewrite updateVolumeResourceControlToDB32_run by done.
  match goal with
  | |- context [controlsLoop c ?l ?t m] =>
      destruct (controlsLoop_frame c l t m) as (Hregs & Heps & Hsettings);
      destruct (controlsLoop_lookup c l t m) as [Hany _];
      [by apply NoDup_volumeControls|];
      set (m' := (controlsLoop c l t m).2) in *
  end.
  assert (∀ k, resourceControlBucket m' !! k = resourceControlBucket m !! k
               ∨ ∃ rc new, resourceControlBucket m !! k = Some rc
                           ∧ ResourceControl.Type_ rc = VolumeResourceControl
                           ∧ (resourceControlBucket m' !! k = None
                              ∨ resourceControlBucket m' !! k
                                = Some (ResourceControl.setResourceID new rc)))
    as Hcases.
  { intros k. destruct (Hany k) as [Hk|(rc & Hin & Hid & Hk)]; [by left|].
    right. apply volumeControls_entries in Hin as [rid Hrid].
    apply (volumeControls_Some _ Hkeys) in Hrid as (Hb & Htype & _).
    rewrite Hid in Hb. unfold migratedControl in Hk.
    destruct (_ !! ResourceControl.ID rc) as [new|].
    - exists rc, new. split_and!; try done. by right.
    - exists rc, "". split_and!; try done. by left. }
  split_and!; try done.
  - intros k. rewrite !elem_of_dom. intros Hk'.
    destruct (Hcases k) as [<-|(rc & _ & -> & _)]; [done|by eexists].
  - intros k rc Hk. split.
    + intros Htype. destruct (Hcases k) as [->|(rc0 & _ & Hk0 & Htype0 & _)]; [done|].
      congruence.
    + intros rc' Hk'. destruct (Hcases k) as [Heq|(rc0 & new & Hk0 & _ & [Hnone|Hsome])].
      * by assert (rc' = rc) as -> by congruence.
      * congruence.
      * assert (rc0 = rc) as -> by congruence.
        by assert (rc' = ResourceControl.setResourceID new rc) as -> by congruence.
Qed.

Lemma keyedBy_exStore32 : keyedBy ResourceControl.ID (resourceControlBucket exStore32).
Proof.
  intros k r Hk. apply elem_of_map_to_list in Hk. vm_compute in Hk.
  repeat (apply elem_of_cons in Hk as [[= -> ->]|Hk]; [done|]).
  by apply elem_of_nil in Hk.
Qed.

Lemma updateVolumeResourceControlToDB32_frame_witness :
  let m' := (updateVolumeResourceControlToDB32 exServices32 [] exStore32).2 in
  resourceControlBucket m' !! 3 = Some (ResourceControl.mk 3 "web" 1)
  ∧ registryBucket32 m' = registryBucket32 exStore32.
Proof.
  cbv zeta.
  destruct (updateVolumeResourceControlToDB32_frame exServices32 [] exStore32
              keyedBy_exStore32) as (Hregs & _ & _ & _ & Hrcs).
  split; [|exact Hregs].
  by apply (Hrcs 3 (ResourceControl.mk 3 "web" 1) eq_refl).
Defined.

(** X14. After a run of the migration that returns no error, a resource
    control of a volume that the map [volumeResourceControls] holds for its
    resource identifier has the new resource identifier of that volume, its
    name and the identifier of its engine, when its resource identifier was
    the name and the creation time of a volume in the last snapshot of a
    Docker environment whose engine identifier can be fetched; otherwise it
    has been deleted, as are all those of the environments without a
    snapshot. The map holds every resource control of a volume when their
    resource identifiers are distinct; a resource control of a volume that
    another one with the same resource identifier has replaced in the map is
    left as it was, with its old resource identifier. The keys of the bucket
    are the identifiers of its records. *)
Theorem updateVolumeResourceControlToDB32_migrates (c : Services32)
    (order : list string) (m : MigratorDB32) :
  keyedBy ResourceControl.ID (resourceControlBucket m) →
  (updateVolumeResourceControlToDB32 c order m).1 = None →
  let m' := (updateVolumeResourceControlToDB32 c order m).2 in
  let volumeResourceControls :=
    volumeControlsLoop (bucketRecords (resourceControlBucket m)) ∅ in
  ∀ k rc,
    resourceControlBucket m !! k = Some rc →
    ResourceControl.Type_ rc = VolumeResourceControl →
    (volumeResourceControls !! ResourceControl.ResourceID rc = Some rc →
     (∃ volume dockerID,
        snapshotVolume c (endpointBucket32 m) volume dockerID
        ∧ ResourceControl.ResourceID rc = Volume.Name volume +:+ Volume.CreatedAt volume
        ∧ resourceControlBucket m' !! k
          = Some (ResourceControl.setResourceID
                    (Volume.Name volume +:+ "_" +:+ dockerID) rc))
     ∨ ((∀ volume dockerID,
           snapshotVolume c (endpointBucket32 m) volume dockerID →
           ResourceControl.ResourceID rc
           ≠ Volume.Name volume +:+ Volume.CreatedAt volume)
        ∧ resourceControlBucket m' !! k = None))
    ∧ (volumeResourceControls !! ResourceControl.ResourceID rc ≠ Some rc →
       resourceControlBucket m' !! k = Some rc)
    ∧ (distinctVolumes (resourceControlBucket m) →
       volumeResourceControls !! ResourceControl.ResourceID rc = Some rc).
Proof.
  intros Hkeys Hnone. cbv zeta. intros k rc Hk Htype.
  destruct (Endpoints_fails c) as [err|] eqn:He.
  { destruct (updateVolumeResourceControlToDB32_listing c order m) as [_ Herr].
    - left. by rewrite He.
    - rewrite Hnone, He in Herr. done. }
  destruct (ResourceControls_fails c) as [err|] eqn:Hr.
  { destruct (updateVolumeResourceControlToDB32_listing c order m) as [_ Herr].
    - right. by rewrite Hr.
    - rewrite Hnone, He, Hr in Herr. done. }
  rewrite updateVolumeResourceControlToDB32_run in * by done.
  assert (ResourceControl.ID rc = k) as Hid by (by apply Hkeys).
  match type of Hnone with
  | (controlsLoop c ?l ?t m).1 = None =>
      destruct (controlsLoop_lookup c l t m) as [Hframe Hok];
      [by apply NoDup_volumeControls|];
      specialize (Hok Hnone rc)
  end.
  split_and!.
  - intros Hvrc. rewrite Hid in Hok. rewrite Hok; cycle 1.
    { apply volumeControls_entries. by eexists. }
    unfold migratedControl. rewrite Hid.
    destruct (snapshotsLoop c (endpointBucket32 m) ∅ _ !! k) as [v|] eqn:Hv.
    + left. apply snapshotsLoop_Some in Hv
        as [Hempty|(volume & dockerID & rc0 & Hvol & Hrc0 & Hid0 & ->)]; [done|].
      apply (volumeControls_Some _ Hkeys) in Hrc0 as (Hb0 & _ & Hrid0).
      rewrite Hid0 in Hb0. assert (rc0 = rc) as -> by congruence.
      by exists volume, dockerID.
    + right. split; [|done]. intros volume dockerID Hvol Hrid.
      assert (is_Some (snapshotsLoop c (endpointBucket32 m) ∅
                         (volumeControlsLoop (bucketRecords (resourceControlBucket m)) ∅)
                         !! k)) as [v Hv'].
      { apply snapshotsLoop_is_Some. right. exists volume, dockerID, rc.
        split; [done|]. split; [|done]. unfold legacyResourceID. by rewrite <-Hrid. }
      congruence.
  - intros Hvrc. destruct (Hframe k) as [->|(rc' & Hin & Hid' & _)]; [done|].
    exfalso. apply Hvrc.
    apply volumeControls_entries in Hin as [rid Hrid].
    pose proof (volumeControls_Some _ Hkeys _ _ Hrid) as (Hb' & _ & Hrid').
    rewrite Hid' in Hb'. assert (rc' = rc) as -> by congruence.
    by rewrite Hrid'.
  - intros Hdistinct. by apply (volumeControls_elem _ k rc Hdistinct Hk Htype).
Qed.

Lemma distinctVolumes_exStore32 : distinctVolumes (resourceControlBucket exStore32).
Proof.
  intros k1 k2 rc1 rc2 H1 H2.
  apply elem_of_map_to_list in H1, H2. vm_compute in H1, H2.
  repeat (apply elem_of_cons in H1 as [[= -> ->]|H1];
          [repeat (apply elem_of_cons in H2 as [[= -> ->]|H2]; [done|]);
           by apply elem_of_nil in H2|]).
  by apply elem_of_nil in H1.
Qed.

Lemma updateVolumeResourceControlToDB32_migrates_witness :
  let m' := (updateVolumeResourceControlToDB32 exServices32 [] exStore32).2 in
  resourceControlBucket m' !! 1
  = Some (ResourceControl.mk 1 "data_engine-1" VolumeResourceControl)
  ∧ resourceControlBucket m' !! 2 = None.
Proof.
  cbv zeta.
  pose proof (updateVolumeResourceControlToDB32_migrates exServices32 [] exStore32
                keyedBy_exStore32 eq_refl) as Hrun.
  cbv zeta in Hrun. split.
  - destruct (Hrun 1 (ResourceControl.mk 1 "data2021-01-01" VolumeResourceControl)
                eq_refl eq_refl) as (Hmap & _ & Hall).
    destruct (Hmap (Hall distinctVolumes_exStore32))
      as [(volume & dockerID & _ & _ & Hk)|[_ Hk]];
      by vm_compute in Hk |- *.
  - destruct (Hrun 2 (ResourceControl.mk 2 "gone2020-12-31" VolumeResourceControl)
                eq_refl eq_refl) as (Hmap & _ & Hall).
    destruct (Hmap (Hall distinctVolumes_exStore32))
      as [(volume & dockerID & _ & _ & Hk)|[_ Hk]];
      by vm_compute in Hk |- *.
Defined.

(** Two resource controls for the same volume: the map holds the one
    listed last, which gets the new resource identifier; the other one
    stays, with its old resource identifier. *)
Example updateVolumeResourceControlToDB32_shared :
  let r := updateVolumeResourceControlToDB32 exServices32 [] exStore32Shared in
  r.1 = None
  ∧ resourceControlBucket r.2 !! 1
    = Some (ResourceControl.mk 1 "data2021-01-01" VolumeResourceControl)
  ∧ resourceControlBucket r.2 !! 2
    = Some (ResourceControl.mk 2 "data_engine-1" VolumeResourceControl).
Proof. by vm_compute. Qed.

(** X15. The errors of the migration of the resource controls of
    volumes. When no call of the store fails it returns no error. An error
    that it returns wraps the error of the store: that of the listing of the
    environments or of the resource controls, and then nothing was written;
    or that of the update, or the deletion, of a resource control of a
    volume, with a message that names the identifier, and that resource
    control is as it was. *)
Theorem updateVolumeResourceControlToDB32_errors (c : Services32) (order : list string)
    (m : MigratorDB32) :
  keyedBy ResourceControl.ID (resourceControlBucket m) →
  let r := updateVolumeResourceControlToDB32 c order m in
  (Endpoints_fails c = None → ResourceControls_fails c = None →
   (∀ k, UpdateResourceControl_fails c k = None ∧ DeleteResourceControl_fails c k = None) →
   r.1 = None)
  ∧ ∀ e, r.1 = Some e →
      match Endpoints_fails c, ResourceControls_fails c with
      | Some err, _ => e = Errorf "failed fetching environments" err ∧ r.2 = m
      | None, Some err => e = Errorf "failed fetching resource controls" err ∧ r.2 = m
      | None, None =>
          ∃ k rc,
            resourceControlBucket m !! k = Some rc
            ∧ ResourceControl.Type_ rc = VolumeResourceControl
            ∧ resourceControlBucket r.2 !! k = Some rc
            ∧ ((wrappedMessage e = "failed updating resource control " +:+ pretty k
                ∧ UpdateResourceControl_fails c k = Some (Unwrap e))
               ∨ (wrappedMessage e = "failed deleting resource control " +:+ pretty k
                  ∧ DeleteResourceControl_fails c k = Some (Unwrap e)))
      end.
Proof.
  intros Hkeys. cbv zeta. split.
  - intros He Hr Hok. rewrite updateVolumeResourceControlToDB32_run by done.
    match goal with
    | |- (controlsLoop c ?l ?t m).1 = None =>
        destruct (controlsLoop_None c l t m) as [Hnone|(rc & _ & [Hfail|Hfail])]
    end; [done| |].
    + destruct (Hok (ResourceControl.ID rc)) as [Hupdate _].
      rewrite Hupdate in Hfail. by destruct Hfail.
    + destruct (Hok (ResourceControl.ID rc)) as [_ Hdelete].
      rewrite Hdelete in Hfail. by destruct Hfail.
  - intros e Herr.
    destruct (Endpoints_fails c) as [err|] eqn:He.
    { destruct (updateVolumeResourceControlToDB32_listing c order m) as [Hm Hres].
      - left. by rewrite He.
      - rewrite He in Hres. split; [congruence|done]. }
    destruct (ResourceControls_fails c) as [err|] eqn:Hr.
    { destruct (updateVolumeResourceControlToDB32_listing c order m) as [Hm Hres].
      - right. by rewrite Hr.
      - rewrite He, Hr in Hres. split; [cbn in Hres; congruence|done]. }
    rewrite updateVolumeResourceControlToDB32_run in * by done.
    apply controlsLoop_error in Herr as (rc & err & Hin & Hunwrap & Hsame & Hfail);
      [|by apply NoDup_volumeControls].
    apply volumeControls_entries in Hin as [rid Hrid].
    apply (volumeControls_Some _ Hkeys) in Hrid as (Hb & Htype & _).
    exists (ResourceControl.ID rc), rc. rewrite Hsame. split_and!; try done.
    match type of Hfail with match ?x with _ => _ end => destruct x end.
    + left. destruct Hfail as [Hfail Hmsg]. split; [done|]. by rewrite Hunwrap.
    + right. destruct Hfail as [Hfail Hmsg]. split; [done|]. by rewrite Hunwrap.
Qed.

Lemma updateVolumeResourceControlToDB32_errors_witness :
  let r := updateVolumeResourceControlToDB32 exFailingServices32 [] exStore32 in
  ∃ e, r.1 = Some e
       ∧ wrappedMessage e = "failed deleting resource control 2"
       ∧ Unwrap e = errorString "read-only store"
       ∧ resourceControlBucket r.2 !! 2 = resourceControlBucket exStore32 !! 2.
Proof.
  cbv zeta. eexists. split; [by vm_compute|].
  destruct (updateVolumeResourceControlToDB32_errors exFailingServices32 []
              exStore32 keyedBy_exStore32) as [_ Herr].
  specialize (Herr _ eq_refl). cbn in Herr.
  destruct Herr as (k & rc & Hk & _ & Hk' & _).
  split; [by vm_compute|]. split; [by vm_compute|]. by vm_compute.
Defined.

(** * The order of the last loop of [updateVolumeResourceControlToDB32] *)

Lemma controlsLoop_None_iff c l toUpdate m :
  (controlsLoop c l toUpdate m).1 = None
  ↔ ∀ rc, rc ∈ l → controlFails c toUpdate rc = None.
Proof.
  revert m. induction l as [|rc l IH]; intros m.
  { split; [by intros _ rc ?%elem_of_nil|done]. }
  cbn [controlsLoop]. cbv zeta.
  unfold resourceControlService.UpdateResourceControl,
    resourceControlService.DeleteResourceControl.
  assert ((∀ rc', rc' ∈ rc :: l → controlFails c toUpdate rc' = None)
          ↔ controlFails c toUpdate rc = None
            ∧ ∀ rc', rc' ∈ l → controlFails c toUpdate rc' = None) as ->.
  { split.
    - intros Hall. split; [apply Hall; left|]. intros rc' Hin. apply Hall. by right.
    - intros [Hrc Hall] rc' [->|Hin]%elem_of_cons; [done|by apply Hall]. }
  unfold controlFails at 1.
  destruct (toUpdate !! ResourceControl.ID rc) as [new|].
  - cbn [ResourceControl.ID ResourceControl.setResourceID].
    destruct (UpdateResourceControl_fails c (ResourceControl.ID rc)).
    + split; [done|by intros [? _]].
    + rewrite IH. tauto.
  - destruct (DeleteResourceControl_fails c (ResourceControl.ID rc)).
    + split; [done|by intros [? _]].
    + rewrite IH. tauto.
Qed.

(** X16. The order in which the last loop ranges over the map of the
    resource controls of volumes does not show in a run that returns no
    error: a run in any other order returns no error either and leaves the
    same store. The keys of the bucket are the identifiers of its
    records. *)
Theorem updateVolumeResourceControlToDB32_order (c : Services32)
    (order order' : list string) (m : MigratorDB32) :
  keyedBy ResourceControl.ID (resourceControlBucket m) →
  (updateVolumeResourceControlToDB32 c order m).1 = None →
  updateVolumeResourceControlToDB32 c order' m
  = updateVolumeResourceControlToDB32 c order m.
Proof.
  intros Hkeys Hnone.
  destruct (Endpoints_fails c) as [err|] eqn:He.
  { destruct (updateVolumeResourceControlToDB32_listing c order m) as [_ Herr].
    - left. by rewrite He.
    - rewrite Hnone, He in Herr. done. }
  destruct (ResourceControls_fails c) as [err|] eqn:Hr.
  { destruct (updateVolumeResourceControlToDB32_listing c order m) as [_ Herr].
    - right. by rewrite Hr.
    - rewrite Hnone, He, Hr in Herr. done. }
  rewrite !updateVolumeResourceControlToDB32_run in * by done.
  set (vrc := volumeControlsLoop (bucketRecords (resourceControlBucket m)) ∅) in *.
  set (toUpdate := snapshotsLoop c (endpointBucket32 m) ∅ vrc) in *.
  assert (∀ rc, rc ∈ (rangeEntries order' vrc).*2 ↔ rc ∈ (rangeEntries order vrc).*2)
    as Hentries.
  { intros rc. unfold vrc. by rewrite !volumeControls_entries. }
  assert ((controlsLoop c (rangeEntries order' vrc).*2 toUpdate m).1 = None) as Hnone'.
  { pose proof (proj1 (controlsLoop_None_iff c _ toUpdate m) Hnone) as Hall.
    apply controlsLoop_None_iff. intros rc Hin. apply Hall. by apply Hentries. }
  destruct (controlsLoop_frame c (rangeEntries order vrc).*2 toUpdate m)
    as (Hregs & Heps & Hsettings).
  destruct (controlsLoop_frame c (rangeEntries order' vrc).*2 toUpdate m)
    as (Hregs' & Heps' & Hsettings').
  destruct (controlsLoop_lookup c (rangeEntries order vrc).*2 toUpdate m)
    as [Hany Hok]; [by apply NoDup_volumeControls|].
  destruct (controlsLoop_lookup c (rangeEntries order' vrc).*2 toUpdate m)
    as [Hany' Hok']; [by apply NoDup_volumeControls|].
  specialize (Hok Hnone). specialize (Hok' Hnone').
  destruct (controlsLoop c (rangeEntries order vrc).*2 toUpdate m) as [res m1].
  destruct (controlsLoop c (rangeEntries order' vrc).*2 toUpdate m) as [res' m1'].
  cbn [fst snd] in *. subst res res'. f_equal.
  apply MigratorDB32_eq; try congruence.
  apply map_eq. intros k.
  destruct (Hany' k) as [Hk'|(rc' & Hin' & <- & Hk')].
  - destruct (Hany k) as [Hk|(rc & Hin & <- & Hk)]; [congruence|].
    rewrite Hok' by (by apply Hentries). by rewrite Hok.
  - rewrite Hk'. by rewrite Hok by (by apply Hentries).
Qed.

Lemma updateVolumeResourceControlToDB32_order_witness :
  updateVolumeResourceControlToDB32 exServices32 ["gone2020-12-31"] exStore32
  = updateVolumeResourceControlToDB32 exServices32 [] exStore32.
Proof.
  apply (updateVolumeResourceControlToDB32_order exServices32 []
           ["gone2020-12-31"] exStore32 keyedBy_exStore32).
  reflexivity.
Defined.

(** * The registry that [updateDockerhubToDB32] creates *)

Lemma dedupLoop_no_entry registry registries m :
  (∀ r, r ∈ registries → sameMigratedEntry registry r = false) →
  dedupLoop registry registries false m = (false, m).
Proof.
  induction registries as [|r rest IH]; intros Hnone; [done|].
  cbn [dedupLoop]. rewrite (Hnone r) by left.
  apply IH. intros r' Hr'. apply Hnone. by right.
Qed.

Lemma defaultAccessPolicies_defaultRoleFor policies :
  defaultRoleFor policies (defaultAccessPolicies policies).
Proof.
  intros id. unfold defaultAccessPolicies. rewrite lookup_fmap.
  by destruct (policies !! id).
Qed.

Lemma accessLoop_lookup endpoints accesses id :
  accessLoop endpoints accesses !! id
  = match lastContainerEndpoint id endpoints with
    | Some endpoint =>
        Some (mkRegistryAccessPolicies
                (defaultAccessPolicies (Endpoint.UserAccessPolicies endpoint))
                (defaultAccessPolicies (Endpoint.TeamAccessPolicies endpoint)) [])
    | None => accesses !! id
    end.
Proof.
  unfold lastContainerEndpoint. revert accesses.
  induction endpoints as [|e rest IH]; intros accesses; [done|].
  cbn [accessLoop].
  assert (bool_decide (Endpoint.Type_ e ≠ KubernetesLocalEnvironment)
          && bool_decide (Endpoint.Type_ e ≠ AgentOnKubernetesEnvironment)
          && bool_decide (Endpoint.Type_ e ≠ EdgeAgentOnKubernetesEnvironment)
          = negb (IsKubernetesEndpoint e)) as ->.
  { unfold IsKubernetesEndpoint. by destruct (Endpoint.Type_ e). }
  destruct (IsKubernetesEndpoint e) eqn:Hkube; cbn [negb].
  - rewrite IH, filter_cons_False; [done|]. rewrite Hkube. by intros [_ ?].
  - rewrite IH. destruct (decide (Endpoint.ID e = id)) as [Heq|Hne].
    + rewrite filter_cons_True by done.
      destruct (filter _ rest) as [|e' l] eqn:Hf; cbn [last].
      * by rewrite Heq, lookup_insert_eq.
      * by destruct (last (e' :: l)) eqn:Hlast; [|by apply last_None in Hlast].
    + rewrite filter_cons_False by (by intros [? _]).
      destruct (last (filter _ rest)); [done|]. by rewrite lookup_insert_ne.
Qed.

(** X17. When the DockerHub settings authenticate and the migration
    finds no entry of an earlier run, because no registry is one or because
    the registries cannot be listed, [updateDockerhubToDB32] lists the
    environments and creates a registry. When the listing or the creation
    fails it returns that error and the store is as it was. Otherwise it
    returns no error, adds one registry, as the last one, and changes nothing
    else: the DockerHub registry "Dockerhub (authenticated - migrated)" at
    "docker.io", with the credentials of the settings. Its accesses have one
    entry for each environment that is not an orchestrator, with no
    namespace, which gives the role 0 to every user and every team that has
    a policy on the environment and to nobody else; an orchestrator gets no
    entry. *)
Theorem updateDockerhubToDB32_creates_registry (m : Migrator) (dockerhub : DockerHub.t) :
  dockerhubService.DockerHub m = inr dockerhub →
  DockerHub.Authentication dockerhub = true →
  (∀ registries, registryService.Registries m = inr registries →
     ∀ r, r ∈ registries → isMigratedEntry r = false) →
  let run := updateDockerhubToDB32 m in
  match endpointService.Endpoints m, MigratorFaults.Create (migratorFaults m) with
  | inl err, _ => run = (Some err, m)
  | inr _, Some err => run = (Some err, m)
  | inr endpoints, None =>
      run.1 = None
      ∧ dockerhubBucket run.2 = dockerhubBucket m
      ∧ migratorEndpoints run.2 = migratorEndpoints m
      ∧ ∃ created,
          registryBucket run.2 = registryBucket m ++ [created]
          ∧ Registry.Type_ created = DockerHubRegistry
          ∧ Registry.Name created = "Dockerhub (authenticated - migrated)"
          ∧ Registry.URL created = "docker.io"
          ∧ Registry.Authentication created = true
          ∧ Registry.Username created = DockerHub.Username dockerhub
          ∧ Registry.Password created = DockerHub.Password dockerhub
          ∧ ∀ id,
              match lastContainerEndpoint id endpoints with
              | None => Registry.RegistryAccesses created !! id = None
              | Some endpoint =>
                  ∃ p, Registry.RegistryAccesses created !! id = Some p
                       ∧ Namespaces p = []
                       ∧ defaultRoleFor (Endpoint.UserAccessPolicies endpoint)
                           (RegistryUserAccessPolicies p)
                       ∧ defaultRoleFor (Endpoint.TeamAccessPolicies endpoint)
                           (RegistryTeamAccessPolicies p)
              end
  end.
Proof.
  intros Hd Hauth Hnone. cbv zeta.
  unfold updateDockerhubToDB32. rewrite Hd, Hauth. cbn [negb]. cbv zeta.
  assert (∀ registry,
            (∀ r, sameMigratedEntry registry r = isMigratedEntry r) →
            dedupLoop registry
              match registryService.Registries m with
              | inr registries => registries
              | inl _ => []
              end false m = (false, m)) as Hloop.
  { intros registry Hregistry.
    destruct (registryService.Registries m) as [err|registries]; [done|].
    apply dedupLoop_no_entry. intros r Hr. rewrite Hregistry. by eapply Hnone. }
  rewrite Hloop by apply sameMigratedEntry_isMigratedEntry.
  destruct (endpointService.Endpoints m) as [err|endpoints]; [done|].
  unfold registryService.Create.
  destruct (MigratorFaults.Create (migratorFaults m)) as [err|]; [done|].
  cbn [fst snd dockerhubBucket migratorEndpoints registryBucket].
  split_and!; try done. eexists. split; [done|].
  cbn [Registry.setID Registry.setRegistryAccesses Registry.ID Registry.Type_
         Registry.Name Registry.URL Registry.Authentication Registry.Username
         Registry.Password Registry.RegistryAccesses].
  split_and!; try done.
  intros id. rewrite accessLoop_lookup.
  destruct (lastContainerEndpoint id endpoints) as [endpoint|]; [|apply lookup_empty].
  eexists. split; [done|]. split; [done|].
  split; apply defaultAccessPolicies_defaultRoleFor.
Qed.

Lemma updateDockerhubToDB32_creates_registry_witness :
  ∃ created,
    registryBucket (updateDockerhubToDB32 exFreshMigrator).2
    = [exOtherRegistry 1; created]
    ∧ Registry.Username created = "user"
    ∧ dom (Registry.RegistryAccesses created) = {[ 1; 3 ]}.
Proof.
  pose proof (updateDockerhubToDB32_creates_registry exFreshMigrator
                (DockerHub.mk true "user" "secret") eq_refl eq_refl) as Hrun.
  cbv zeta in Hrun.
  destruct Hrun as (_ & _ & _ & created & Hb & _ & _ & _ & _ & Huser & _ & Haccess).
  { intros registries [= <-] r Hr. cbn in Hr.
    apply list_elem_of_singleton in Hr as ->. done. }
  exists created. split; [exact Hb|]. split; [exact Huser|].
  apply set_eq. intros id. rewrite elem_of_dom.
  specialize (Haccess id).
  destruct (decide (id = 1)) as [->|H1]; [|destruct (decide (id = 3)) as [->|H3]].
  - cbn in Haccess. destruct Haccess as (p & -> & _).
    split; [intros _|by eexists]. apply elem_of_union. left. by apply elem_of_singleton.
  - cbn in Haccess. destruct Haccess as (p & -> & _).
    split; [intros _|by eexists]. apply elem_of_union. right. by apply elem_of_singleton.
  - assert (lastContainerEndpoint id (migratorEndpoints exFreshMigrator) = None) as Hl.
    { unfold lastContainerEndpoint. cbn [exFreshMigrator migratorEndpoints].
      rewrite !filter_cons_False, filter_nil;
        [done|intros [Hid Hkube]; cbn in Hid, Hkube; congruence..]. }
    cbn [exFreshMigrator migratorEndpoints] in Haccess, Hl.
    rewrite Hl in Haccess. rewrite Haccess. split; [by intros [??]|].
    intros [Hin|Hin]%elem_of_union; by apply elem_of_singleton in Hin.
Defined.

(** * The defaults of the settings *)

(** X18. [kubeconfigExpiryToDB32] and [helmRepositoryURLToDB32] each set
    their field of the settings to its default and leave the other one, so
    that the order of the two does not show: after both, the expiry of the
    kubeconfig and the URL of the Helm repository are the defaults. When
    the store has no settings, or fails to write them, each returns the
    error of the store and writes nothing. *)
Theorem settings_defaults (c : Services32) (m : MigratorDB32) :
  let kube := kubeconfigExpiryToDB32 c m in
  let helm := helmRepositoryURLToDB32 c m in
  match settingsBucket m, UpdateSettings_fails c with
  | None, _ => kube = (Some ErrObjectNotFound, m) ∧ helm = (Some ErrObjectNotFound, m)
  | Some _, Some err => kube = (Some err, m) ∧ helm = (Some err, m)
  | Some settings, None =>
      kube = (None, setSettingsBucket
                      (Some (Settings.setKubeconfigExpiry DefaultKubeconfigExpiry settings))
                      m)
      ∧ helm = (None, setSettingsBucket
                        (Some (Settings.setHelmRepositoryURL DefaultHelmRepositoryURL
                                 settings)) m)
      ∧ helmRepositoryURLToDB32 c kube.2 = kubeconfigExpiryToDB32 c helm.2
      ∧ Settings.KubeconfigExpiry <$> settingsBucket (helmRepositoryURLToDB32 c kube.2).2
        = Some DefaultKubeconfigExpiry
      ∧ Settings.HelmRepositoryURL <$> settingsBucket (helmRepositoryURLToDB32 c kube.2).2
        = Some DefaultHelmRepositoryURL
  end.
Proof.
  cbv zeta.
  unfold kubeconfigExpiryToDB32, helmRepositoryURLToDB32, settingsService.Settings,
    settingsService.UpdateSettings.
  destruct (settingsBucket m) as [settings|] eqn:Hs; [|done].
  destruct (UpdateSettings_fails c) as [err|] eqn:Hfail; [done|].
  cbn [snd settingsBucket setSettingsBucket]. done.
Qed.
